(** * PMFG construction: a shallow embedding of the repository's C/C++ variants

    The repository holds several attempts at building a Planar Maximally
    Filtered Graph with OGDF: [teste.c] ([create_pmfg]), [unnamed/part_000]
    ([create_pmfg_spqr_only], [create_pmfg_incremental]), [teste.cpp]
    ([createPMFG]), [teste3.cpp] ([PMFGGenerator::createPMFG]) and
    [unnamed/part_001] (the bounded top-K reader followed by a union-find
    tree phase).  Each is embedded below in a module of its own.

    Conventions of the embedding:
    - [int] values are unbounded ([Z], or [nat] for loop counters and node
      numbers that the code only ever produces from [0] upwards); the
      theorems therefore speak about inputs for which [n * (n - 1)] fits
      in an [int], the only inputs for which the C code is defined.  The
      exception is [teste3.cpp], where one line of the file can name the
      node [INT_MAX]: [getNumNodes] and [printPMFGStats] have the 32-bit
      wrap of their [int] arithmetic written out;
    - a [double] weight is a canonical rational [Qc]: the data model asks
      for finite, non-NaN weights, and comparing such doubles is comparing
      the rationals they denote;
    - what OGDF and the C/C++ library provide (the planarity routines,
      [qsort], [std::sort]) is not part of the repository: these are
      Section variables, with their contracts as hypotheses where a
      theorem needs them;
    - the readers ([CSVEdgeListReader] of [teste3.cpp], [count_lines] and
      [read_csv_matrix] of [unnamed/part_002]) work on a file given as its
      lines or its characters, [None] for a file that cannot be opened; a
      string is the list of its characters.  [getline], [fgets], [strtok]
      and the [std::string] searches are written out after the C and C++
      standards; the number parsers ([stoi], [stod], [atof]) are
      parameters. *)

From Stdlib Require Import QArith Qcanon Ascii.
From stdpp Require Import base numbers list sorting gmap.

Set Default Proof Using "Type".
Local Open Scope Z_scope.

(** ** Loops *)

(** A C [for]/[while] loop whose condition is [cond] and whose body
    (together with the increment) is [body]; [fuel] bounds the number of
    iterations, and [run_loop_exits] below shows when it is enough. *)
Section loops.
Context {St : Type} (cond : St → bool) (body : St → St).

Fixpoint run_loop (fuel : nat) (s : St) : St :=
  match fuel with
  | O => s
  | S fuel' => if cond s then run_loop fuel' (body s) else s
  end.

(** The states the loop passes through at its head, from [init]. *)
Inductive loop_reach (init : St) : St → Prop :=
  | reach_init : loop_reach init init
  | reach_iter s : loop_reach init s → cond s = true → loop_reach init (body s).

Lemma loop_reach_trans a b c :
  loop_reach a b → loop_reach b c → loop_reach a c.
Proof. intros Hab Hbc. induction Hbc; eauto using loop_reach. Qed.

Lemma run_loop_reach fuel s : loop_reach s (run_loop fuel s).
Proof.
  revert s. induction fuel as [|fuel IH]; intros s; simpl.
  - constructor.
  - destruct (cond s) eqn:Hc; [|constructor].
    eapply loop_reach_trans; [|apply IH].
    apply reach_iter; [constructor|done].
Qed.

Lemma loop_reach_invariant (P : St → Prop) init :
  P init → (∀ s, P s → cond s = true → P (body s)) →
  ∀ s, loop_reach init s → P s.
Proof. intros H0 Hstep s Hr. induction Hr; eauto. Qed.

(** With a measure that every iteration decreases, fuel above the measure
    lets the loop reach its exit. *)
Lemma run_loop_exits (measure : St → nat) :
  (∀ s, cond s = true → (measure (body s) < measure s)%nat) →
  ∀ fuel s, (measure s ≤ fuel)%nat → cond (run_loop fuel s) = false.
Proof.
  intros Hdec fuel. induction fuel as [|fuel IH]; intros s Hm; simpl.
  - destruct (cond s) eqn:Hc; [|done].
    specialize (Hdec s Hc). lia.
  - destruct (cond s) eqn:Hc; [|done].
    apply IH. specialize (Hdec s Hc). lia.
Qed.
End loops.

Lemma run_loop_false {St} (cond : St → bool) (body : St → St) fuel s :
  cond s = false → run_loop cond body fuel s = s.
Proof. intros Hc. destruct fuel; simpl; [done|]. by rewrite Hc. Qed.

Lemma run_loop_ext {St} (cond : St → bool) (body1 body2 : St → St) fuel s :
  (∀ s, body1 s = body2 s) → run_loop cond body1 fuel s = run_loop cond body2 fuel s.
Proof.
  intros Hext. revert s. induction fuel as [|fuel IH]; intros s; simpl; [done|].
  destruct (cond s); [|done]. by rewrite Hext, IH.
Qed.

Lemma loop_reach_ext {St} (cond : St → bool) (body1 body2 : St → St) init s :
  (∀ s, body1 s = body2 s) →
  loop_reach cond body1 init s → loop_reach cond body2 init s.
Proof.
  intros Hext. induction 1 as [|s' Hr IH Hc]; [constructor|].
  rewrite Hext. by constructor.
Qed.

(** ** The OGDF graph, as far as the repository uses it *)

(** Nodes are created first and never removed, so a node is its number
    [0 .. n-1].  The edges are kept in insertion order; an edge handle
    ([ogdf::edge]) is the position of the edge in that order. *)
Abbreviation node := nat (only parsing).
Abbreviation Graph := (list (nat * nat)) (only parsing).

Definition newEdge (G : Graph) (u v : node) : Graph * nat :=
  (G ++ [(u, v)], length G).

Definition delEdge (G : Graph) (e : nat) : Graph := delete e G.

Definition numberOfEdges (G : Graph) : Z := Z.of_nat (length G).

(** The unordered pair behind an edge. *)
Definition unordered (e : node * node) : node * node :=
  if decide (e.1 ≤ e.2)%nat then e else (e.2, e.1).

(** The two loops of the repository that look an edge up in the graph:
    [(e->source() == u && e->target() == v) || (e->source() == v && e->target() == u)]. *)
Definition edge_exists (G : Graph) (u v : node) : bool :=
  existsb (λ e, bool_decide (e.1 = u ∧ e.2 = v) || bool_decide (e.1 = v ∧ e.2 = u)) G.

(** A simple graph: no self-loop and no pair joined twice. *)
Definition no_self_loops (G : Graph) : Prop := ∀ u v, (u, v) ∈ G → u ≠ v.
Definition no_duplicate_edges (G : Graph) : Prop := NoDup (unordered <$> G).

(** ** The candidate pairs of an [n × n] matrix *)

(** [for (i = 0; i < n; i++) for (j = i + 1; j < n; j++)], in scan order. *)
Definition upper_pairs (n : nat) : list (nat * nat) :=
  flat_map (λ i, (λ j, (i, j)) <$> seq (S i) (n - S i)) (seq 0 n).

(** [proximity_matrix[i][j]] *)
Definition Matrix := nat → nat → Qc.

Lemma elem_of_upper_pairs n i j :
  (i, j) ∈ upper_pairs n ↔ (i < j < n)%nat.
Proof.
  unfold upper_pairs. rewrite list_elem_of_In, in_flat_map. split.
  - intros (x & Hx & Hin). apply list_elem_of_In, list_elem_of_fmap in Hin.
    destruct Hin as (y & [= -> ->] & Hy).
    apply list_elem_of_In in Hx. apply elem_of_seq in Hx, Hy. lia.
  - intros H. exists i. split.
    + apply list_elem_of_In, elem_of_seq. lia.
    + apply list_elem_of_In, list_elem_of_fmap. exists j. split; [done|].
      apply elem_of_seq. lia.
Qed.

Lemma upper_pairs_lt n p : p ∈ upper_pairs n → (p.1 < p.2 < n)%nat.
Proof. destruct p as [i j]. apply elem_of_upper_pairs. Qed.

Lemma NoDup_flat_map {A B} (f : A → list B) (l : list A) :
  NoDup l → (∀ a, a ∈ l → NoDup (f a)) →
  (∀ a b x, a ∈ l → b ∈ l → x ∈ f a → x ∈ f b → a = b) →
  NoDup (flat_map f l).
Proof.
  induction 1 as [|a l Hnotin Hnd IH]; intros Hf Hdisj; simpl.
  - constructor.
  - apply NoDup_app. split_and!.
    + apply Hf. left.
    + intros x Hx Hx'. apply list_elem_of_In, in_flat_map in Hx'.
      destruct Hx' as (b & Hb & Hxb). apply list_elem_of_In in Hb, Hxb.
      assert (a = b) as -> by (eapply Hdisj; [left|by right|done..]).
      done.
    + apply IH.
      * intros b Hb. apply Hf. by right.
      * intros b c x Hb Hc. apply Hdisj; by right.
Qed.

Lemma NoDup_upper_pairs n : NoDup (upper_pairs n).
Proof.
  apply NoDup_flat_map.
  - apply NoDup_seq.
  - intros i _. apply NoDup_fmap_2; [|apply NoDup_seq]. by intros ?? [= ->].
  - intros a b [i j] _ _ Ha Hb.
    apply list_elem_of_fmap in Ha as (? & [= -> ->] & _).
    by apply list_elem_of_fmap in Hb as (? & [= -> ->] & _).
Qed.

Lemma length_upper_rows n m :
  (m ≤ n)%nat →
  2 * Z.of_nat (length (flat_map (λ i, (λ j, (i, j)) <$> seq (S i) (n - S i)) (seq 0 m)))
  = Z.of_nat m * (2 * Z.of_nat n - Z.of_nat m - 1).
Proof.
  induction m as [|m IH]; intros Hm; [done|].
  rewrite seq_S, flat_map_app, length_app. simpl.
  rewrite app_nil_r, length_fmap, length_seq. lia.
Qed.

(** The candidate set has [n * (n - 1) / 2] members. *)
Lemma length_upper_pairs n :
  Z.of_nat (length (upper_pairs n)) = Z.of_nat n * (Z.of_nat n - 1) / 2.
Proof.
  pose proof (length_upper_rows n n ltac:(lia)) as H. fold (upper_pairs n) in H.
  apply Z.div_unique_exact; lia.
Qed.

(** ** Library sorting routines *)

(** What ISO C promises of [qsort] and ISO C++ of [std::sort]: the result
    is a rearrangement of the input in which no element comes before one it
    must follow.  The order of elements that compare equal is left to the
    implementation. *)
Definition sorts {A} (precedes : relation A) (sort : list A → list A) : Prop :=
  ∀ l, sort l ≡ₚ l ∧ StronglySorted precedes (sort l).

(** Where the order leaves no two elements of the input tied, the contract
    fixes the result. *)
Lemma sorts_unique {A} (R : relation A) (sort1 sort2 : list A → list A) l :
  sorts R sort1 → sorts R sort2 →
  (∀ a b, a ∈ l → b ∈ l → R a b → R b a → a = b) →
  sort1 l = sort2 l.
Proof.
  intros H1 H2 Hanti. destruct (H1 l) as [Hp1 Hs1], (H2 l) as [Hp2 Hs2].
  apply (StronglySorted_unique_strong R); [|done..|by rewrite Hp1, Hp2].
  intros a b Ha Hb. rewrite Hp1 in Ha. rewrite Hp2 in Hb. by apply Hanti.
Qed.

(** One implementation of the contract, used to run the embedding. *)
Lemma merge_sort_sorts {A} (R : relation A) `{∀ x y, Decision (R x y)} :
  Transitive R → Total R → sorts R (merge_sort R).
Proof.
  intros ?? l. split.
  - apply merge_sort_Permutation.
  - by apply StronglySorted_merge_sort.
Qed.

(** Sorting the reversed input is another one: it lays ties out the other
    way round. *)
Lemma sorts_reverse {A} (R : relation A) (sort : list A → list A) :
  sorts R sort → sorts R (sort ∘ reverse).
Proof.
  intros Hs l. destruct (Hs (reverse l)) as [Hp Hsorted]. split; [|done].
  simpl. by rewrite Hp, reverse_Permutation.
Qed.

(** ** [teste.c] and [unnamed/part_000]: the sorted edge list *)

(** Both files declare the same [Edge] struct, the same comparison function
    and the same extraction loop. *)
Module EdgeList.

Record Edge := mkEdge { i : nat; j : nat; weight : Qc }.

Definition endpoints (e : Edge) : node * node := (i e, j e).

(** [compare_edges_desc]: by weight alone. *)
Definition compare_edges_desc (a b : Edge) : Z :=
  if decide (weight a < weight b)%Qc then 1
  else if decide (weight b < weight a)%Qc then -1
  else 0.

(** [a] may stand before [b] in an array sorted with [compare_edges_desc]. *)
Definition desc_le (a b : Edge) : Prop := compare_edges_desc a b ≤ 0.

(** The extraction loop: every pair [i < j] with its proximity. *)
Definition extract_edges (proximity_matrix : Matrix) (n : nat) : list Edge :=
  (λ p, mkEdge p.1 p.2 (proximity_matrix p.1 p.2)) <$> upper_pairs n.

(** The variables of the construction loops: the index [k] into the
    sorted edges, the counter [added_edges] and the graph [pmfg]. *)
Record loop_state := LoopState { k : nat; added_edges : Z; pmfg : Graph }.

Definition loop_init : loop_state := LoopState 0 0 [].

(** [k < edge_count && added_edges < max_edges] *)
Definition loop_cond (edges : list Edge) (max_edges : Z) (s : loop_state) : bool :=
  bool_decide (k s < length edges)%nat && bool_decide (added_edges s < max_edges).

Global Instance desc_le_dec a b : Decision (desc_le a b).
Proof. unfold desc_le. apply _. Defined.

Lemma desc_le_weight a b : desc_le a b ↔ (weight b ≤ weight a)%Qc.
Proof.
  unfold desc_le, compare_edges_desc. repeat case_decide; split; try lia.
  - intros H'. by apply Qcle_not_lt in H'.
  - intros _. by apply Qclt_le_weak.
  - intros _. by apply Qcnot_lt_le.
Qed.

Global Instance desc_le_trans : Transitive desc_le.
Proof.
  intros a b c. rewrite !desc_le_weight. intros. by etrans.
Qed.

Global Instance desc_le_total : Total desc_le.
Proof.
  intros a b. rewrite !desc_le_weight.
  destruct (Qclt_le_dec (weight a) (weight b)); [right|left]; [|done].
  by apply Qclt_le_weak.
Qed.

Lemma endpoints_extract_edges W n : endpoints <$> extract_edges W n = upper_pairs n.
Proof.
  unfold extract_edges. rewrite <-list_fmap_compose.
  rewrite <-(list_fmap_id (upper_pairs n)) at 2.
  apply list_fmap_ext. by intros ? [??] _.
Qed.

(** *** The greedy scan shared by the construction loops

    One iteration looks at [edges[k]] and appends it to the graph when
    [accepts] says so. *)
Section greedy.
Context (accepts : Graph → node → node → bool).
Context (edges : list Edge) (max_edges : Z).

Definition greedy_body (s : loop_state) : loop_state :=
  match edges !! k s with
  | Some e =>
      if accepts (pmfg s) (i e) (j e)
      then LoopState (S (k s)) (added_edges s + 1) (pmfg s ++ [endpoints e])
      else LoopState (S (k s)) (added_edges s) (pmfg s)
  | None => s
  end.

Definition greedy_inv (s : loop_state) : Prop :=
  (k s ≤ length edges)%nat ∧
  added_edges s = numberOfEdges (pmfg s) ∧
  sublist (pmfg s) (endpoints <$> take (k s) edges) ∧
  (0 ≤ max_edges → added_edges s ≤ max_edges).

Lemma greedy_inv_init : greedy_inv loop_init.
Proof. split_and!; simpl; [lia|done|constructor|done]. Qed.

Lemma greedy_inv_body s :
  greedy_inv s → loop_cond edges max_edges s = true → greedy_inv (greedy_body s).
Proof.
  intros (Hk & Hadd & Hsub & Hmax) Hcond.
  apply andb_true_iff in Hcond as [Hlt Hbudget].
  apply bool_decide_eq_true in Hlt, Hbudget.
  unfold greedy_body.
  destruct (lookup_lt_is_Some_2 edges (k s) Hlt) as [e He]. rewrite He.
  assert (endpoints <$> take (S (k s)) edges
          = (endpoints <$> take (k s) edges) ++ [endpoints e]) as Htake.
  { erewrite take_S_r by done. by rewrite fmap_app. }
  destruct (accepts _ _ _); split_and!; simpl.
  - lia.
  - unfold numberOfEdges in *. rewrite length_app. simpl. lia.
  - rewrite Htake. by apply sublist_app.
  - lia.
  - lia.
  - done.
  - rewrite Htake. by apply sublist_inserts_r.
  - done.
Qed.

Lemma greedy_reach_inv s :
  loop_reach (loop_cond edges max_edges) greedy_body loop_init s → greedy_inv s.
Proof.
  apply loop_reach_invariant; [apply greedy_inv_init|apply greedy_inv_body].
Qed.

(** Whatever [accepts] keeps true of the graph holds throughout. *)
Lemma greedy_reach_preserves (P : Graph → Prop) s :
  P [] → (∀ G u v, P G → accepts G u v = true → P (G ++ [(u, v)])) →
  loop_reach (loop_cond edges max_edges) greedy_body loop_init s → P (pmfg s).
Proof.
  intros Hnil Hacc.
  apply (loop_reach_invariant _ _ (λ s, P (pmfg s))); [done|].
  intros s' HP _. unfold greedy_body.
  destruct (edges !! k s') as [e|]; [|done].
  destruct (accepts _ _ _) eqn:Ha; simpl; [|done]. by apply Hacc.
Qed.

(** The scan leaves the loop within [length edges] iterations. *)
Lemma greedy_exits s :
  loop_cond edges max_edges
    (run_loop (loop_cond edges max_edges) greedy_body (length edges - k s) s) = false.
Proof.
  apply (run_loop_exits _ _ (λ s, (length edges - k s)%nat)); [|done].
  intros s' Hcond. apply andb_true_iff in Hcond as [Hlt _].
  apply bool_decide_eq_true in Hlt. unfold greedy_body.
  destruct (lookup_lt_is_Some_2 edges (k s') Hlt) as [e He]. rewrite He.
  destruct (accepts _ _ _); simpl; lia.
Qed.

Lemma greedy_exits_init :
  loop_cond edges max_edges
    (run_loop (loop_cond edges max_edges) greedy_body (length edges) loop_init) = false.
Proof.
  pose proof (greedy_exits loop_init) as H. simpl in H.
  by rewrite Nat.sub_0_r in H.
Qed.

(** With the budget used up the loop condition is false: no further
    candidate is looked at. *)
Lemma loop_cond_budget s :
  added_edges s = max_edges → loop_cond edges max_edges s = false.
Proof.
  intros H. unfold loop_cond. rewrite andb_false_iff. right.
  apply bool_decide_eq_false. lia.
Qed.
End greedy.

(** A graph drawn from the candidates of a matrix is simple. *)
Lemma sublist_candidates_simple (G : Graph) (edges : list Edge) W n m :
  edges ≡ₚ extract_edges W n →
  sublist G (endpoints <$> take m edges) →
  no_self_loops G ∧ no_duplicate_edges G ∧ (∀ p, p ∈ G → (p.1 < p.2 < n)%nat).
Proof.
  intros Hperm Hsub.
  assert (sublist G (endpoints <$> edges)) as Hsub'.
  { etrans; [done|]. apply fmap_sublist, sublist_take. }
  assert (endpoints <$> edges ≡ₚ upper_pairs n) as Hp.
  { by rewrite Hperm, endpoints_extract_edges. }
  assert (∀ p, p ∈ G → (p.1 < p.2 < n)%nat) as Hlt.
  { intros p Hin. apply upper_pairs_lt. rewrite <-Hp.
    by eapply elem_of_sublist. }
  split_and!; [| |done].
  - intros u v Hin. specialize (Hlt _ Hin). simpl in Hlt. lia.
  - unfold no_duplicate_edges.
    assert (unordered <$> G = G) as ->.
    { rewrite <-(list_fmap_id G) at 2. apply list_fmap_ext.
      intros idx p Hin. apply list_elem_of_lookup_2 in Hin.
      specialize (Hlt p Hin). unfold unordered. case_decide; [done|]. exfalso; lia. }
    eapply sublist_NoDup; [|done]. rewrite Hp. apply NoDup_upper_pairs.
Qed.
End EdgeList.

(** ** [teste.c]: [create_pmfg] *)

Module TesteC.
Import EdgeList.

Section create_pmfg.
(** [ogdf::isPlanar], a function of the graph it is given. *)
Variable isPlanar : Graph → bool.
(** The C library's [qsort] applied to the edge array. *)
Variable qsort : (Edge → Edge → Z) → list Edge → list Edge.

(** [is_planar_with_edge]: add the edge, ask OGDF, remove the edge.
    The result is the returned [int] and the graph the caller is left
    with. *)
Definition is_planar_with_edge (G : Graph) (u v : node) : Z * Graph :=
  let '(G1, e) := newEdge G u v in
  let isPlanar_ := isPlanar G1 in
  let G2 := delEdge G1 e in
  (if isPlanar_ then 1 else 0, G2).

(** [int max_edges = 3 * (n - 2);] *)
Definition max_edges (n : nat) : Z := 3 * (Z.of_nat n - 2).

(** One iteration of the loop of step 3 (the progress [printf]s left
    out). *)
Definition loop_body (edges : list Edge) (s : loop_state) : loop_state :=
  match edges !! k s with
  | Some e =>
      let '(planar, G) := is_planar_with_edge (pmfg s) (i e) (j e) in
      if bool_decide (planar ≠ 0)
      then LoopState (S (k s)) (added_edges s + 1) (newEdge G (i e) (j e)).1
      else LoopState (S (k s)) (added_edges s) G
  | None => s
  end.

(** The loop of step 3 over the sorted edges. *)
Definition create_pmfg_loop (edges : list Edge) (n : nat) : loop_state :=
  run_loop (loop_cond edges (max_edges n)) (loop_body edges) (length edges) loop_init.

Definition create_pmfg (proximity_matrix : Matrix) (n : nat) : Graph :=
  let edges := qsort compare_edges_desc (extract_edges proximity_matrix n) in
  pmfg (create_pmfg_loop edges n).

(** Removing the edge that was just added gives the graph back. *)
Lemma delEdge_newEdge G u v : delEdge (newEdge G u v).1 (newEdge G u v).2 = G.
Proof.
  unfold delEdge, newEdge. cbn [fst snd].
  by rewrite delete_middle, app_nil_r.
Qed.

Lemma is_planar_with_edge_eq G u v :
  is_planar_with_edge G u v = (if isPlanar (G ++ [(u, v)]) then 1 else 0, G).
Proof.
  unfold is_planar_with_edge, newEdge. cbn beta iota. f_equal.
  apply (delEdge_newEdge G u v).
Qed.

(** The loop body is the greedy scan that accepts an edge when the
    graph with that edge passes [isPlanar]. *)
Definition accepts (G : Graph) (u v : node) : bool := isPlanar (G ++ [(u, v)]).

Lemma loop_body_greedy edges s : loop_body edges s = greedy_body accepts edges s.
Proof.
  unfold loop_body, greedy_body, accepts.
  destruct (edges !! k s) as [e|]; [|done].
  rewrite is_planar_with_edge_eq.
  by destruct (isPlanar _).
Qed.

Lemma loop_reach_greedy edges m s :
  loop_reach (loop_cond edges m) (loop_body edges) loop_init s ↔
  loop_reach (loop_cond edges m) (greedy_body accepts edges) loop_init s.
Proof.
  split; apply loop_reach_ext; intros s'; by rewrite loop_body_greedy.
Qed.

Lemma create_pmfg_loop_greedy edges n :
  create_pmfg_loop edges n
  = run_loop (loop_cond edges (max_edges n)) (greedy_body accepts edges)
      (length edges) loop_init.
Proof.
  apply run_loop_ext, loop_body_greedy.
Qed.
End create_pmfg.
End TesteC.

(** ** [unnamed/part_000]: [create_pmfg_spqr_only] *)

Module SpqrOnly.
Import EdgeList.

(** What a call into the SPQR tree can do: return a [bool] or throw a
    [std::exception]. *)
Inductive call (A : Type) := Returned (a : A) | Thrown.
Arguments Returned {A} a.
Arguments Thrown {A}.

Section create_pmfg_spqr_only.
(** [spqr->supportEdge(u, v)] on the tree that follows the graph:
    [spqr->addEdge(e)] keeps the tree in step with [pmfg], so the answer
    is a function of the graph. *)
Variable supportEdge : Graph → node → node → call bool.
Variable qsort : (Edge → Edge → Z) → list Edge → list Edge.

(** [int max_edges = 3 * n - 6;] *)
Definition max_edges (n : nat) : Z := 3 * Z.of_nat n - 6.

(** One iteration: [try { if (supportEdge) { newEdge; addEdge;
    added_edges++ } } catch (...) { continue; }]. *)
Definition loop_body (edges : list Edge) (s : loop_state) : loop_state :=
  match edges !! k s with
  | Some e =>
      match supportEdge (pmfg s) (i e) (j e) with
      | Returned true =>
          LoopState (S (k s)) (added_edges s + 1) (newEdge (pmfg s) (i e) (j e)).1
      | Returned false => LoopState (S (k s)) (added_edges s) (pmfg s)
      | Thrown => LoopState (S (k s)) (added_edges s) (pmfg s)
      end
  | None => s
  end.

Definition create_pmfg_spqr_only_loop (edges : list Edge) (n : nat) : loop_state :=
  run_loop (loop_cond edges (max_edges n)) (loop_body edges) (length edges) loop_init.

Definition create_pmfg_spqr_only (proximity_matrix : Matrix) (n : nat) : Graph :=
  let edges := qsort compare_edges_desc (extract_edges proximity_matrix n) in
  pmfg (create_pmfg_spqr_only_loop edges n).

Definition accepts (G : Graph) (u v : node) : bool :=
  match supportEdge G u v with Returned true => true | _ => false end.

Lemma spqr_loop_body_greedy edges s : loop_body edges s = greedy_body accepts edges s.
Proof.
  unfold loop_body, greedy_body, accepts.
  destruct (edges !! k s) as [e|]; [|done].
  by destruct (supportEdge _ _ _) as [[]|].
Qed.

Lemma spqr_loop_reach_greedy edges m s :
  loop_reach (loop_cond edges m) (loop_body edges) loop_init s ↔
  loop_reach (loop_cond edges m) (greedy_body accepts edges) loop_init s.
Proof.
  split; apply loop_reach_ext; intros s'; by rewrite spqr_loop_body_greedy.
Qed.

Lemma create_pmfg_spqr_only_loop_greedy edges n :
  create_pmfg_spqr_only_loop edges n
  = run_loop (loop_cond edges (max_edges n)) (greedy_body accepts edges)
      (length edges) loop_init.
Proof.
  apply run_loop_ext, spqr_loop_body_greedy.
Qed.
End create_pmfg_spqr_only.
End SpqrOnly.

(** ** [unnamed/part_000]: [create_pmfg_incremental] *)

Module Incremental.
Import EdgeList.
Export SpqrOnly (call, Returned, Thrown).

(** The variables of phase 1. *)
Record tree_state := TreeState {
  t_k : nat;
  components : Z;
  node_connected : list bool;
  t_added_edges : Z;
  t_pmfg : Graph
}.

(** [calloc(n, sizeof(bool))], [components = n], no edge. *)
Definition tree_init (n : nat) : tree_state :=
  TreeState 0 (Z.of_nat n) (replicate n false) 0 [].

(** [k < edge_count && components > 1] *)
Definition tree_cond (edges : list Edge) (s : tree_state) : bool :=
  bool_decide (t_k s < length edges)%nat && bool_decide (components s > 1).

(** One iteration of phase 1.  The two flags are set before the two
    [if (!node_connected[..]) components--;] statements read them. *)
Definition tree_body (edges : list Edge) (s : tree_state) : tree_state :=
  match edges !! t_k s with
  | Some e =>
      if negb (node_connected s !!! i e) || negb (node_connected s !!! j e) then
        let pmfg' := (newEdge (t_pmfg s) (i e) (j e)).1 in
        let connected' := <[i e := true]> (<[j e := true]> (node_connected s)) in
        let components1 :=
          if negb (connected' !!! i e) then components s - 1 else components s in
        let components2 :=
          if negb (connected' !!! j e) then components1 - 1 else components1 in
        TreeState (S (t_k s)) components2 connected' (t_added_edges s + 1) pmfg'
      else
        TreeState (S (t_k s)) (components s) (node_connected s)
          (t_added_edges s) (t_pmfg s)
  | None => s
  end.

Definition tree_phase (edges : list Edge) (n : nat) : tree_state :=
  run_loop (tree_cond edges) (tree_body edges) (length edges) (tree_init n).

Section create_pmfg_incremental.
(** [spqr->supportEdge(u, v)]; phase 2 calls it outside any [try]. *)
Variable supportEdge : Graph → node → node → call bool.
Variable qsort : (Edge → Edge → Z) → list Edge → list Edge.

(** The variables of phase 2, and whether an exception has left the
    loop. *)
Record sat_state := SatState { s_loop : loop_state; s_thrown : bool }.

Definition max_edges (n : nat) : Z := 3 * Z.of_nat n - 6.

Definition sat_cond (edges : list Edge) (n : nat) (s : sat_state) : bool :=
  negb (s_thrown s) && loop_cond edges (max_edges n) (s_loop s).

(** One iteration of phase 2:
    [if (!edge_exists && spqr->supportEdge(..)) { newEdge; addEdge; added_edges++ }]. *)
Definition sat_body (edges : list Edge) (s : sat_state) : sat_state :=
  let l := s_loop s in
  match edges !! k l with
  | Some e =>
      if edge_exists (pmfg l) (i e) (j e)
      then SatState (LoopState (S (k l)) (added_edges l) (pmfg l)) false
      else
        match supportEdge (pmfg l) (i e) (j e) with
        | Returned true =>
            SatState (LoopState (S (k l)) (added_edges l + 1)
                        (newEdge (pmfg l) (i e) (j e)).1) false
        | Returned false =>
            SatState (LoopState (S (k l)) (added_edges l) (pmfg l)) false
        | Thrown => SatState l true
        end
  | None => s
  end.

(** Phase 2 starts again at [k = 0] with the graph and the counter of
    phase 1. *)
Definition saturate_phase (edges : list Edge) (n : nat) (t : tree_state) : sat_state :=
  run_loop (sat_cond edges n) (sat_body edges) (length edges)
    (SatState (LoopState 0 (t_added_edges t) (t_pmfg t)) false).

Definition create_pmfg_incremental (proximity_matrix : Matrix) (n : nat) : call Graph :=
  let edges := qsort compare_edges_desc (extract_edges proximity_matrix n) in
  let t := tree_phase edges n in
  let s := saturate_phase edges n t in
  if s_thrown s then Thrown else Returned (pmfg (s_loop s)).
End create_pmfg_incremental.
End Incremental.

(** ** [print_pmfg_stats] ([teste.c] and [unnamed/part_000]) *)

Module Stats.
(** The value of a [double] expression: a number, an infinity or NaN.
    [Finite q] carries the exact quotient, which the hardware rounds. *)
Inductive double := Finite (q : Qc) | Infinity (negative : bool) | NaN.

(** IEEE 754 division of two numbers; the divisors below come from an
    [int], so a zero divisor is [+0.0]. *)
Definition fdiv (a b : Qc) : double :=
  if decide (b = 0%Qc) then
    if decide (a = 0%Qc) then NaN else Infinity (bool_decide (a < 0)%Qc)
  else Finite (a / b)%Qc.

Definition fmul (a : double) (b : Qc) : double :=
  match a with
  | Finite q => Finite (q * b)%Qc
  | Infinity s => if decide (b = 0%Qc) then NaN else Infinity (xorb s (bool_decide (b < 0)%Qc))
  | NaN => NaN
  end.

Record stats := Stats { utilization : double; density : double }.

(** [n * (n - 1) / 2.0] *)
Definition density_divisor (n : nat) : Qc :=
  (Qc_of_Z (Z.of_nat n * (Z.of_nat n - 1)) / Qc_of_Z 2)%Qc.

(** The two numbers [print_pmfg_stats] prints, for [max_planar_edges]
    as the file computes it. *)
Definition print_pmfg_stats_with (max_planar_edges : Z) (G : Graph) (n : nat) : stats :=
  let num_edges := numberOfEdges G in
  Stats (fmul (fdiv (Qc_of_Z num_edges) (Qc_of_Z max_planar_edges)) (Qc_of_Z 100))
        (fdiv (Qc_of_Z num_edges) (density_divisor n)).

(** [teste.c]: [int max_planar_edges = 3 * (n - 2);] *)
Definition max_planar_edges_c (n : nat) : Z := 3 * (Z.of_nat n - 2).
(** [unnamed/part_000]: [int max_planar_edges = 3 * n - 6;] *)
Definition max_planar_edges_spqr (n : nat) : Z := 3 * Z.of_nat n - 6.

Definition print_pmfg_stats_c (G : Graph) (n : nat) : stats :=
  print_pmfg_stats_with (max_planar_edges_c n) G n.
Definition print_pmfg_stats_spqr (G : Graph) (n : nat) : stats :=
  print_pmfg_stats_with (max_planar_edges_spqr n) G n.
End Stats.

(** ** [teste.cpp]: [createPMFG] *)

Module TesteCpp.

(** [std::tuple<double, int, int>]: weight, u, v. *)
Abbreviation WEdge := (Qc * nat * nat)%type (only parsing).

Definition weight_of (e : WEdge) : Qc := e.1.1.
Definition pair_of (e : WEdge) : nat * nat := (e.1.2, e.2).

(** [operator<] of [std::tuple]: lexicographic, each component compared
    with its own [<]. *)
Definition tuple_lt (a b : WEdge) : Prop :=
  (a.1.1 < b.1.1)%Qc ∨
  (¬ (b.1.1 < a.1.1)%Qc ∧
    ((a.1.2 < b.1.2)%nat ∨ (¬ (b.1.2 < a.1.2)%nat ∧ (a.2 < b.2)%nat))).

Global Instance tuple_lt_dec a b : Decision (tuple_lt a b).
Proof. unfold tuple_lt. apply _. Defined.

(** A range sorted by [std::sort] with [operator<] has no element before
    one that is smaller. *)
Definition ascending (a b : WEdge) : Prop := ¬ tuple_lt b a.

Global Instance ascending_dec a b : Decision (ascending a b).
Proof. unfold ascending. apply _. Defined.

(** The complete graph read from the map: [weights[{i, j}]] is the
    stored weight, or [0.0] when the key is absent. *)
Definition complete_edges (weights : gmap (nat * nat) Qc) (n : nat) : list WEdge :=
  (λ p, (default 0%Qc (weights !! p), p.1, p.2)) <$> upper_pairs n.

(** The component labels after an accepted edge:
    [for (node w : G.nodes) if (component[w] == oldComp) component[w] = newComp;] *)
Definition relabel (component : list nat) (oldComp newComp : nat) : list nat :=
  (λ c, if decide (c = oldComp) then newComp else c) <$> component.

Section createPMFG.
(** [std::sort] on a range of tuples. *)
Variable std_sort : list WEdge → list WEdge.
(** The test made on the graph with the edge added:
    [spqrTree.originalGraph().numberOfNodes() == G.numberOfNodes()]
    for the tree built from that graph. *)
Variable isPlanar : Graph → bool.

(** [std::sort(edges.rbegin(), edges.rend())]: the reversed range is
    sorted, so the vector itself ends up in the opposite order. *)
Definition sort_descending (edges : list WEdge) : list WEdge :=
  reverse (std_sort (reverse edges)).

(** The body of the range-[for] over the sorted edges, with its
    [break]. *)
Fixpoint add_edges (n : nat) (edges : list WEdge) (component : list nat)
    (G : Graph) : Graph :=
  match edges with
  | [] => G
  | (weight, u, v) :: rest =>
      let '(component', G') :=
        if decide (component !!! u ≠ component !!! v) then
          let '(G1, e) := newEdge G u v in
          if isPlanar G1
          then (relabel component (component !!! v) (component !!! u), G1)
          else (component, delEdge G1 e)
        else (component, G) in
      if decide (numberOfEdges G' >= 3 * Z.of_nat n - 6) then G'
      else add_edges n rest component' G'
  end.

Definition createPMFG (weights : gmap (nat * nat) Qc) (n : nat) : Graph :=
  let edges := sort_descending (complete_edges weights n) in
  add_edges n edges (seq 0 n) [].
End createPMFG.
End TesteCpp.

(** ** [teste3.cpp]: [PMFGGenerator::createPMFG] *)

Module Teste3.
Export SpqrOnly (call, Returned, Thrown).

Record Edge := mkEdge { source : Z; target : Z; weight : Qc }.

(** [Edge::operator<]: [weight > other.weight]. *)
Definition edge_lt (a b : Edge) : Prop := (weight b < weight a)%Qc.

(** [normalizeEdge] *)
Definition normalizeEdge (src tgt : Z) : Z * Z :=
  if decide (src < tgt) then (src, tgt) else (tgt, src).

(** The members of the generator that [createPMFG] changes, with the loop
    variables [k] and [addedEdgeCount]. *)
Record state := State {
  k : nat;
  addedEdgeCount : Z;
  graph : Graph;
  addedEdges : gset (Z * Z)
}.

(** After [initializeGraph]: the nodes, no edge, nothing recorded. *)
Definition initial : state := State 0 0 [] ∅.

(** What one iteration of the loop did with its candidate. *)
Inductive outcome :=
  | Skipped_invalid      (* node index out of range: [continue] *)
  | Skipped_duplicate    (* pair found in [addedEdges]: [continue] *)
  | Added                (* [supportEdge] held: edge added *)
  | Not_supported        (* [supportEdge] returned false *)
  | Exception_caught.    (* [catch (const std::exception&)]: [continue] *)

Section createPMFG.
(** [spqrTree->supportEdge(u, v)], which may throw; [graph->newEdge] and
    [spqrTree->addEdge] after a positive answer are taken to return. *)
Variable supportEdge : Graph → node → node → call bool.
Variable numNodes : Z.

Definition maxEdges : Z := 3 * numNodes - 6.

Definition loop_cond (sortedEdges : list Edge) (s : state) : bool :=
  bool_decide (k s < length sortedEdges)%nat && bool_decide (addedEdgeCount s < maxEdges).

(** [++k] with everything else as it was. *)
Definition next (s : state) : state :=
  State (S (k s)) (addedEdgeCount s) (graph s) (addedEdges s).

Definition iteration (s : state) (edge : Edge) : outcome * state :=
  if bool_decide (source edge >= numNodes ∨ target edge >= numNodes ∨
                  source edge < 0 ∨ target edge < 0)
  then (Skipped_invalid, next s)
  else
    let normalizedEdge := normalizeEdge (source edge) (target edge) in
    if decide (normalizedEdge ∈ addedEdges s) then (Skipped_duplicate, next s)
    else
      let u := Z.to_nat (source edge) in
      let v := Z.to_nat (target edge) in
      match supportEdge (graph s) u v with
      | Returned true =>
          (Added, State (S (k s)) (addedEdgeCount s + 1) (newEdge (graph s) u v).1
                    ({[ normalizedEdge ]} ∪ addedEdges s))
      | Returned false => (Not_supported, next s)
      | Thrown => (Exception_caught, next s)
      end.

Definition loop_body (sortedEdges : list Edge) (s : state) : state :=
  match sortedEdges !! k s with
  | Some edge => (iteration s edge).2
  | None => s
  end.

(** [createPMFG] on a freshly initialised generator; it returns the
    graph. *)
Definition createPMFG_loop (sortedEdges : list Edge) : state :=
  run_loop (loop_cond sortedEdges) (loop_body sortedEdges) (length sortedEdges) initial.

Definition createPMFG (sortedEdges : list Edge) : Graph :=
  graph (createPMFG_loop sortedEdges).

(** [main]: the loaded edges are copied, sorted with
    [std::sort(edges.begin(), edges.end())] under [Edge::operator<] and
    handed to [createPMFG]. *)
Definition main_pmfg (std_sort : list Edge → list Edge) (edges : list Edge) : Graph :=
  createPMFG (std_sort edges).
End createPMFG.

(** A vector sorted under [Edge::operator<] has no element before one
    that is smaller, that is, of greater weight. *)
Definition sorted_before (a b : Edge) : Prop := ¬ edge_lt b a.

Global Instance sorted_before_dec a b : Decision (sorted_before a b).
Proof. unfold sorted_before, edge_lt. apply _. Defined.
End Teste3.

(** ** [unnamed/part_001]: the bounded reader and the tree phase of [main] *)

Module TopK.

Record Edge := mkEdge { source : nat; dest : nat; weight : Qc }.

Definition endpoints (e : Edge) : node * node := (source e, dest e).

(** [Edge::operator<]: [weight < other.weight]. *)
Definition edge_lt (a b : Edge) : Prop := (weight a < weight b)%Qc.

(** What a cell of the matrix file yields: a weight, or nothing when
    [stod] throws or the value is NaN or infinite. *)
Inductive cell := Number (w : Qc) | Unusable.

(** [std::priority_queue<Edge>] with the default comparison [std::less]:
    [top()] is an element no other element is greater than under
    [operator<].  The queue is the list of its elements with the top at
    the head.  Which of several elements of equal weight is on top is the
    implementation's choice; here it is the one pushed first. *)
Fixpoint push (e : Edge) (q : list Edge) : list Edge :=
  match q with
  | [] => [e]
  | x :: q' => if decide (weight x < weight e)%Qc then e :: q else x :: push e q'
  end.
Definition top (q : list Edge) : option Edge := head q.
Definition pop (q : list Edge) : list Edge := tail q.

(** [int maxEdges = 3 * (n - 2);]
    [int bufferSize = min(maxEdges * 10, 100000);] *)
Definition maxEdges (n : nat) : Z := 3 * (Z.of_nat n - 2).
Definition bufferSize (n : nat) : Z := Z.min (maxEdges n * 10) 100000.

(** The two branches that feed the queue.  [None]: [top()] was called on
    an empty queue, which C++ leaves undefined. *)
Definition offer (bufferSize : Z) (topEdges : list Edge) (edge : Edge)
    : option (list Edge) :=
  if decide (Z.of_nat (length topEdges) < bufferSize) then Some (push edge topEdges)
  else
    match top topEdges with
    | Some t =>
        if decide (weight t < weight edge)%Qc
        then Some (push edge (pop topEdges))
        else Some topEdges
    | None => None
    end.

(** The inner [while] over the cells of one line. *)
Fixpoint scan_cells (bufferSize : Z) (row col : nat) (cells : list cell)
    (topEdges : list Edge) : option (list Edge) :=
  match cells with
  | [] => Some topEdges
  | c :: cells' =>
      topEdges' ←
        (if decide (row < col)%nat then
           match c with
           | Number w => offer bufferSize topEdges (mkEdge row col w)
           | Unusable => Some topEdges
           end
         else Some topEdges);
      scan_cells bufferSize row (S col) cells' topEdges'
  end.

(** The outer [while] over the lines; [rows] are the lines after the
    header, each without its row name. *)
Fixpoint scan_rows (bufferSize : Z) (n row : nat) (rows : list (list cell))
    (topEdges : list Edge) : option (list Edge) :=
  match rows with
  | [] => Some topEdges
  | cells :: rows' =>
      topEdges' ← scan_cells bufferSize row 0 (take n cells) topEdges;
      scan_rows bufferSize n (S row) rows' topEdges'
  end.

Definition read_top_edges (n : nat) (rows : list (list cell)) : option (list Edge) :=
  scan_rows (bufferSize n) n 0 (take n rows) [].

(** Emptying the queue into the vector, top first, and
    [reverse(edges.begin(), edges.end())]. *)
Definition drain (topEdges : list Edge) : list Edge := topEdges.

Definition candidate_edges (n : nat) (rows : list (list cell)) : option (list Edge) :=
  (λ topEdges, reverse (drain topEdges)) <$> read_top_edges n rows.

(** Modelled from the spec: the [UnionFind] class that [main] uses is in
    no file of the repository.  §4.3 calls it a disjoint-set/union-find
    structure over nodes that tells whether two nodes are in one
    component: [find] gives the representative of a node's block and
    [unionBlocks] merges the blocks of two nodes. *)
Definition UnionFind (n : nat) : list nat := seq 0 n.
Definition find (uf : list nat) (x : nat) : nat := uf !!! x.
Definition unionBlocks (uf : list nat) (a b : nat) : list nat :=
  (λ r, if decide (r = find uf b) then find uf a else r) <$> uf.

(** [for (int i = 0; i < 5 && i < edges.size(); i++) graph.newEdge(..)] *)
Definition first_five (edges : list Edge) : Graph :=
  foldl (λ G e, (newEdge G (source e) (dest e)).1) [] (take 5 edges).

(** The variables of the tree phase. *)
Record tree_state := TreeState {
  t_i : nat;
  edgesAdded : Z;
  t_graph : Graph;
  uf : list nat
}.

(** [i < edges.size() && edgesAdded < n-1] *)
Definition tree_cond (edges : list Edge) (n : nat) (s : tree_state) : bool :=
  bool_decide (t_i s < length edges)%nat && bool_decide (edgesAdded s < Z.of_nat n - 1).

Definition tree_body (edges : list Edge) (s : tree_state) : tree_state :=
  match edges !! t_i s with
  | Some e =>
      if decide (find (uf s) (source e) ≠ find (uf s) (dest e)) then
        TreeState (S (t_i s)) (edgesAdded s + 1)
          (newEdge (t_graph s) (source e) (dest e)).1
          (unionBlocks (uf s) (source e) (dest e))
      else TreeState (S (t_i s)) (edgesAdded s) (t_graph s) (uf s)
  | None => s
  end.

(** The tree phase as [main] runs it: on the graph that already holds
    the first five edges, with a fresh [UnionFind]. *)
Definition tree_phase_from (G0 : Graph) (edges : list Edge) (n : nat) : tree_state :=
  run_loop (tree_cond edges n) (tree_body edges) (length edges)
    (TreeState 0 0 G0 (UnionFind n)).

Definition tree_phase (edges : list Edge) (n : nat) : tree_state :=
  tree_phase_from (first_five edges) edges n.
End TopK.

(** * Properties *)

(** ** Sorting by weight alone *)

Section sorted_by_weight.
Import EdgeList.

(** No two candidates of the list have the same weight. *)
Definition distinct_weights (l : list Edge) : Prop :=
  ∀ a b, a ∈ l → b ∈ l → weight a = weight b → a = b.

(** With distinct weights the contract of the sorting routine fixes its
    result. *)
Lemma sorts_distinct_unique (sort1 sort2 : list Edge → list Edge) l :
  sorts desc_le sort1 → sorts desc_le sort2 → distinct_weights l →
  sort1 l = sort2 l.
Proof.
  intros H1 H2 Hd. apply (sorts_unique desc_le); [done..|].
  intros a b Ha Hb Hab Hba. apply Hd; [done..|].
  apply desc_le_weight in Hab, Hba. by apply Qcle_antisym.
Qed.

(** A list in strictly descending order of weight has distinct weights. *)
Lemma strictly_descending_distinct l :
  StronglySorted (λ a b, (weight b < weight a)%Qc) l → distinct_weights l.
Proof.
  induction 1 as [|x l Hs IH Hx]; intros a b Ha Hb Hw.
  - by apply elem_of_nil in Ha.
  - rewrite Forall_forall in Hx.
    apply elem_of_cons in Ha as [->|Ha], Hb as [->|Hb]; [done| | |by apply IH].
    + specialize (Hx _ Hb). rewrite Hw in Hx. by destruct (Qclt_not_eq _ _ Hx).
    + specialize (Hx _ Ha). rewrite Hw in Hx. by destruct (Qclt_not_eq _ _ Hx).
Qed.

Lemma distinct_weights_perm l l' :
  l ≡ₚ l' → distinct_weights l → distinct_weights l'.
Proof. intros Hp Hd a b Ha Hb. apply Hd; by rewrite Hp. Qed.

(** The candidates of a matrix have distinct weights when the matrix
    entries above the diagonal are distinct. *)
Definition distinct_entries (W : Matrix) (n : nat) : Prop :=
  ∀ p q, p ∈ upper_pairs n → q ∈ upper_pairs n → W p.1 p.2 = W q.1 q.2 → p = q.

Lemma distinct_entries_weights W n :
  distinct_entries W n → distinct_weights (extract_edges W n).
Proof.
  intros Hd a b Ha Hb Hw. unfold extract_edges in *.
  apply list_elem_of_fmap in Ha as (p & -> & Hp), Hb as (q & -> & Hq).
  simpl in Hw. by rewrite (Hd p q Hp Hq Hw).
Qed.

(** The greedy scan keeps the working graph within the candidates, and
    with them simple, within the budget and in whatever class of graphs
    the acceptance test preserves. *)
Lemma greedy_working_graph accepts edges max_edges W n (P : Graph → Prop) s :
  edges ≡ₚ extract_edges W n →
  P [] → (∀ G u v, P G → accepts G u v = true → P (G ++ [(u, v)])) →
  0 ≤ max_edges →
  loop_reach (loop_cond edges max_edges) (greedy_body accepts edges) loop_init s →
  (P (pmfg s) ∧ no_duplicate_edges (pmfg s) ∧ no_self_loops (pmfg s) ∧
   numberOfEdges (pmfg s) ≤ max_edges) ∧
  added_edges s = numberOfEdges (pmfg s).
Proof.
  intros Hperm Hnil Hacc Hmax Hr.
  pose proof (greedy_reach_inv accepts edges max_edges s Hr) as (_ & Hadd & Hsub & Hb).
  pose proof (sublist_candidates_simple _ _ _ _ _ Hperm Hsub) as (Hloops & Hdup & _).
  split_and!; [|done..| |done].
  - by eapply greedy_reach_preserves.
  - rewrite <-Hadd. by apply Hb.
Qed.
End sorted_by_weight.

(** ** The four-node example of the end-to-end test *)

Module Example4.
Import EdgeList.

(** [w(0,1)=0.9, w(0,2)=0.8, w(0,3)=0.1, w(1,2)=0.7, w(1,3)=0.6,
    w(2,3)=0.95], symmetric. *)
Definition W4 : Matrix := λ a b,
  match a, b with
  | 0, 1 | 1, 0 => Q2Qc (9 # 10)
  | 0, 2 | 2, 0 => Q2Qc (8 # 10)
  | 0, 3 | 3, 0 => Q2Qc (1 # 10)
  | 1, 2 | 2, 1 => Q2Qc (7 # 10)
  | 1, 3 | 3, 1 => Q2Qc (6 # 10)
  | 2, 3 | 3, 2 => Q2Qc (95 # 100)
  | _, _ => Q2Qc 0
  end%nat.

(** Its candidates in descending order of weight. *)
Definition sorted4 : list Edge :=
  [ mkEdge 2 3 (Q2Qc (95 # 100)); mkEdge 0 1 (Q2Qc (9 # 10));
    mkEdge 0 2 (Q2Qc (8 # 10));   mkEdge 1 2 (Q2Qc (7 # 10));
    mkEdge 1 3 (Q2Qc (6 # 10));   mkEdge 0 3 (Q2Qc (1 # 10)) ].

(** The complete graph on four nodes, in the order the example commits
    its edges. *)
Definition K4 : Graph := [(2, 3); (0, 1); (0, 2); (1, 2); (1, 3); (0, 3)]%nat.

(** On four nodes every simple graph is planar: the right oracle says
    yes to every query the loops make. *)
Definition isPlanar4 : Graph → bool := λ _, true.
Definition supportEdge4 : Graph → node → node → SpqrOnly.call bool :=
  λ _ _ _, SpqrOnly.Returned true.

(** A sorting routine to run the embedding with. *)
Definition qsort4 : (Edge → Edge → Z) → list Edge → list Edge :=
  λ _, merge_sort desc_le.

Lemma qsort4_sorts : sorts desc_le (qsort4 compare_edges_desc).
Proof. apply merge_sort_sorts; apply _. Qed.

Lemma sorted4_sorted : merge_sort desc_le (extract_edges W4 4) = sorted4.
Proof. vm_compute. reflexivity. Qed.

Lemma sorted4_distinct : distinct_weights (extract_edges W4 4).
Proof.
  apply (distinct_weights_perm sorted4).
  - rewrite <-sorted4_sorted. apply merge_sort_Permutation.
  - apply strictly_descending_distinct.
    repeat (constructor; [|repeat constructor; by vm_compute]). constructor.
Qed.

(** Any routine that meets the contract sorts the example the same way. *)
Lemma sort_example4 qsort :
  sorts desc_le (qsort compare_edges_desc) →
  qsort compare_edges_desc (extract_edges W4 4) = sorted4.
Proof.
  intros Hs. rewrite <-sorted4_sorted.
  apply sorts_distinct_unique; [done| |apply sorted4_distinct].
  apply merge_sort_sorts; apply _.
Qed.
End Example4.

(** ** The working graph of the two single-phase constructions *)

(** What the data model asks of the working graph on [n] nodes. *)
Definition working_graph_ok (planar : Graph → Prop) (n : nat) (G : Graph) : Prop :=
  planar G ∧ no_duplicate_edges G ∧ no_self_loops G ∧
  numberOfEdges G ≤ 3 * Z.of_nat n - 6.

(** C1.  For [n >= 3], in [create_pmfg] ([teste.c]) and in
    [create_pmfg_spqr_only] ([unnamed/part_000]) every state the
    construction loop passes through, and the graph returned, is planar,
    without duplicate edges, without self-loops and has at most [3n - 6]
    edges; a state with [3n - 6] edges fails the loop condition, and the
    loop has ended when the function returns.  Planarity is that of OGDF:
    the empty graph is planar, [isPlanar] answers true on planar graphs
    only, and [supportEdge] answers true only when the graph with the new
    edge is planar. *)
Theorem working_graph_invariant
    (planar : Graph → Prop) (isPlanar : Graph → bool)
    (supportEdge : Graph → node → node → SpqrOnly.call bool)
    (qsort : (EdgeList.Edge → EdgeList.Edge → Z) → list EdgeList.Edge → list EdgeList.Edge) :
  planar [] →
  (∀ G, isPlanar G = true → planar G) →
  (∀ G u v, planar G → supportEdge G u v = SpqrOnly.Returned true → planar (G ++ [(u, v)])) →
  sorts EdgeList.desc_le (qsort EdgeList.compare_edges_desc) →
  ∀ (W : Matrix) (n : nat), (3 ≤ n)%nat →
    let edges := qsort EdgeList.compare_edges_desc (EdgeList.extract_edges W n) in
    let holds cond body :=
      ∀ s, loop_reach cond body EdgeList.loop_init s →
        working_graph_ok planar n (EdgeList.pmfg s) ∧
        (numberOfEdges (EdgeList.pmfg s) = 3 * Z.of_nat n - 6 → cond s = false) in
    (holds (EdgeList.loop_cond edges (TesteC.max_edges n)) (TesteC.loop_body isPlanar edges) ∧
     working_graph_ok planar n (TesteC.create_pmfg isPlanar qsort W n) ∧
     EdgeList.loop_cond edges (TesteC.max_edges n) (TesteC.create_pmfg_loop isPlanar edges n) = false) ∧
    (holds (EdgeList.loop_cond edges (SpqrOnly.max_edges n)) (SpqrOnly.loop_body supportEdge edges) ∧
     working_graph_ok planar n (SpqrOnly.create_pmfg_spqr_only supportEdge qsort W n) ∧
     EdgeList.loop_cond edges (SpqrOnly.max_edges n)
       (SpqrOnly.create_pmfg_spqr_only_loop supportEdge edges n) = false).
Proof.
  intros Hnil HisPlanar Hsupport Hsorts W n Hn edges holds.
  assert (edges ≡ₚ EdgeList.extract_edges W n) as Hperm by apply Hsorts.
  assert (TesteC.max_edges n = 3 * Z.of_nat n - 6) as Hmax1 by (unfold TesteC.max_edges; lia).
  assert (SpqrOnly.max_edges n = 3 * Z.of_nat n - 6) as Hmax2 by done.
  assert (∀ G u v, planar G → TesteC.accepts isPlanar G u v = true → planar (G ++ [(u, v)]))
    as Hacc1 by (intros G u v _ Ha; by apply HisPlanar).
  assert (∀ G u v, planar G → SpqrOnly.accepts supportEdge G u v = true → planar (G ++ [(u, v)]))
    as Hacc2.
  { intros G u v HG Ha. apply Hsupport; [done|]. unfold SpqrOnly.accepts in Ha.
    by destruct (supportEdge G u v) as [[]|]. }
  assert (holds (EdgeList.loop_cond edges (TesteC.max_edges n))
            (TesteC.loop_body isPlanar edges)) as Hholds1.
  { intros s Hr. apply TesteC.loop_reach_greedy in Hr.
    assert (0 ≤ TesteC.max_edges n) as Hpos by lia.
    destruct (greedy_working_graph _ _ _ W n planar s Hperm Hnil Hacc1 Hpos Hr)
      as [(? & ? & ? & ?) Hadd].
    split; [split_and!; [done..|lia]|].
    intros Hfull. apply EdgeList.loop_cond_budget. lia. }
  assert (holds (EdgeList.loop_cond edges (SpqrOnly.max_edges n))
            (SpqrOnly.loop_body supportEdge edges)) as Hholds2.
  { intros s Hr. apply SpqrOnly.spqr_loop_reach_greedy in Hr.
    assert (0 ≤ SpqrOnly.max_edges n) as Hpos by lia.
    destruct (greedy_working_graph _ _ _ W n planar s Hperm Hnil Hacc2 Hpos Hr)
      as [(? & ? & ? & ?) Hadd].
    split; [split_and!; [done..|lia]|].
    intros Hfull. apply EdgeList.loop_cond_budget. lia. }
  split; split_and!; try done.
  - apply Hholds1, run_loop_reach.
  - rewrite TesteC.create_pmfg_loop_greedy.
    apply EdgeList.greedy_exits_init.
  - apply Hholds2, run_loop_reach.
  - rewrite SpqrOnly.create_pmfg_spqr_only_loop_greedy.
    apply EdgeList.greedy_exits_init.
Qed.

Lemma working_graph_invariant_witness :
  (3 ≤ 4)%nat ∧
  working_graph_ok (λ _, True) 4
    (TesteC.create_pmfg Example4.isPlanar4 Example4.qsort4 Example4.W4 4) ∧
  working_graph_ok (λ _, True) 4
    (SpqrOnly.create_pmfg_spqr_only Example4.supportEdge4 Example4.qsort4 Example4.W4 4).
Proof.
  assert (3 ≤ 4)%nat as Hn by lia.
  pose proof (working_graph_invariant (λ _, True) Example4.isPlanar4
    Example4.supportEdge4 Example4.qsort4 I (λ _ _, I) (λ _ _ _ _ _, I)
    Example4.qsort4_sorts Example4.W4 4 Hn) as [(_ & H1 & _) (_ & H2 & _)].
  split; [exact Hn|]. split; [exact H1|exact H2].
Defined.

(** ** The planarity query *)

(** C7.  [is_planar_with_edge] ([teste.c]) returns 0 or 1, namely OGDF's
    verdict on the graph with the edge added, and hands the graph back
    exactly as it received it, whatever the verdict.  In
    [create_pmfg_spqr_only] the query [supportEdge] is a call on the
    current graph, and the graph of the loop changes only by the commit
    that follows a positive answer. *)
Theorem planarity_query_leaves_graph
    (isPlanar : Graph → bool) (supportEdge : Graph → node → node → SpqrOnly.call bool)
    (G : Graph) (u v : node) (edges : list EdgeList.Edge) (s : EdgeList.loop_state) :
  (TesteC.is_planar_with_edge isPlanar G u v).2 = G ∧
  (TesteC.is_planar_with_edge isPlanar G u v).1
    = (if isPlanar (G ++ [(u, v)]) then 1 else 0) ∧
  (EdgeList.pmfg (SpqrOnly.loop_body supportEdge edges s) = EdgeList.pmfg s ∧
   EdgeList.added_edges (SpqrOnly.loop_body supportEdge edges s) = EdgeList.added_edges s
   ∨ ∃ e, edges !! EdgeList.k s = Some e ∧
       supportEdge (EdgeList.pmfg s) (EdgeList.i e) (EdgeList.j e) = SpqrOnly.Returned true ∧
       EdgeList.pmfg (SpqrOnly.loop_body supportEdge edges s)
         = EdgeList.pmfg s ++ [EdgeList.endpoints e]).
Proof.
  rewrite TesteC.is_planar_with_edge_eq. split_and!; [done..|].
  unfold SpqrOnly.loop_body.
  destruct (edges !! EdgeList.k s) as [e|]; [|by left].
  destruct (supportEdge _ _ _) as [[]|] eqn:Hq; [|by left..].
  right. by exists e.
Qed.

(** ** The statistics *)

Lemma density_divisor_zero n :
  Stats.density_divisor n = 0%Qc ↔ Z.of_nat n * (Z.of_nat n - 1) = 0.
Proof.
  unfold Stats.density_divisor.
  assert (Qc_of_Z 2 ≠ 0%Qc) as H2.
  { rewrite <-Z2Qc_inj_0. by intros ?%Z2Qc_inj. }
  split.
  - intros H. apply Z2Qc_inj. rewrite Z2Qc_inj_0.
    rewrite <-(Qcmult_div_r (Qc_of_Z (Z.of_nat n * (Z.of_nat n - 1))) (Qc_of_Z 2)) by done.
    rewrite H. apply Qcmult_0_r.
  - intros ->. rewrite Z2Qc_inj_0. unfold Qcdiv. apply Qcmult_0_l.
Qed.

Lemma Qc_of_Z_zero (z : Z) : Qc_of_Z z = 0%Qc ↔ z = 0.
Proof.
  rewrite <-Z2Qc_inj_0. split; [apply Z2Qc_inj|by intros ->].
Qed.

(** A quotient of [fdiv] by its divisor. *)
Lemma fdiv_finite (a b : Qc) :
  b ≠ 0%Qc → Stats.fdiv a b = Stats.Finite (a / b)%Qc ∧ (a / b * b = a)%Qc.
Proof.
  intros Hb. unfold Stats.fdiv. rewrite decide_False by done.
  split; [done|]. by rewrite Qcmult_comm, Qcmult_div_r.
Qed.

(** Division of an edge count by a zero divisor. *)
Lemma fdiv_count_zero (e : Z) :
  0 ≤ e →
  Stats.fdiv (Qc_of_Z e) 0%Qc
  = if decide (e = 0) then Stats.NaN else Stats.Infinity false.
Proof.
  intros He. unfold Stats.fdiv. rewrite decide_True by done.
  destruct (decide (e = 0)) as [->|Hne].
  - by rewrite decide_True by (by apply Qc_of_Z_zero).
  - rewrite decide_False by (by rewrite Qc_of_Z_zero).
    rewrite bool_decide_eq_false_2; [done|].
    apply Qcle_not_lt. rewrite <-Z2Qc_inj_0. by apply (proj1 (Z2Qc_inj_le _ _)).
Qed.

(** C10.  [print_pmfg_stats] computes the utilization as the edge count
    divided by [3 * (n - 2)] ([teste.c]) or [3 * n - 6]
    ([unnamed/part_000]), the same number, times 100, and the density as
    the edge count divided by [n * (n - 1) / 2.0], with no test on either
    divisor; the two files print the same pair.  Both divisors are
    non-zero exactly when [n >= 3], and then the two values are the
    quotients: the utilization [u] with [u * (3n - 6) = 100 * edges] and
    the density [d] with [d * n * (n - 1) = 2 * edges].  At [n = 2] the
    first divisor is [0]: the utilization is NaN for a graph without
    edges and an infinity otherwise, and the density is the edge count.
    At [n <= 1] the first divisor is negative and the second is [0].  With
    two nodes the construction returns normally (its graph has no edge)
    and the statistics then divide zero by zero: the utilization printed
    is NaN. *)
Theorem stats_divisors_unguarded (n : nat) (G : Graph) :
  let edges := Qc_of_Z (numberOfEdges G) in
  let unguarded := if decide (numberOfEdges G = 0) then Stats.NaN else Stats.Infinity false in
  Stats.max_planar_edges_c n = Stats.max_planar_edges_spqr n ∧
  Stats.print_pmfg_stats_c G n = Stats.print_pmfg_stats_spqr G n ∧
  ((Stats.max_planar_edges_c n ≠ 0 ∧ Stats.density_divisor n ≠ 0%Qc) ↔ (3 ≤ n)%nat) ∧
  Stats.max_planar_edges_c 2 = 0 ∧
  Stats.max_planar_edges_c 1 < 0 ∧
  ((3 ≤ n)%nat →
   ∃ u d : Qc,
     Stats.print_pmfg_stats_c G n = Stats.Stats (Stats.Finite u) (Stats.Finite d) ∧
     (u * Qc_of_Z (3 * Z.of_nat n - 6) = Qc_of_Z 100 * edges)%Qc ∧
     (d * Qc_of_Z (Z.of_nat n * (Z.of_nat n - 1)) = Qc_of_Z 2 * edges)%Qc) ∧
  (n = 2%nat →
   Stats.print_pmfg_stats_c G n = Stats.Stats unguarded (Stats.Finite edges)) ∧
  ((n ≤ 1)%nat →
   ∃ u : Qc,
     Stats.print_pmfg_stats_c G n = Stats.Stats (Stats.Finite u) unguarded ∧
     (u * Qc_of_Z (3 * Z.of_nat n - 6) = Qc_of_Z 100 * edges)%Qc) ∧
  (∀ isPlanar qsort W,
     Stats.utilization
       (Stats.print_pmfg_stats_c (TesteC.create_pmfg isPlanar qsort W 2) 2) = Stats.NaN) ∧
  (∀ supportEdge qsort W,
     Stats.utilization
       (Stats.print_pmfg_stats_spqr
          (SpqrOnly.create_pmfg_spqr_only supportEdge qsort W 2) 2) = Stats.NaN).
Proof.
  intros edges unguarded.
  assert (Stats.max_planar_edges_c n = 3 * Z.of_nat n - 6) as Hmax
    by (unfold Stats.max_planar_edges_c; lia).
  assert (0 ≤ numberOfEdges G) as Hcount by (unfold numberOfEdges; lia).
  assert (Qc_of_Z 2 ≠ 0%Qc) as H2 by (by rewrite Qc_of_Z_zero).
  assert ((Stats.density_divisor n * Qc_of_Z 2)%Qc
          = Qc_of_Z (Z.of_nat n * (Z.of_nat n - 1))) as Hhalf.
  { unfold Stats.density_divisor. by rewrite Qcmult_comm, Qcmult_div_r. }
  assert (∀ m : Z, m ≠ 0 →
            ∃ u : Qc, Stats.fmul (Stats.fdiv edges (Qc_of_Z m)) (Qc_of_Z 100) = Stats.Finite u ∧
                      (u * Qc_of_Z m = Qc_of_Z 100 * edges)%Qc) as Hutil.
  { intros m Hm.
    destruct (fdiv_finite edges (Qc_of_Z m)) as [-> Hquot]; [by rewrite Qc_of_Z_zero|].
    eexists. split; [done|].
    rewrite <-Qcmult_assoc, (Qcmult_comm (Qc_of_Z 100)), Qcmult_assoc, Hquot.
    apply Qcmult_comm. }
  split_and!.
  - unfold Stats.max_planar_edges_c, Stats.max_planar_edges_spqr. lia.
  - unfold Stats.print_pmfg_stats_c, Stats.print_pmfg_stats_spqr. f_equal.
    unfold Stats.max_planar_edges_c, Stats.max_planar_edges_spqr. lia.
  - rewrite density_divisor_zero. unfold Stats.max_planar_edges_c. split.
    + intros [H1 H3]. nia.
    + intros Hn. split; nia.
  - done.
  - done.
  - intros Hn. unfold Stats.print_pmfg_stats_c, Stats.print_pmfg_stats_with.
    cbv zeta. fold edges. rewrite Hmax.
    destruct (Hutil (3 * Z.of_nat n - 6)) as (u & -> & Hu); [lia|].
    destruct (fdiv_finite edges (Stats.density_divisor n)) as [-> Hquot].
    { rewrite density_divisor_zero. nia. }
    exists u, (edges / Stats.density_divisor n)%Qc. split_and!; [done..|].
    rewrite <-Hhalf, Qcmult_assoc, Hquot. apply Qcmult_comm.
  - intros ->. unfold Stats.print_pmfg_stats_c, Stats.print_pmfg_stats_with.
    cbv zeta. fold edges. f_equal.
    + assert (Qc_of_Z (Stats.max_planar_edges_c 2) = 0%Qc) as ->
        by (by apply Qc_of_Z_zero).
      unfold edges. rewrite fdiv_count_zero by done. fold unguarded.
      unfold unguarded. by destruct (decide _).
    + assert (Stats.density_divisor 2 = 1%Qc) as Hone
        by (apply Qc_is_canon; reflexivity).
      destruct (fdiv_finite edges (Stats.density_divisor 2)) as [-> Hquot];
        [by rewrite Hone|].
      f_equal. rewrite <-Hquot at 2. by rewrite Hone, Qcmult_1_r.
  - intros Hn. unfold Stats.print_pmfg_stats_c, Stats.print_pmfg_stats_with.
    cbv zeta. fold edges. rewrite Hmax.
    destruct (Hutil (3 * Z.of_nat n - 6)) as (u & -> & Hu); [lia|].
    exists u. split; [|done]. f_equal.
    assert (Stats.density_divisor n = 0%Qc) as ->
      by (apply density_divisor_zero; nia).
    unfold edges. by rewrite fdiv_count_zero.
  - intros isPlanar qsort W.
    assert (TesteC.create_pmfg isPlanar qsort W 2 = []) as ->.
    { unfold TesteC.create_pmfg, TesteC.create_pmfg_loop.
      rewrite run_loop_false; [done|].
      apply andb_false_iff. right. by apply bool_decide_eq_false. }
    by vm_compute.
  - intros supportEdge qsort W.
    assert (SpqrOnly.create_pmfg_spqr_only supportEdge qsort W 2 = []) as ->.
    { unfold SpqrOnly.create_pmfg_spqr_only, SpqrOnly.create_pmfg_spqr_only_loop.
      rewrite run_loop_false; [done|].
      apply andb_false_iff. right. by apply bool_decide_eq_false. }
    by vm_compute.
Qed.

(** ** A candidate that is already an edge *)

Module Duplicate.
(** A sorted edge list on three nodes that names the pair [{0, 1}]
    twice, once in each direction. *)
Definition sortedEdges : list Teste3.Edge :=
  [ Teste3.mkEdge 0 1 (Q2Qc 3); Teste3.mkEdge 1 0 (Q2Qc 2); Teste3.mkEdge 1 2 (Q2Qc 1) ].

(** The generator after the first candidate. *)
Definition after_first : Teste3.state :=
  Teste3.State 1 1 [(0, 1)%nat] {[ (0, 1) ]}.
End Duplicate.

(** C5, as the claim has it: offered the pair [{0, 1}] a second time,
    [PMFGGenerator::createPMFG] ([teste3.cpp]) does not fail.  The
    iteration ends as a skipped duplicate, the loop goes on to the next
    candidate and the function returns its graph with the later edge
    [(1, 2)] committed. *)
Lemma duplicate_is_skipped_silently :
  Teste3.loop_body Example4.supportEdge4 3 Duplicate.sortedEdges Teste3.initial
    = Duplicate.after_first ∧
  Teste3.iteration Example4.supportEdge4 3 Duplicate.after_first (Teste3.mkEdge 1 0 (Q2Qc 2))
    = (Teste3.Skipped_duplicate, Teste3.next Duplicate.after_first) ∧
  Teste3.createPMFG Example4.supportEdge4 3 Duplicate.sortedEdges = [(0, 1); (1, 2)]%nat.
Proof. by vm_compute. Qed.

Lemma edge_exists_spec (G : Graph) (u v : node) :
  edge_exists G u v = true ↔ (u, v) ∈ G ∨ (v, u) ∈ G.
Proof.
  unfold edge_exists. rewrite existsb_exists. split.
  - intros ([a b] & Hin%list_elem_of_In & Hor). simpl in Hor.
    apply orb_true_iff in Hor as [[-> ->]%bool_decide_eq_true|[-> ->]%bool_decide_eq_true];
      [by left|by right].
  - intros [Hin|Hin]; [exists (u, v)|exists (v, u)];
      (split; [by apply list_elem_of_In|]); simpl; apply orb_true_iff;
      [left|right]; by apply bool_decide_eq_true.
Qed.

(** C5, amended.  A candidate whose pair is already committed is skipped
    without any error: in [PMFGGenerator::createPMFG] ([teste3.cpp]), when
    the normalized pair is in [addedEdges], the iteration is a
    [continue] that leaves the graph, the counter and [addedEdges] as they
    were; in phase 2 of [create_pmfg_incremental] ([unnamed/part_000]), when
    the graph already joins the two nodes, the iteration only advances
    [k], and no exception leaves the loop.  Neither function has an error
    to report for it. *)
Theorem duplicate_candidate_skipped
    (supportEdge3 supportEdge0 : Graph → node → node → SpqrOnly.call bool)
    (numNodes : Z) (s : Teste3.state) (edge : Teste3.Edge)
    (edges : list EdgeList.Edge) (t : Incremental.sat_state) (e : EdgeList.Edge) :
  0 ≤ Teste3.source edge < numNodes →
  0 ≤ Teste3.target edge < numNodes →
  Teste3.normalizeEdge (Teste3.source edge) (Teste3.target edge) ∈ Teste3.addedEdges s →
  edges !! EdgeList.k (Incremental.s_loop t) = Some e →
  ((EdgeList.i e, EdgeList.j e) ∈ EdgeList.pmfg (Incremental.s_loop t) ∨
   (EdgeList.j e, EdgeList.i e) ∈ EdgeList.pmfg (Incremental.s_loop t)) →
  (Teste3.iteration supportEdge3 numNodes s edge = (Teste3.Skipped_duplicate, Teste3.next s) ∧
   Teste3.graph (Teste3.next s) = Teste3.graph s ∧
   Teste3.addedEdgeCount (Teste3.next s) = Teste3.addedEdgeCount s ∧
   Teste3.addedEdges (Teste3.next s) = Teste3.addedEdges s) ∧
  Incremental.sat_body supportEdge0 edges t
    = Incremental.SatState
        (EdgeList.LoopState (S (EdgeList.k (Incremental.s_loop t)))
           (EdgeList.added_edges (Incremental.s_loop t))
           (EdgeList.pmfg (Incremental.s_loop t)))
        false.
Proof.
  intros Hsrc Htgt Hin Hk Hexists. split.
  - split_and!; [|done..]. unfold Teste3.iteration.
    rewrite bool_decide_eq_false_2 by lia. by rewrite decide_True.
  - unfold Incremental.sat_body. rewrite Hk.
    apply edge_exists_spec in Hexists. by rewrite Hexists.
Qed.

Lemma duplicate_candidate_skipped_witness :
  Teste3.iteration Example4.supportEdge4 3 Duplicate.after_first (Teste3.mkEdge 1 0 (Q2Qc 2))
    = (Teste3.Skipped_duplicate, Teste3.next Duplicate.after_first) ∧
  Incremental.sat_body Example4.supportEdge4 [EdgeList.mkEdge 0 1 (Q2Qc 3)]
      (Incremental.SatState (EdgeList.LoopState 0 1 [(0, 1)%nat]) false)
    = Incremental.SatState (EdgeList.LoopState 1 1 [(0, 1)%nat]) false.
Proof.
  pose proof (duplicate_candidate_skipped Example4.supportEdge4 Example4.supportEdge4 3
    Duplicate.after_first (Teste3.mkEdge 1 0 (Q2Qc 2))
    [EdgeList.mkEdge 0 1 (Q2Qc 3)]
    (Incremental.SatState (EdgeList.LoopState 0 1 [(0, 1)%nat]) false)
    (EdgeList.mkEdge 0 1 (Q2Qc 3))) as H.
  simpl in H.
  destruct H as [(H1 & _) H2]; [lia|lia|by vm_compute|reflexivity|left; by left|].
  split; [exact H1|exact H2].
Defined.

(** ** Two runs on one input *)








Module Tied.
Import EdgeList.

(** Five nodes, every proximity equal to [1]. *)
Definition W1 : Matrix := λ _ _, 1%Qc.

(** On five nodes every simple graph with at most nine edges is planar,
    and with a budget of nine the loop asks about no other graph. *)
Definition isPlanar5 : Graph → bool := λ _, true.

(** Two sorting routines that meet the contract of [qsort]: one lays tied
    candidates out as [merge_sort] does, the other sorts the reversed
    array. *)
Definition qsortA : (Edge → Edge → Z) → list Edge → list Edge :=
  λ _, merge_sort desc_le.
Definition qsortB : (Edge → Edge → Z) → list Edge → list Edge :=
  λ _, merge_sort desc_le ∘ reverse.

Lemma qsortA_sorts : sorts desc_le (qsortA compare_edges_desc).
Proof. apply merge_sort_sorts; apply _. Qed.

Lemma qsortB_sorts : sorts desc_le (qsortB compare_edges_desc).
Proof. apply sorts_reverse, qsortA_sorts. Qed.
End Tied.




(** ** The order of ties and the sorting routine *)

(** What [qsort] does with candidates that compare equal is the
    library's choice: two routines that both sort as [qsort] must, one
    laying ties out as [merge_sort] does and one sorting the reversed
    array, lead [create_pmfg] to different graphs on the all-ones matrix
    of size five.  This compares two libraries, not two runs of one
    program. *)
Lemma tied_weights_two_outcomes :
  sorts EdgeList.desc_le (Tied.qsortA EdgeList.compare_edges_desc) ∧
  sorts EdgeList.desc_le (Tied.qsortB EdgeList.compare_edges_desc) ∧
  TesteC.create_pmfg Tied.isPlanar5 Tied.qsortA Tied.W1 5
    ≠ TesteC.create_pmfg Tied.isPlanar5 Tied.qsortB Tied.W1 5 ∧
  ((0, 3)%nat ∈ TesteC.create_pmfg Tied.isPlanar5 Tied.qsortA Tied.W1 5 ∧
   (0, 3)%nat ∉ TesteC.create_pmfg Tied.isPlanar5 Tied.qsortB Tied.W1 5).
Proof.
  split; [apply Tied.qsortA_sorts|]. split; [apply Tied.qsortB_sorts|].
  assert (TesteC.create_pmfg Tied.isPlanar5 Tied.qsortA Tied.W1 5
          = [(2,4); (3,4); (0,1); (0,2); (0,3); (0,4); (1,2); (1,3); (1,4)]%nat) as ->
    by (by vm_compute).
  assert (TesteC.create_pmfg Tied.isPlanar5 Tied.qsortB Tied.W1 5
          = [(0,2); (0,1); (3,4); (2,4); (2,3); (1,4); (1,3); (1,2); (0,4)]%nat) as ->
    by (by vm_compute).
  split; [done|]. split; apply (bool_decide_unpack _); by vm_compute.
Qed.

(** X25.  When no two candidates have the same weight, the graph does not
    depend on the sorting routine that is linked: any two routines that
    meet the contract of [qsort], respectively [std::sort], give the same
    committed edges in the same commit order, for [create_pmfg]
    ([teste.c], [compare_edges_desc]) on a matrix whose entries above the
    diagonal are distinct, and for [main] of [teste3.cpp]
    ([Edge::operator<], then [createPMFG]) on an edge list of distinct
    weights. *)
Theorem construction_deterministic_distinct_weights
    (isPlanar : Graph → bool) (supportEdge : Graph → node → node → SpqrOnly.call bool)
    (qsort1 qsort2 : (EdgeList.Edge → EdgeList.Edge → Z) → list EdgeList.Edge → list EdgeList.Edge)
    (std_sort1 std_sort2 : list Teste3.Edge → list Teste3.Edge)
    (W : Matrix) (n : nat) (edges : list Teste3.Edge) (numNodes : Z) :
  sorts EdgeList.desc_le (qsort1 EdgeList.compare_edges_desc) →
  sorts EdgeList.desc_le (qsort2 EdgeList.compare_edges_desc) →
  sorts Teste3.sorted_before std_sort1 →
  sorts Teste3.sorted_before std_sort2 →
  distinct_entries W n →
  (∀ a b, a ∈ edges → b ∈ edges → Teste3.weight a = Teste3.weight b → a = b) →
  TesteC.create_pmfg isPlanar qsort1 W n = TesteC.create_pmfg isPlanar qsort2 W n ∧
  Teste3.main_pmfg supportEdge numNodes std_sort1 edges
    = Teste3.main_pmfg supportEdge numNodes std_sort2 edges.
Proof.
  intros Hq1 Hq2 Hs1 Hs2 HW Hedges. split.
  - unfold TesteC.create_pmfg.
    by rewrite (sorts_distinct_unique _ _ _ Hq1 Hq2 (distinct_entries_weights W n HW)).
  - unfold Teste3.main_pmfg.
    rewrite (sorts_unique _ _ _ edges Hs1 Hs2); [done|].
    intros a b Ha Hb Hab Hba. apply Hedges; [done..|].
    unfold Teste3.sorted_before, Teste3.edge_lt in *.
    apply Qcle_antisym; by apply Qcnot_lt_le.
Qed.

Lemma distinct_entries_example4 : distinct_entries Example4.W4 4.
Proof.
  intros p q Hp Hq Hw.
  pose proof (Example4.sorted4_distinct
    (EdgeList.mkEdge p.1 p.2 (Example4.W4 p.1 p.2))
    (EdgeList.mkEdge q.1 q.2 (Example4.W4 q.1 q.2))) as H.
  unfold EdgeList.extract_edges in H. rewrite !list_elem_of_fmap in H.
  destruct p, q. simpl in *.
  by injection (H ltac:(by eexists (_, _)) ltac:(by eexists (_, _)) Hw) as -> ->.
Qed.

Lemma distinct_weights_duplicate_example a b :
  a ∈ Duplicate.sortedEdges → b ∈ Duplicate.sortedEdges →
  Teste3.weight a = Teste3.weight b → a = b.
Proof.
  unfold Duplicate.sortedEdges. rewrite !elem_of_cons, !elem_of_nil.
  intros [->|[->|[->|[]]]] [->|[->|[->|[]]]] Hw; try done;
    apply (f_equal this) in Hw; by vm_compute in Hw.
Qed.

Lemma construction_deterministic_distinct_weights_witness :
  TesteC.create_pmfg Example4.isPlanar4 Tied.qsortA Example4.W4 4
    = TesteC.create_pmfg Example4.isPlanar4 Tied.qsortB Example4.W4 4 ∧
  Teste3.main_pmfg Example4.supportEdge4 3 (merge_sort Teste3.sorted_before)
      Duplicate.sortedEdges
    = Teste3.main_pmfg Example4.supportEdge4 3
        (merge_sort Teste3.sorted_before ∘ reverse) Duplicate.sortedEdges.
Proof.
  assert (sorts Teste3.sorted_before (merge_sort Teste3.sorted_before)) as Hs.
  { apply merge_sort_sorts.
    - intros a b c. unfold Teste3.sorted_before, Teste3.edge_lt.
      intros Hab%Qcnot_lt_le Hbc%Qcnot_lt_le. apply Qcle_not_lt. by etrans.
    - intros a b. unfold Teste3.sorted_before, Teste3.edge_lt.
      destruct (Qclt_le_dec (Teste3.weight a) (Teste3.weight b)) as [Hlt|Hle].
      + right. by apply Qcle_not_lt, Qclt_le_weak.
      + left. by apply Qcle_not_lt. }
  exact (construction_deterministic_distinct_weights Example4.isPlanar4
    Example4.supportEdge4 Tied.qsortA Tied.qsortB
    (merge_sort Teste3.sorted_before) (merge_sort Teste3.sorted_before ∘ reverse)
    Example4.W4 4 Duplicate.sortedEdges 3
    Tied.qsortA_sorts Tied.qsortB_sorts Hs (sorts_reverse _ _ Hs)
    distinct_entries_example4 distinct_weights_duplicate_example).
Defined.

(** ** The candidate order of [teste.cpp] *)

Section tuple_order.
Import TesteCpp.

Lemma tuple_lt_lex (a b : Qc * nat * nat) :
  tuple_lt a b ↔
  (a.1.1 < b.1.1)%Qc ∨
  (a.1.1 = b.1.1 ∧ ((a.1.2 < b.1.2)%nat ∨ (a.1.2 = b.1.2 ∧ (a.2 < b.2)%nat))).
Proof.
  unfold tuple_lt. split.
  - intros [Hlt|[Hnlt Hrest]]; [by left|].
    destruct (Qclt_le_dec a.1.1 b.1.1) as [Hlt|Hle]; [by left|].
    right. split; [|lia]. apply Qcle_antisym; [by apply Qcnot_lt_le|done].
  - intros [Hlt|[Heq Hrest]]; [by left|].
    right. split; [|lia]. rewrite Heq. intros Hlt. by destruct (Qclt_not_eq _ _ Hlt).
Qed.

Lemma tuple_lt_trichotomy (a b : Qc * nat * nat) :
  tuple_lt a b ∨ a = b ∨ tuple_lt b a.
Proof.
  rewrite !tuple_lt_lex. destruct a as [[wa ua] va], b as [[wb ub] vb]; simpl.
  destruct (Qclt_le_dec wa wb) as [Hlt|Hle]; [by left; left|].
  apply Qcle_lt_or_eq in Hle as [Hlt| ->]; [by right; right; left|].
  destruct (lt_eq_lt_dec ua ub) as [[?| ->]|?]; [left; right; split; [done|lia]| |
    right; right; right; split; [done|lia]].
  destruct (lt_eq_lt_dec va vb) as [[?| ->]|?]; [left; right; split; [done|lia]| |
    right; right; right; split; [done|lia]].
  by right; left.
Qed.

Lemma tuple_lt_trans (a b c : Qc * nat * nat) :
  tuple_lt a b → tuple_lt b c → tuple_lt a c.
Proof.
  rewrite !tuple_lt_lex. intros [Hab|[Hab Hab']] [Hbc|[Hbc Hbc']].
  - left. by etrans.
  - left. by rewrite <-Hbc.
  - left. by rewrite Hab.
  - right. split; [by etrans|lia].
Qed.

Lemma tuple_lt_irrefl (a : Qc * nat * nat) : ¬ tuple_lt a a.
Proof.
  rewrite tuple_lt_lex. intros [Hlt|[_ ?]]; [|lia].
  by destruct (Qclt_not_eq _ _ Hlt).
Qed.

Lemma ascending_le (a b : Qc * nat * nat) : ascending a b ↔ a = b ∨ tuple_lt a b.
Proof.
  unfold ascending. split.
  - intros Hn. destruct (tuple_lt_trichotomy a b) as [?|[?|?]]; [by right|by left|done].
  - intros [->|Hlt] Hba; [by apply tuple_lt_irrefl in Hba|].
    by apply (tuple_lt_irrefl a), (tuple_lt_trans a b a).
Qed.

Global Instance ascending_trans : Transitive ascending.
Proof.
  intros a b c. rewrite !ascending_le.
  intros [->|Hab] [->|Hbc]; [by left|by right|by right|].
  right. by eapply tuple_lt_trans.
Qed.

Global Instance ascending_total : Total ascending.
Proof.
  intros a b. rewrite !ascending_le.
  destruct (tuple_lt_trichotomy a b) as [?|[?|?]]; [left|left|right]; auto.
Qed.

Lemma ascending_antisym (a b : Qc * nat * nat) : ascending a b → ascending b a → a = b.
Proof.
  rewrite !ascending_le. intros [Heq|Hab] [Heq'|Hba]; [done..|].
  exfalso. by apply (tuple_lt_irrefl a), (tuple_lt_trans a b a).
Qed.

(** Whatever routine sorts the reversed range, the vector comes out the
    same. *)
Lemma sort_descending_unique (std_sort1 std_sort2 : list (Qc * nat * nat) → _) edges :
  sorts ascending std_sort1 → sorts ascending std_sort2 →
  sort_descending std_sort1 edges = sort_descending std_sort2 edges.
Proof.
  intros H1 H2. unfold sort_descending. f_equal.
  apply (sorts_unique ascending); [done..|].
  intros a b _ _. apply ascending_antisym.
Qed.
End tuple_order.

Lemma StronglySorted_reverse {A} (R : relation A) (l : list A) :
  StronglySorted R l → StronglySorted (flip R) (reverse l).
Proof.
  induction 1 as [|x l Hs IH Hx]; [constructor|].
  rewrite reverse_cons. apply StronglySorted_app_2; [|done|repeat constructor].
  intros a b Ha Hb. apply list_elem_of_singleton in Hb as ->.
  rewrite elem_of_reverse in Ha. rewrite Forall_forall in Hx.
  unfold flip. by apply Hx.
Qed.

(** In a list without repetition a sorted order can be read through any
    relation that agrees with it on distinct members. *)
Lemma StronglySorted_NoDup_impl {A} (R R' : relation A) (l : list A) :
  NoDup l →
  (∀ a b, a ∈ l → b ∈ l → a ≠ b → R a b → R' a b) →
  StronglySorted R l → StronglySorted R' l.
Proof.
  intros Hnd Himpl Hs. induction Hs as [|x l Hs IH Hx]; [constructor|].
  apply NoDup_cons in Hnd as [Hnotin Hnd]. constructor.
  - apply IH; [done|]. intros a b Ha Hb. apply Himpl; by right.
  - rewrite Forall_forall in *. intros y Hy. apply Himpl; [by left|by right| |by apply Hx].
    intros ->. done.
Qed.

(** [p] comes before [q] in ascending lexicographic order. *)
Definition lex_lt (p q : nat * nat) : Prop :=
  (p.1 < q.1)%nat ∨ (p.1 = q.1 ∧ (p.2 < q.2)%nat).

Module Ties3.
(** Three nodes, every pair with the weight [1]. *)
Definition weights : gmap (nat * nat) Qc :=
  list_to_map [((0, 1)%nat, 1%Qc); ((0, 2)%nat, 1%Qc); ((1, 2)%nat, 1%Qc)].

Definition std_sort : list (Qc * nat * nat) → list (Qc * nat * nat) :=
  merge_sort TesteCpp.ascending.

Lemma std_sort_sorts : sorts TesteCpp.ascending std_sort.
Proof. apply merge_sort_sorts; apply _. Qed.
End Ties3.

(** C3, as the claim has it, on three candidates of equal weight: the
    sorted vector of [createPMFG] ([teste.cpp]) is [(1,2), (0,2), (0,1)].
    It is not strictly descending by weight, and the tied pairs are not in
    ascending [(i, j)] order. *)
Lemma tied_candidates_not_ascending :
  TesteCpp.sort_descending Ties3.std_sort (TesteCpp.complete_edges Ties3.weights 3)
    = [(1%Qc, 1, 2); (1%Qc, 0, 2); (1%Qc, 0, 1)]%nat ∧
  ¬ StronglySorted (λ a b, (TesteCpp.weight_of b < TesteCpp.weight_of a)%Qc)
      (TesteCpp.sort_descending Ties3.std_sort (TesteCpp.complete_edges Ties3.weights 3)) ∧
  ¬ StronglySorted
      (λ a b, TesteCpp.weight_of a = TesteCpp.weight_of b →
              lex_lt (TesteCpp.pair_of a) (TesteCpp.pair_of b))
      (TesteCpp.sort_descending Ties3.std_sort (TesteCpp.complete_edges Ties3.weights 3)).
Proof.
  assert (TesteCpp.sort_descending Ties3.std_sort (TesteCpp.complete_edges Ties3.weights 3)
          = [(1%Qc, 1, 2); (1%Qc, 0, 2); (1%Qc, 0, 1)]%nat) as -> by (by vm_compute).
  split; [done|]. split.
  - intros Hs. apply StronglySorted_cons in Hs as [Hall _].
    apply Forall_cons in Hall as [Hlt _]. by vm_compute in Hlt.
  - intros Hs. apply StronglySorted_cons in Hs as [Hall _].
    apply Forall_cons in Hall as [Hlex _].
    destruct (Hlex eq_refl) as [?|[? ?]]; simpl in *; lia.
Qed.

Lemma pair_of_complete_edges weights n :
  TesteCpp.pair_of <$> TesteCpp.complete_edges weights n = upper_pairs n.
Proof.
  unfold TesteCpp.complete_edges. rewrite <-list_fmap_compose.
  rewrite <-(list_fmap_id (upper_pairs n)) at 2.
  apply list_fmap_ext. by intros ? [??] _.
Qed.

Lemma StronglySorted_mono {A} (R R' : relation A) (l : list A) :
  (∀ a b, R a b → R' a b) → StronglySorted R l → StronglySorted R' l.
Proof.
  intros Himpl. induction 1 as [|x l Hs IH Hx]; constructor; [done|].
  eapply Forall_impl; [done|]. intros b. apply Himpl.
Qed.

(** The sorted array of [teste.c] and [unnamed/part_000]: every pair once,
    weights never increasing. *)
Lemma qsort_candidates
    (qsort : (EdgeList.Edge → EdgeList.Edge → Z) → list EdgeList.Edge → list EdgeList.Edge)
    (W : Matrix) (n : nat) :
  sorts EdgeList.desc_le (qsort EdgeList.compare_edges_desc) →
  let edges := qsort EdgeList.compare_edges_desc (EdgeList.extract_edges W n) in
  EdgeList.endpoints <$> edges ≡ₚ upper_pairs n ∧
  Z.of_nat (length edges) = Z.of_nat n * (Z.of_nat n - 1) / 2 ∧
  StronglySorted (λ a b, (EdgeList.weight b ≤ EdgeList.weight a)%Qc) edges.
Proof.
  intros Hq edges. destruct (Hq (EdgeList.extract_edges W n)) as [Hperm Hsorted].
  assert (EdgeList.endpoints <$> edges ≡ₚ upper_pairs n) as Hpairs.
  { unfold edges. by rewrite Hperm, EdgeList.endpoints_extract_edges. }
  split_and!; [done| |].
  - rewrite <-length_upper_pairs, <-(length_fmap EdgeList.endpoints edges).
    by rewrite Hpairs.
  - eapply StronglySorted_mono; [|done]. intros a b. apply EdgeList.desc_le_weight.
Qed.

(** C3, amended.  From a weight map and [n], [createPMFG] ([teste.cpp])
    builds one entry for each of the [n * (n - 1) / 2] pairs [i < j], each
    with its weight, and sorts them so that weights never increase along
    the vector and entries of equal weight stand in descending [(i, j)]
    lexicographic order.  The sorted vector is the same for every routine
    that sorts as [std::sort] must, so it is a function of the input.  The
    array that [qsort] and [compare_edges_desc] produce ([teste.c]) also
    holds every pair once with weights never increasing; the order within
    a tie is whatever [qsort] leaves. *)
Theorem candidate_order_descending
    (std_sort std_sort' : list (Qc * nat * nat) → list (Qc * nat * nat))
    (qsort : (EdgeList.Edge → EdgeList.Edge → Z) → list EdgeList.Edge → list EdgeList.Edge)
    (weights : gmap (nat * nat) Qc) (W : Matrix) (n : nat) :
  sorts TesteCpp.ascending std_sort →
  sorts TesteCpp.ascending std_sort' →
  sorts EdgeList.desc_le (qsort EdgeList.compare_edges_desc) →
  let edges := TesteCpp.sort_descending std_sort (TesteCpp.complete_edges weights n) in
  let edges_c := qsort EdgeList.compare_edges_desc (EdgeList.extract_edges W n) in
  (TesteCpp.pair_of <$> edges ≡ₚ upper_pairs n ∧
   Z.of_nat (length edges) = Z.of_nat n * (Z.of_nat n - 1) / 2 ∧
   (∀ e, e ∈ edges → TesteCpp.weight_of e = default 0%Qc (weights !! TesteCpp.pair_of e)) ∧
   StronglySorted (λ a b, (TesteCpp.weight_of b ≤ TesteCpp.weight_of a)%Qc) edges ∧
   StronglySorted
     (λ a b, TesteCpp.weight_of a = TesteCpp.weight_of b →
             lex_lt (TesteCpp.pair_of b) (TesteCpp.pair_of a)) edges ∧
   TesteCpp.sort_descending std_sort' (TesteCpp.complete_edges weights n) = edges) ∧
  (EdgeList.endpoints <$> edges_c ≡ₚ upper_pairs n ∧
   Z.of_nat (length edges_c) = Z.of_nat n * (Z.of_nat n - 1) / 2 ∧
   StronglySorted (λ a b, (EdgeList.weight b ≤ EdgeList.weight a)%Qc) edges_c).
Proof.
  intros Hsort Hsort' Hq edges edges_c.
  split; [|by apply qsort_candidates].
  assert (edges ≡ₚ TesteCpp.complete_edges weights n) as Hperm.
  { unfold edges, TesteCpp.sort_descending.
    etrans; [apply reverse_Permutation|]. etrans; [apply Hsort|].
    apply reverse_Permutation. }
  assert (TesteCpp.pair_of <$> edges ≡ₚ upper_pairs n) as Hpairs.
  { by rewrite Hperm, pair_of_complete_edges. }
  assert (NoDup edges) as Hnd.
  { apply (NoDup_fmap_1 TesteCpp.pair_of). rewrite Hpairs. apply NoDup_upper_pairs. }
  assert (StronglySorted (flip TesteCpp.ascending) edges) as Hs.
  { apply StronglySorted_reverse, Hsort. }
  assert (∀ a b, a ≠ b → flip TesteCpp.ascending a b → TesteCpp.tuple_lt b a) as Hlt.
  { intros a b Hne Hasc. unfold flip in Hasc.
    by apply ascending_le in Hasc as [->|?]. }
  split_and!.
  - done.
  - rewrite <-length_upper_pairs, <-(length_fmap TesteCpp.pair_of edges).
    by rewrite Hpairs.
  - intros e He. rewrite Hperm in He. unfold TesteCpp.complete_edges in He.
    apply list_elem_of_fmap in He as (p & -> & _). by destruct p.
  - eapply StronglySorted_NoDup_impl; [done| |done].
    intros a b _ _ Hne Hasc. unfold TesteCpp.weight_of.
    apply Hlt in Hasc; [|done].
    apply tuple_lt_lex in Hasc as [H|[H _]]; [by apply Qclt_le_weak|].
    rewrite H. apply Qcle_refl.
  - eapply StronglySorted_NoDup_impl; [done| |done].
    intros a b _ _ Hne Hasc Hw. unfold TesteCpp.weight_of in Hw.
    apply Hlt in Hasc; [|done].
    apply tuple_lt_lex in Hasc as [H|[_ H]].
    + rewrite Hw in H. by destruct (Qclt_not_eq _ _ H).
    + unfold lex_lt, TesteCpp.pair_of. simpl. lia.
  - by apply sort_descending_unique.
Qed.

Lemma candidate_order_descending_witness :
  TesteCpp.sort_descending (Ties3.std_sort ∘ reverse) (TesteCpp.complete_edges Ties3.weights 3)
    = TesteCpp.sort_descending Ties3.std_sort (TesteCpp.complete_edges Ties3.weights 3).
Proof.
  pose proof (candidate_order_descending Ties3.std_sort (Ties3.std_sort ∘ reverse)
    Example4.qsort4 Ties3.weights Example4.W4 3 Ties3.std_sort_sorts
    (sorts_reverse _ _ Ties3.std_sort_sorts) Example4.qsort4_sorts) as H.
  cbv zeta in H. exact (proj2 (proj2 (proj2 (proj2 (proj2 (proj1 H)))))).
Defined.

(** ** Fewer than three nodes *)

(** C8.  The budget [3 * (n - 2)] ([teste.c], "Maximum edges in a planar
    graph") and [3 * numNodes - 6] ([teste3.cpp], "Maximum edges in planar
    graph") is the bound for three nodes and more; below that it is not
    positive.  [create_pmfg] and [PMFGGenerator::createPMFG] apply it all
    the same, so for [n < 3] their loop ends before the first candidate
    and they return the graph without edges: on two nodes the pair
    [(0, 1)] is never committed, whatever its weight.  The sibling
    constructions do commit it on two nodes: [create_pmfg_incremental]
    ([unnamed/part_000]) for every matrix, and [createPMFG] of [teste.cpp]
    whenever its planarity test accepts the one-edge graph. *)
Theorem two_nodes_pair_not_committed
    (isPlanar isPlanarCpp : Graph → bool)
    (supportEdge : Graph → node → node → SpqrOnly.call bool)
    (qsort : (EdgeList.Edge → EdgeList.Edge → Z) → list EdgeList.Edge → list EdgeList.Edge)
    (std_sort : list (Qc * nat * nat) → list (Qc * nat * nat))
    (W : Matrix) (weights : gmap (nat * nat) Qc) (sortedEdges : list Teste3.Edge) :
  sorts EdgeList.desc_le (qsort EdgeList.compare_edges_desc) →
  sorts TesteCpp.ascending std_sort →
  isPlanarCpp [(0, 1)%nat] = true →
  (∀ n, (n < 3)%nat →
     TesteC.create_pmfg isPlanar qsort W n = [] ∧
     Teste3.createPMFG supportEdge (Z.of_nat n) sortedEdges = []) ∧
  Incremental.create_pmfg_incremental supportEdge qsort W 2
    = SpqrOnly.Returned [(0, 1)%nat] ∧
  TesteCpp.createPMFG std_sort isPlanarCpp weights 2 = [(0, 1)%nat].
Proof.
  intros Hqsort Hsort Hplanar. split_and!.
  - intros n Hn. split.
    + unfold TesteC.create_pmfg, TesteC.create_pmfg_loop.
      rewrite run_loop_false; [done|].
      apply andb_false_iff. right. apply bool_decide_eq_false.
      unfold TesteC.max_edges. simpl. lia.
    + unfold Teste3.createPMFG, Teste3.createPMFG_loop.
      rewrite run_loop_false; [done|].
      apply andb_false_iff. right. apply bool_decide_eq_false.
      unfold Teste3.maxEdges. simpl. lia.
  - unfold Incremental.create_pmfg_incremental.
    assert (qsort EdgeList.compare_edges_desc (EdgeList.extract_edges W 2)
            = [EdgeList.mkEdge 0 1 (W 0 1)%nat]) as ->.
    { destruct (Hqsort (EdgeList.extract_edges W 2)) as [Hperm _].
      by apply Permutation_singleton_r in Hperm. }
    by vm_compute.
  - unfold TesteCpp.createPMFG, TesteCpp.sort_descending.
    assert (std_sort (reverse (TesteCpp.complete_edges weights 2))
            = [(default 0%Qc (weights !! (0, 1)%nat), 0, 1)%nat]) as ->.
    { destruct (Hsort (reverse (TesteCpp.complete_edges weights 2))) as [Hperm _].
      by apply Permutation_singleton_r in Hperm. }
    change (reverse [(default 0%Qc (weights !! (0, 1)%nat), 0, 1)%nat])
      with [(default 0%Qc (weights !! (0, 1)%nat), 0, 1)%nat].
    cbn [TesteCpp.add_edges]. rewrite decide_True by done.
    change (newEdge [] 0%nat 1%nat) with ([(0, 1)%nat], 0%nat).
    cbv beta iota zeta. rewrite Hplanar. by rewrite decide_True.
Qed.

Lemma two_nodes_pair_not_committed_witness :
  TesteC.create_pmfg Example4.isPlanar4 Example4.qsort4 (λ _ _, 1%Qc) 2 = [] ∧
  Teste3.createPMFG Example4.supportEdge4 2 [Teste3.mkEdge 0 1 1%Qc] = [] ∧
  Incremental.create_pmfg_incremental Example4.supportEdge4 Example4.qsort4 (λ _ _, 1%Qc) 2
    = SpqrOnly.Returned [(0, 1)%nat] ∧
  TesteCpp.createPMFG Ties3.std_sort Example4.isPlanar4 Ties3.weights 2 = [(0, 1)%nat].
Proof.
  assert (2 < 3)%nat as Hn by lia.
  destruct (two_nodes_pair_not_committed Example4.isPlanar4 Example4.isPlanar4
    Example4.supportEdge4 Example4.qsort4 Ties3.std_sort (λ _ _, 1%Qc) Ties3.weights
    [Teste3.mkEdge 0 1 1%Qc] Example4.qsort4_sorts Ties3.std_sort_sorts eq_refl)
    as (Hnone & Hinc & Hcpp).
  destruct (Hnone 2%nat Hn) as [Hc H3]. by split_and!.
Defined.

(** ** The end-to-end example *)

Module Example4Cpp.
(** The weights of the example as the map [createPMFG] of [teste.cpp]
    reads. *)
Definition weights4 : gmap (nat * nat) Qc :=
  list_to_map
    [ ((0, 1)%nat, Q2Qc (9 # 10)); ((0, 2)%nat, Q2Qc (8 # 10));
      ((0, 3)%nat, Q2Qc (1 # 10)); ((1, 2)%nat, Q2Qc (7 # 10));
      ((1, 3)%nat, Q2Qc (6 # 10)); ((2, 3)%nat, Q2Qc (95 # 100)) ].

(** The spanning tree of the example. *)
Definition tree4 : Graph := [(2, 3); (0, 1); (0, 2)]%nat.
End Example4Cpp.

Lemma density_value (G : Graph) (n : nat) (q : Qc) :
  Stats.density_divisor n ≠ 0%Qc →
  (Qc_of_Z (numberOfEdges G) / Stats.density_divisor n)%Qc = q →
  Stats.density (Stats.print_pmfg_stats_spqr G n) = Stats.Finite q.
Proof.
  intros Hne <-. unfold Stats.print_pmfg_stats_spqr, Stats.print_pmfg_stats_with.
  simpl. unfold Stats.fdiv. by rewrite decide_False.
Qed.

(** C2.  On the four-node example, whichever routine sorts the
    candidates:
    - phase 1 of [create_pmfg_incremental] ([unnamed/part_000]) commits
      [(2,3)] and [(0,1)] only; [(0,2)] is committed in phase 2 with
      [(1,2)], [(1,3)] and [(0,3)], and the function returns the complete
      graph, six edges, density 1;
    - [createPMFG] ([teste.cpp]) commits the tree edges [(2,3)], [(0,1)],
      [(0,2)] and nothing after them: three edges, density 1/2. *)
Theorem example4_constructions
    (qsort : (EdgeList.Edge → EdgeList.Edge → Z) → list EdgeList.Edge → list EdgeList.Edge)
    (std_sort : list (Qc * nat * nat) → list (Qc * nat * nat)) :
  sorts EdgeList.desc_le (qsort EdgeList.compare_edges_desc) →
  sorts TesteCpp.ascending std_sort →
  (Incremental.t_pmfg
     (Incremental.tree_phase
        (qsort EdgeList.compare_edges_desc (EdgeList.extract_edges Example4.W4 4)) 4)
     = [(2, 3); (0, 1)]%nat ∧
   Incremental.create_pmfg_incremental Example4.supportEdge4 qsort Example4.W4 4
     = SpqrOnly.Returned Example4.K4 ∧
   Stats.density (Stats.print_pmfg_stats_spqr Example4.K4 4) = Stats.Finite 1%Qc) ∧
  (TesteCpp.createPMFG std_sort Example4.isPlanar4 Example4Cpp.weights4 4
     = Example4Cpp.tree4 ∧
   Stats.density (Stats.print_pmfg_stats_spqr Example4Cpp.tree4 4)
     = Stats.Finite (Q2Qc (1 # 2))).
Proof.
  intros Hq Hs.
  assert (Stats.density_divisor 4 ≠ 0%Qc) as Hdiv.
  { rewrite density_divisor_zero. lia. }
  split; split_and!.
  - rewrite (Example4.sort_example4 qsort Hq). by vm_compute.
  - unfold Incremental.create_pmfg_incremental.
    rewrite (Example4.sort_example4 qsort Hq). by vm_compute.
  - apply density_value; [done|]. apply Qc_is_canon. by vm_compute.
  - unfold TesteCpp.createPMFG.
    rewrite (sort_descending_unique std_sort Ties3.std_sort _ Hs Ties3.std_sort_sorts).
    by vm_compute.
  - apply density_value; [done|]. apply Qc_is_canon. by vm_compute.
Qed.

Lemma example4_constructions_witness :
  Incremental.create_pmfg_incremental Example4.supportEdge4 Example4.qsort4 Example4.W4 4
    = SpqrOnly.Returned Example4.K4 ∧
  TesteCpp.createPMFG Ties3.std_sort Example4.isPlanar4 Example4Cpp.weights4 4
    = Example4Cpp.tree4.
Proof.
  pose proof (example4_constructions Example4.qsort4 Ties3.std_sort
    Example4.qsort4_sorts Ties3.std_sort_sorts) as [(_ & H1 & _) (H2 & _)].
  split; [exact H1|exact H2].
Defined.

(** ** The tree phase *)

(** Two nodes are in one component of [G] when a path of edges, taken in
    either direction, leads from one to the other. *)
Definition connected (G : Graph) : relation nat := rtsc (λ a b, (a, b) ∈ G).

(** A labelling that every edge respects is constant on components. *)
Lemma connected_same_label (f : nat → nat) (G : Graph) (u v : nat) :
  (∀ a b, (a, b) ∈ G → f a = f b) → connected G u v → f u = f v.
Proof.
  intros Hf. induction 1 as [|x y z [Hxy|Hyx] _ IH]; [done| |].
  - rewrite <-IH. by apply Hf.
  - rewrite <-IH. symmetry. by apply Hf.
Qed.

Module Example4Tree.
Import Incremental.
(** Phase 1 of [create_pmfg_incremental] on the example when it reaches the
    third candidate, [(0, 2)]: the edges [(2,3)] and [(0,1)] are in, every
    node is flagged, [components] is still [4]. *)
Definition before_0_2 : tree_state :=
  TreeState 2 4 [true; true; true; true] 2 [(2, 3); (0, 1)]%nat.
End Example4Tree.

(** C4.  On the four-node example, whichever routine sorts the
    candidates, phase 1 of [create_pmfg_incremental] ([unnamed/part_000])
    reaches the candidate [(0, 2)] with the graph [(2,3), (0,1)], in which
    nodes [0] and [2] are not connected, and does not commit it.  The phase
    runs through all six candidates with [components] never lowered, and
    ends with two edges: a forest in which [0] and [2] are still apart,
    not the spanning tree. *)
Theorem tree_phase_misses_joining_edge
    (qsort : (EdgeList.Edge → EdgeList.Edge → Z) → list EdgeList.Edge → list EdgeList.Edge) :
  sorts EdgeList.desc_le (qsort EdgeList.compare_edges_desc) →
  let edges := qsort EdgeList.compare_edges_desc (EdgeList.extract_edges Example4.W4 4) in
  (loop_reach (Incremental.tree_cond edges) (Incremental.tree_body edges)
     (Incremental.tree_init 4) Example4Tree.before_0_2 ∧
   EdgeList.endpoints <$> edges !! 2%nat = Some (0, 2)%nat ∧
   ¬ connected (Incremental.t_pmfg Example4Tree.before_0_2) 0%nat 2%nat ∧
   Incremental.t_pmfg (Incremental.tree_body edges Example4Tree.before_0_2)
     = Incremental.t_pmfg Example4Tree.before_0_2) ∧
  (Incremental.t_pmfg (Incremental.tree_phase edges 4) = [(2, 3); (0, 1)]%nat ∧
   Incremental.t_k (Incremental.tree_phase edges 4) = 6%nat ∧
   Incremental.components (Incremental.tree_phase edges 4) = 4 ∧
   ¬ connected (Incremental.t_pmfg (Incremental.tree_phase edges 4)) 0%nat 2%nat).
Proof.
  intros Hq edges. unfold edges. rewrite (Example4.sort_example4 qsort Hq).
  assert (¬ connected [(2, 3); (0, 1)]%nat 0%nat 2%nat) as Hsplit.
  { intros Hc.
    apply (connected_same_label (λ x, if decide (x < 2)%nat then 0 else 1)%nat) in Hc.
    - done.
    - intros a b. rewrite !elem_of_cons, elem_of_nil.
      by intros [[= -> ->]|[[= -> ->]|[]]]. }
  assert (Incremental.tree_phase Example4.sorted4 4
          = Incremental.TreeState 6 4 [true; true; true; true] 2 [(2, 3); (0, 1)]%nat)
    as -> by (by vm_compute).
  split_and!; try done.
  assert (Example4Tree.before_0_2
          = Incremental.tree_body Example4.sorted4
              (Incremental.tree_body Example4.sorted4 (Incremental.tree_init 4))) as ->
    by (by vm_compute).
  apply reach_iter; [apply reach_iter; [constructor|]|]; by vm_compute.
Qed.

Lemma tree_phase_misses_joining_edge_witness :
  Incremental.t_pmfg
    (Incremental.tree_phase
       (Example4.qsort4 EdgeList.compare_edges_desc (EdgeList.extract_edges Example4.W4 4)) 4)
    = [(2, 3); (0, 1)]%nat.
Proof.
  pose proof (tree_phase_misses_joining_edge Example4.qsort4 Example4.qsort4_sorts) as H.
  cbv zeta in H. exact (proj1 (proj2 H)).
Defined.

(** ** The bounded reader *)

Module TopKExample.
(** Three nodes: [w(0,1) = 3], [w(0,2) = 2], [w(1,2) = 1]. *)
Definition rows3 : list (list TopK.cell) :=
  [ [TopK.Number (Q2Qc 0); TopK.Number (Q2Qc 3); TopK.Number (Q2Qc 2)];
    [TopK.Number (Q2Qc 3); TopK.Number (Q2Qc 0); TopK.Number (Q2Qc 1)];
    [TopK.Number (Q2Qc 2); TopK.Number (Q2Qc 1); TopK.Number (Q2Qc 0)] ].

(** Two nodes: the buffer size is [min(0, 100000) = 0]. *)
Definition rows2 : list (list TopK.cell) :=
  [ [TopK.Number (Q2Qc 0); TopK.Number (Q2Qc 1)];
    [TopK.Number (Q2Qc 1); TopK.Number (Q2Qc 0)] ].

(** Fifty-nine nodes, the smallest size with more candidates (1711) than
    the buffer holds (1710): [w(r,c) = 59 * min(r,c) + max(r,c)], so the
    weights grow along the scan of the upper triangle. *)
Definition w59 (r c : nat) : Qc := Qc_of_Z (Z.of_nat (59 * (r `min` c) + (r `max` c))).
Definition rows59 : list (list TopK.cell) :=
  (λ r, (λ c, TopK.Number (w59 r c)) <$> seq 0 59) <$> seq 0 59.

(** The retained edges are [size] many, [kept] is among them and
    [dropped] is not. *)
Definition retained_check (n : nat) (rows : list (list TopK.cell))
    (size : nat) (kept dropped : nat * nat) : bool :=
  match TopK.candidate_edges n rows with
  | Some edges =>
      bool_decide (length edges = size) &&
      bool_decide (kept ∈ TopK.endpoints <$> edges) &&
      bool_decide (dropped ∉ TopK.endpoints <$> edges)
  | None => false
  end.

Lemma retained_check_true n rows size kept dropped :
  retained_check n rows size kept dropped = true →
  ∃ edges, TopK.candidate_edges n rows = Some edges ∧ length edges = size ∧
    kept ∈ TopK.endpoints <$> edges ∧ dropped ∉ TopK.endpoints <$> edges.
Proof.
  unfold retained_check. destruct (TopK.candidate_edges n rows) as [edges|]; [|done].
  rewrite !andb_true_iff, !bool_decide_eq_true. intros [[? ?] ?]. by exists edges.
Qed.
End TopKExample.

(** C9.  [unnamed/part_001] keeps its buffer in a [priority_queue] whose
    top is the heaviest edge, not the lightest.
    - With three candidates, all within the buffer, the vector handed on
      is weakest first: [(1,2)], [(0,2)], [(0,1)] for the weights 1, 2, 3.
    - With 59 nodes the buffer holds [K = 1710] of the 1711 candidates;
      the edges retained include [(0,1)], the lightest candidate of all,
      and not [(56,58)], the second heaviest.
    - With two nodes the buffer size is [0] and the single candidate makes
      the reader call [top()] on the empty queue. *)
Theorem top_edges_not_strongest_first :
  TopK.candidate_edges 3 TopKExample.rows3
    = Some [ TopK.mkEdge 1 2 (Q2Qc 1); TopK.mkEdge 0 2 (Q2Qc 2); TopK.mkEdge 0 1 (Q2Qc 3) ] ∧
  TopK.candidate_edges 2 TopKExample.rows2 = None ∧
  TopK.bufferSize 59 = 1710 ∧
  Z.of_nat (length (upper_pairs 59)) = 1711 ∧
  (TopKExample.w59 0 1 < TopKExample.w59 56 58)%Qc ∧
  ∃ edges, TopK.candidate_edges 59 TopKExample.rows59 = Some edges ∧
    length edges = 1710%nat ∧
    (0, 1)%nat ∈ TopK.endpoints <$> edges ∧
    (56, 58)%nat ∉ TopK.endpoints <$> edges.
Proof.
  split_and!.
  - by vm_compute.
  - by vm_compute.
  - by vm_compute.
  - rewrite length_upper_pairs. by vm_compute.
  - by vm_compute.
  - apply TopKExample.retained_check_true. by vm_compute.
Qed.

(** * Further properties of the code *)

(** ** Connectivity *)

Lemma connected_mono (G G' : list (nat * nat)) (u v : nat) :
  G ⊆ G' → connected G u v → connected G' u v.
Proof.
  intros Hsub. apply rtc_subrel. intros a b [Hab|Hba]; [left|right]; by apply Hsub.
Qed.

Lemma connected_edge (G : list (nat * nat)) (a b : nat) :
  (a, b) ∈ G → connected G a b.
Proof. intros Hin. by apply rtsc_lr. Qed.

(** Adding the edge [(a, b)] connects exactly what was connected before
    and what the edge bridges. *)
Lemma connected_snoc (G : list (nat * nat)) (a b u v : nat) :
  connected (G ++ [(a, b)]) u v ↔
  connected G u v ∨ (connected G u a ∧ connected G b v) ∨
  (connected G u b ∧ connected G a v).
Proof.
  assert (G ⊆ G ++ [(a, b)]) as Hsub by (intros x Hx; apply elem_of_app; by left).
  assert (connected (G ++ [(a, b)]) a b) as Hab.
  { apply connected_edge, elem_of_app. right. by left. }
  split.
  - induction 1 as [x|x y z Hxy _ IH]; [left; reflexivity|].
    assert (connected G x y ∨ (x = a ∧ y = b) ∨ (x = b ∧ y = a)) as Hstep.
    { destruct Hxy as [Hin|Hin]; apply elem_of_app in Hin as [Hin|Hin].
      - left. by apply connected_edge.
      - apply list_elem_of_singleton in Hin as [= -> ->]. by right; left.
      - left. symmetry. by apply connected_edge.
      - apply list_elem_of_singleton in Hin as [= -> ->]. by right; right. }
    destruct Hstep as [Hc|[[-> ->]|[-> ->]]].
    + destruct IH as [IH|[[IH1 IH2]|[IH1 IH2]]].
      * left. by etrans.
      * right; left. split; [by etrans|done].
      * right; right. split; [by etrans|done].
    + destruct IH as [IH|[[IH1 IH2]|[IH1 IH2]]].
      * right; left. split; [reflexivity|done].
      * right; left. split; [reflexivity|done].
      * by left.
    + destruct IH as [IH|[[IH1 IH2]|[IH1 IH2]]].
      * right; right. split; [reflexivity|done].
      * by left.
      * right; right. split; [reflexivity|done].
  - intros [Hc|[[H1 H2]|[H1 H2]]].
    + by eapply connected_mono.
    + etrans; [by eapply connected_mono|]. etrans; [exact Hab|]. by eapply connected_mono.
    + etrans; [by eapply connected_mono|]. etrans; [symmetry; exact Hab|].
      by eapply connected_mono.
Qed.

(** A graph given in commit order is a forest when every edge joined two
    nodes that the edges before it had left unconnected. *)
Definition joins_components (G : list (nat * nat)) : Prop :=
  ∀ m e, G !! m = Some e → ¬ connected (take m G) e.1 e.2.

Lemma joins_components_nil : joins_components [].
Proof. by intros m e. Qed.

Lemma joins_components_snoc (G : list (nat * nat)) (u v : nat) :
  joins_components G → ¬ connected G u v → joins_components (G ++ [(u, v)]).
Proof.
  intros HG Hnc m e Hm.
  destruct (decide (m < length G)%nat) as [Hlt|Hge].
  - rewrite lookup_app_l in Hm by done. rewrite take_app_le by lia. by apply HG.
  - rewrite lookup_app_r in Hm by lia.
    apply list_lookup_singleton_Some in Hm as [Hm <-].
    assert (m = length G) as -> by lia.
    by rewrite take_app_length.
Qed.

(** A forest in commit order has no self-loop and joins no pair twice. *)
Lemma joins_components_simple (G : list (nat * nat)) :
  joins_components G → no_self_loops G ∧ no_duplicate_edges G.
Proof.
  induction G as [|e G IH] using rev_ind; intros HG.
  - split; [by intros u v ?%elem_of_nil|]. apply NoDup_nil_2.
  - assert (joins_components G) as HG'.
    { intros m e' Hm. pose proof (lookup_lt_Some _ _ _ Hm) as Hlt.
      specialize (HG m e'). rewrite lookup_app_l, take_app_le in HG by lia. auto. }
    assert (¬ connected G e.1 e.2) as Hnc.
    { specialize (HG (length G) e). rewrite take_app_length in HG.
      apply HG. by rewrite lookup_app_r, Nat.sub_diag by lia. }
    destruct (IH HG') as [Hloops Hdup]. split.
    + intros u v [Hin|Hin%list_elem_of_singleton]%elem_of_app; [by apply Hloops|].
      subst e. simpl in Hnc. intros ->. by apply Hnc.
    + unfold no_duplicate_edges. rewrite fmap_app. apply NoDup_app.
      split_and!; [done| |apply NoDup_singleton].
      intros p Hp Hp'%list_elem_of_singleton. subst p.
      apply list_elem_of_fmap in Hp as ([a b] & Heq & Hin). apply Hnc.
      destruct e as [u v]. unfold unordered in Heq. simpl in *.
      repeat case_decide; simplify_eq.
      * by apply connected_edge.
      * symmetry. by apply connected_edge.
      * symmetry. by apply connected_edge.
      * by apply connected_edge.
Qed.

(** ** [teste.cpp]: what the component labels of [createPMFG] do *)

Section component_labels.
Import TesteCpp.
Variable isPlanar : list (nat * nat) → bool.
Variable n : nat.

(** The labels in use. *)
Definition labels (component : list nat) : gset nat := list_to_set component.

(** What the loop keeps true of [component] and [G]. *)
Definition components_inv (component : list nat) (G : list (nat * nat)) : Prop :=
  length component = n ∧
  (∀ u v, (u < n)%nat → (v < n)%nat →
     component !!! u = component !!! v ↔ connected G u v) ∧
  joins_components G ∧
  (length G + size (labels component) = n)%nat.

Lemma relabel_lookup component oldComp newComp x :
  (x < length component)%nat →
  relabel component oldComp newComp !!! x
  = if decide (component !!! x = oldComp) then newComp else component !!! x.
Proof.
  intros [c Hc]%lookup_lt_is_Some_2. unfold relabel.
  by rewrite !list_lookup_total_alt, list_lookup_fmap, Hc.
Qed.

Lemma labels_relabel component oldComp newComp :
  newComp ∈ labels component → oldComp ≠ newComp →
  labels (relabel component oldComp newComp) = labels component ∖ {[ oldComp ]}.
Proof.
  intros Hnew Hne. unfold labels, relabel in *. apply set_eq. intros x.
  rewrite elem_of_difference, !elem_of_list_to_set, list_elem_of_fmap,
    elem_of_singleton.
  apply elem_of_list_to_set in Hnew. split.
  - intros (y & -> & Hy). case_decide; [done|]. by split.
  - intros [Hx Hxo]. exists x. split; [|done]. by rewrite decide_False.
Qed.

Lemma components_inv_init : components_inv (seq 0 n) [].
Proof.
  split_and!.
  - apply length_seq.
  - intros u v Hu Hv. rewrite !lookup_total_seq_lt by done. simpl. split.
    + by intros ->.
    + intros Hc. by eapply (connected_same_label id []); [intros ?? ?%elem_of_nil|].
  - apply joins_components_nil.
  - simpl. unfold labels. rewrite size_list_to_set by apply NoDup_seq.
    apply length_seq.
Qed.

Lemma components_inv_join component G u v :
  components_inv component G → (u < n)%nat → (v < n)%nat →
  component !!! u ≠ component !!! v →
  components_inv (relabel component (component !!! v) (component !!! u)) (G ++ [(u, v)]).
Proof.
  intros (Hlen & Hconn & Hjoin & Hcount) Hu Hv Hne.
  assert (component !!! u ∈ labels component ∧ component !!! v ∈ labels component)
    as [Hlu Hlv].
  { unfold labels. rewrite !elem_of_list_to_set.
    split; [apply (list_elem_of_lookup_total_2 component u)|
            apply (list_elem_of_lookup_total_2 component v)]; lia. }
  split_and!.
  - unfold relabel. by rewrite length_fmap.
  - intros x y Hx Hy. rewrite !relabel_lookup by lia. rewrite connected_snoc.
    rewrite <-(Hconn x y), <-(Hconn x u), <-(Hconn v y), <-(Hconn x v), <-(Hconn u y)
      by done.
    repeat case_decide; lia.
  - apply joins_components_snoc; [done|]. by rewrite <-Hconn.
  - rewrite labels_relabel by done. rewrite length_app. simpl.
    rewrite size_difference by (by apply singleton_subseteq_l).
    rewrite size_singleton.
    assert (size (labels component) ≠ 0)%nat; [|lia].
    apply size_non_empty_iff. intros Hempty. rewrite Hempty in Hlu.
    by apply not_elem_of_empty in Hlu.
Qed.

(** The loop keeps the invariant, whatever the oracle answers. *)
Lemma add_edges_inv (edges : list (Qc * nat * nat)) component G :
  Forall (λ e, (e.1.2 < n)%nat ∧ (e.2 < n)%nat) edges →
  components_inv component G →
  ∃ component', components_inv component' (add_edges isPlanar n edges component G).
Proof.
  intros Hedges. revert component G.
  induction Hedges as [|[[w u] v] edges [Hu Hv] _ IH]; intros component G Hinv.
  { by exists component. }
  simpl in Hu, Hv. simpl.
  destruct (decide (component !!! u ≠ component !!! v)) as [Hne|Heq].
  - unfold newEdge. destruct (isPlanar (G ++ [(u, v)])).
    + pose proof (components_inv_join _ _ u v Hinv Hu Hv Hne) as Hinv'.
      case_decide; [by eexists|]. by apply IH.
    + pose proof (TesteC.delEdge_newEdge G u v) as Hdel.
      unfold newEdge in Hdel. simpl in Hdel. rewrite Hdel.
      case_decide; [by eexists|]. by apply IH.
  - case_decide; [by eexists|]. by apply IH.
Qed.
End component_labels.

Lemma sort_descending_perm
    (std_sort : list (Qc * nat * nat) → list (Qc * nat * nat)) edges :
  sorts TesteCpp.ascending std_sort → TesteCpp.sort_descending std_sort edges ≡ₚ edges.
Proof.
  intros Hs. unfold TesteCpp.sort_descending.
  etrans; [apply reverse_Permutation|]. etrans; [apply Hs|]. apply reverse_Permutation.
Qed.

Lemma sorted_complete_edges_range
    (std_sort : list (Qc * nat * nat) → list (Qc * nat * nat)) weights n :
  sorts TesteCpp.ascending std_sort →
  Forall (λ e, (e.1.2 < e.2 < n)%nat)
    (TesteCpp.sort_descending std_sort (TesteCpp.complete_edges weights n)).
Proof.
  intros Hs. rewrite (sort_descending_perm _ _ Hs). apply Forall_forall.
  intros e He. unfold TesteCpp.complete_edges in He.
  apply list_elem_of_fmap in He as (p & -> & Hp). by apply upper_pairs_lt in Hp.
Qed.

Lemma createPMFG_components_inv
    (std_sort : list (Qc * nat * nat) → list (Qc * nat * nat))
    (isPlanar : list (nat * nat) → bool) weights n :
  sorts TesteCpp.ascending std_sort →
  ∃ component,
    components_inv n component (TesteCpp.createPMFG std_sort isPlanar weights n).
Proof.
  intros Hs. unfold TesteCpp.createPMFG.
  apply add_edges_inv; [|apply components_inv_init].
  eapply Forall_impl; [by apply sorted_complete_edges_range|].
  intros e He. simpl in He. lia.
Qed.

(** X1.  Whatever the oracle answers, the graph [createPMFG] ([teste.cpp])
    returns is a forest: every edge, in the order of commitment, joined two
    nodes that the earlier edges had not connected.  So it has no
    self-loop and joins no pair of nodes twice. *)
Theorem createPMFG_forest
    (std_sort : list (Qc * nat * nat) → list (Qc * nat * nat))
    (isPlanar : list (nat * nat) → bool) (weights : gmap (nat * nat) Qc) (n : nat) :
  sorts TesteCpp.ascending std_sort →
  joins_components (TesteCpp.createPMFG std_sort isPlanar weights n) ∧
  no_self_loops (TesteCpp.createPMFG std_sort isPlanar weights n) ∧
  no_duplicate_edges (TesteCpp.createPMFG std_sort isPlanar weights n).
Proof.
  intros Hs.
  destruct (createPMFG_components_inv std_sort isPlanar weights n Hs)
    as (component & _ & _ & Hjoin & _).
  split; [done|]. by apply joins_components_simple.
Qed.

Lemma createPMFG_forest_witness :
  joins_components
    (TesteCpp.createPMFG Ties3.std_sort Example4.isPlanar4 Example4Cpp.weights4 4).
Proof.
  exact (proj1 (createPMFG_forest Ties3.std_sort Example4.isPlanar4
                  Example4Cpp.weights4 4 Ties3.std_sort_sorts)).
Defined.

(** X2.  [createPMFG] ([teste.cpp]) never returns more than [n - 1] edges,
    so from three nodes on its graph stays below the planar budget
    [3n - 6] that the loop tests for. *)
Theorem createPMFG_below_budget
    (std_sort : list (Qc * nat * nat) → list (Qc * nat * nat))
    (isPlanar : list (nat * nat) → bool) (weights : gmap (nat * nat) Qc) (n : nat) :
  sorts TesteCpp.ascending std_sort →
  (length (TesteCpp.createPMFG std_sort isPlanar weights n) ≤ n - 1)%nat ∧
  ((3 ≤ n)%nat →
   numberOfEdges (TesteCpp.createPMFG std_sort isPlanar weights n) < 3 * Z.of_nat n - 6).
Proof.
  intros Hs.
  destruct (createPMFG_components_inv std_sort isPlanar weights n Hs)
    as (component & Hlen & _ & _ & Hcount).
  assert (n = 0 ∨ size (labels component) ≠ 0)%nat as Hsize.
  { destruct n as [|n']; [by left|right].
    apply size_non_empty_iff. intros Hempty.
    assert (component !!! 0%nat ∈ labels component) as Hin.
    { unfold labels. rewrite elem_of_list_to_set.
      apply (list_elem_of_lookup_total_2 component 0). lia. }
    rewrite Hempty in Hin. by apply not_elem_of_empty in Hin. }
  unfold numberOfEdges. lia.
Qed.

Lemma createPMFG_below_budget_witness :
  (length (TesteCpp.createPMFG Ties3.std_sort Example4.isPlanar4 Example4Cpp.weights4 4)
   ≤ 4 - 1)%nat.
Proof.
  exact (proj1 (createPMFG_below_budget Ties3.std_sort Example4.isPlanar4
                  Example4Cpp.weights4 4 Ties3.std_sort_sorts)).
Defined.

Lemma components_inv_bound n component (G : list (nat * nat)) :
  components_inv n component G → (1 ≤ n)%nat → (length G ≤ n - 1)%nat.
Proof.
  intros (Hlen & _ & _ & Hcount) Hn.
  assert (size (labels component) ≠ 0)%nat; [|lia].
  apply size_non_empty_iff. intros Hempty.
  assert (component !!! 0%nat ∈ labels component) as Hin.
  { unfold labels. rewrite elem_of_list_to_set.
    apply (list_elem_of_lookup_total_2 component 0). lia. }
  rewrite Hempty in Hin. by apply not_elem_of_empty in Hin.
Qed.

Section accepting_oracle.
Import TesteCpp.
Variable isPlanar : list (nat * nat) → bool.
Hypothesis isPlanar_true : ∀ G, isPlanar G = true.
Variable n : nat.
Hypothesis three_nodes : (3 ≤ n)%nat.

(** With an oracle that accepts, every candidate the loop has passed has
    its two nodes under one label, and labels once equal stay equal. *)
Lemma add_edges_accepting (edges : list (Qc * nat * nat)) component G :
  Forall (λ e, (e.1.2 < n)%nat ∧ (e.2 < n)%nat) edges →
  components_inv n component G →
  ∃ component',
    components_inv n component' (add_edges isPlanar n edges component G) ∧
    (∀ x y, (x < n)%nat → (y < n)%nat →
       component !!! x = component !!! y → component' !!! x = component' !!! y) ∧
    Forall (λ e, component' !!! e.1.2 = component' !!! e.2) edges.
Proof using isPlanar_true three_nodes.
  intros Hedges. revert component G.
  induction Hedges as [|[[w u] v] edges [Hu Hv] _ IH]; intros component G Hinv.
  { exists component. by split_and!. }
  simpl in Hu, Hv. simpl.
  destruct (decide (component !!! u ≠ component !!! v)) as [Hne|Heq].
  - unfold newEdge. rewrite isPlanar_true.
    pose proof (components_inv_join _ _ _ u v Hinv Hu Hv Hne) as Hinv'.
    pose proof (components_inv_bound _ _ _ Hinv' ltac:(lia)) as Hbound.
    rewrite decide_False by (unfold numberOfEdges; lia).
    destruct (IH _ _ Hinv') as (component' & Hinv'' & Hmono & Hall).
    destruct Hinv as (Hlen & _).
    exists component'. split_and!; [done| |].
    + intros x y Hx Hy Hxy. apply Hmono; [done..|].
      rewrite !relabel_lookup by lia. by rewrite Hxy.
    + constructor; [|done]. simpl. apply Hmono; [done..|].
      rewrite !relabel_lookup by lia. rewrite (decide_True (P:=_ !!! v = _)) by done.
      by rewrite decide_False.
  - apply dec_stable in Heq.
    pose proof (components_inv_bound _ _ _ Hinv ltac:(lia)) as Hbound.
    rewrite decide_False by (unfold numberOfEdges; lia).
    destruct (IH _ _ Hinv) as (component' & Hinv'' & Hmono & Hall).
    exists component'. split_and!; [done..|].
    constructor; [|done]. simpl. by apply Hmono.
Qed.
End accepting_oracle.

(** X3.  When the planarity test of [createPMFG] ([teste.cpp]) answers yes
    every time, as the node-count comparison it makes does, the graph
    returned is a spanning tree: any two of the [n] nodes are connected,
    and there are exactly [n - 1] edges (none for [n = 0]). *)
Theorem createPMFG_spanning_tree
    (std_sort : list (Qc * nat * nat) → list (Qc * nat * nat))
    (isPlanar : list (nat * nat) → bool) (weights : gmap (nat * nat) Qc) (n : nat) :
  sorts TesteCpp.ascending std_sort →
  (∀ G, isPlanar G = true) →
  (∀ u v, (u < n)%nat → (v < n)%nat →
     connected (TesteCpp.createPMFG std_sort isPlanar weights n) u v) ∧
  length (TesteCpp.createPMFG std_sort isPlanar weights n) = (n - 1)%nat.
Proof.
  intros Hs Hyes.
  destruct (decide (3 ≤ n)%nat) as [Hn|Hn].
  - unfold TesteCpp.createPMFG.
    destruct (add_edges_accepting isPlanar Hyes n Hn
                (TesteCpp.sort_descending std_sort (TesteCpp.complete_edges weights n))
                (seq 0 n) []) as (component & Hinv & _ & Hall).
    { eapply Forall_impl; [by apply sorted_complete_edges_range|].
      intros e He. simpl in He. lia. }
    { apply components_inv_init. }
    assert (∀ u v, (u < v < n)%nat → component !!! u = component !!! v) as Hlt.
    { intros u v Huv. rewrite Forall_forall in Hall.
      assert ((default 0%Qc (weights !! (u, v)), u, v)
              ∈ TesteCpp.sort_descending std_sort (TesteCpp.complete_edges weights n))
        as Hin.
      { rewrite (sort_descending_perm _ _ Hs). unfold TesteCpp.complete_edges.
        apply list_elem_of_fmap. exists (u, v). split; [done|].
        by apply elem_of_upper_pairs. }
      apply (Hall _ Hin). }
    assert (∀ u v, (u < n)%nat → (v < n)%nat → component !!! u = component !!! v)
      as Hsame.
    { intros u v Hu Hv. destruct (lt_eq_lt_dec u v) as [[?| ->]|?];
        [apply Hlt; lia|done|symmetry; apply Hlt; lia]. }
    split.
    + intros u v Hu Hv. destruct Hinv as (_ & Hconn & _). apply Hconn; auto.
    + destruct Hinv as (Hlen & _ & _ & Hcount).
      assert (labels component = {[ component !!! 0%nat ]}) as Hlabels.
      { apply set_eq. intros c. unfold labels.
        rewrite elem_of_list_to_set, elem_of_singleton. split.
        - intros (m & Hm)%list_elem_of_lookup_1.
          pose proof (lookup_lt_Some _ _ _ Hm) as Hlt'.
          rewrite <-(Hsame m 0%nat) by lia.
          by rewrite list_lookup_total_alt, Hm.
        - intros ->. apply (list_elem_of_lookup_total_2 component 0). lia. }
      rewrite Hlabels, size_singleton in Hcount. lia.
  - assert (TesteCpp.sort_descending std_sort (TesteCpp.complete_edges weights n)
            = TesteCpp.complete_edges weights n) as Hsorted.
    { pose proof (sort_descending_perm std_sort (TesteCpp.complete_edges weights n) Hs)
        as Hperm.
      destruct n as [|[|[|n']]]; [| | |lia].
      + by apply Permutation_nil_r in Hperm.
      + by apply Permutation_nil_r in Hperm.
      + by apply Permutation_singleton_r in Hperm. }
    unfold TesteCpp.createPMFG. rewrite Hsorted.
    destruct n as [|[|[|n']]]; [| | |lia].
    + split; [intros; lia|done].
    + split; [|done]. intros u v Hu Hv. assert (u = v) as -> by lia. reflexivity.
    + simpl. unfold newEdge. rewrite Hyes. simpl. split; [|done].
      assert (connected [(0, 1)%nat] 0 1)%nat as H01 by (apply connected_edge; by left).
      intros u v Hu Hv.
      destruct u as [|[|u]], v as [|[|v]]; try lia; [reflexivity|done| |reflexivity].
      by symmetry.
Qed.

Lemma createPMFG_spanning_tree_witness :
  length (TesteCpp.createPMFG Ties3.std_sort Example4.isPlanar4 Example4Cpp.weights4 4)
  = (4 - 1)%nat.
Proof.
  exact (proj2 (createPMFG_spanning_tree Ties3.std_sort Example4.isPlanar4
                  Example4Cpp.weights4 4 Ties3.std_sort_sorts (λ _, eq_refl))).
Defined.

(** ** [teste.cpp]: [WeightedPMFG::create] *)

Module WeightedPMFG.
Import TesteCpp.

(** The edge vector read with [weights.at({i, j})]: [None] when a key is
    absent and [at] throws [std::out_of_range]. *)
Definition complete_edges_at (weights : gmap (nat * nat) Qc) (n : nat)
    : option (list (Qc * nat * nat)) :=
  mapM (λ p, w ← weights !! p; Some (w, p.1, p.2)) (upper_pairs n).

Section create.
Variable std_sort : list (Qc * nat * nat) → list (Qc * nat * nat).
Variable isPlanar : list (nat * nat) → bool.

(** The loop of [create].  [m_edgeWeights] is the list of the weights
    stored for the edges of [m_graph], in the order of the edges: a new edge
    starts with the default [0.0] of [init], an accepted edge gets its
    weight, a removed edge leaves the array with its entry. *)
Fixpoint add_edges (n : nat) (edges : list (Qc * nat * nat)) (component : list nat)
    (m_graph : list (nat * nat)) (m_edgeWeights : list Qc)
    : list (nat * nat) * list Qc :=
  match edges with
  | [] => (m_graph, m_edgeWeights)
  | (weight, u, v) :: rest =>
      let '(component', G', W') :=
        if decide (component !!! u ≠ component !!! v) then
          let '(G1, e) := newEdge m_graph u v in
          let W1 := m_edgeWeights ++ [0%Qc] in
          if isPlanar G1
          then (relabel component (component !!! v) (component !!! u), G1,
                <[e := weight]> W1)
          else (component, delEdge G1 e, delete e W1)
        else (component, m_graph, m_edgeWeights) in
      if decide (numberOfEdges G' >= 3 * Z.of_nat n - 6) then (G', W')
      else add_edges n rest component' G' W'
  end.

(** [create]: the graph and the edge weights it leaves in the object, or
    the exception of [at]. *)
Definition create (weights : gmap (nat * nat) Qc) (n : nat)
    : SpqrOnly.call (list (nat * nat) * list Qc) :=
  match complete_edges_at weights n with
  | None => SpqrOnly.Thrown
  | Some edges =>
      SpqrOnly.Returned (add_edges n (sort_descending std_sort edges) (seq 0 n) [] [])
  end.
End create.
End WeightedPMFG.

Lemma complete_edges_at_Some (weights : gmap (nat * nat) Qc) n edges :
  WeightedPMFG.complete_edges_at weights n = Some edges →
  edges = TesteCpp.complete_edges weights n ∧
  Forall (λ e, weights !! (e.1.2, e.2) = Some e.1.1) edges.
Proof.
  unfold WeightedPMFG.complete_edges_at, TesteCpp.complete_edges.
  intros HF%mapM_Some. induction HF as [|[a b] e ps es He _ IH]; [done|].
  destruct IH as [-> IH]. simpl in He.
  destruct (weights !! (a, b)) as [w|] eqn:Hw; simplify_eq/=.
  rewrite Hw. split; [done|]. by constructor.
Qed.

Lemma complete_edges_at_None (weights : gmap (nat * nat) Qc) n :
  WeightedPMFG.complete_edges_at weights n = None ↔
  ∃ p, p ∈ upper_pairs n ∧ weights !! p = None.
Proof.
  unfold WeightedPMFG.complete_edges_at. rewrite mapM_None, Exists_exists.
  split; intros (p & Hp & Hw); exists p; (split; [done|]).
  - by destruct (weights !! p).
  - by rewrite Hw.
Qed.

(** The loop of [create] builds the graph of [createPMFG] and keeps one
    weight per edge, the one the candidate came with. *)
Lemma weighted_add_edges_spec (isPlanar : list (nat * nat) → bool)
    (weights : gmap (nat * nat) Qc) (n : nat)
    (edges : list (Qc * nat * nat)) component (G : list (nat * nat)) (W : list Qc) :
  Forall (λ e, weights !! (e.1.2, e.2) = Some e.1.1) edges →
  Forall2 (λ p w, weights !! p = Some w) G W →
  (WeightedPMFG.add_edges isPlanar n edges component G W).1
    = TesteCpp.add_edges isPlanar n edges component G ∧
  Forall2 (λ p w, weights !! p = Some w)
    (WeightedPMFG.add_edges isPlanar n edges component G W).1
    (WeightedPMFG.add_edges isPlanar n edges component G W).2.
Proof.
  intros Hedges. revert component G W.
  induction Hedges as [|[[w u] v] edges Hw _ IH]; intros component G W HGW; [done|].
  simpl in Hw. simpl.
  pose proof (Forall2_length _ _ _ HGW) as Hlen.
  destruct (decide (component !!! u ≠ component !!! v)) as [Hne|Heq].
  - unfold newEdge. destruct (isPlanar (G ++ [(u, v)])).
    + assert (<[length G := w]> (W ++ [0%Qc]) = W ++ [w]) as ->.
      { rewrite Hlen. by rewrite insert_app_r_alt, Nat.sub_diag by lia. }
      assert (Forall2 (λ p w, weights !! p = Some w) (G ++ [(u, v)]) (W ++ [w])) as HGW'.
      { apply Forall2_app; [done|]. by constructor. }
      case_decide; [done|]. by apply IH.
    + pose proof (TesteC.delEdge_newEdge G u v) as Hdel.
      unfold newEdge in Hdel. simpl in Hdel. rewrite Hdel.
      assert (delete (length G) (W ++ [0%Qc]) = W) as ->.
      { rewrite Hlen. by rewrite delete_middle, app_nil_r. }
      case_decide; [done|]. by apply IH.
  - case_decide; [done|]. by apply IH.
Qed.

(** X4.  [WeightedPMFG::create] ([teste.cpp]) throws exactly when the map
    lacks the weight of some pair [i < j < n], before any edge is added.
    When it returns, its graph is the one [createPMFG] builds from the same
    map, and [m_edgeWeights] holds for every edge of the graph the weight
    the map gives to that pair. *)
Theorem weighted_create_spec
    (std_sort : list (Qc * nat * nat) → list (Qc * nat * nat))
    (isPlanar : list (nat * nat) → bool) (weights : gmap (nat * nat) Qc) (n : nat) :
  sorts TesteCpp.ascending std_sort →
  (WeightedPMFG.create std_sort isPlanar weights n = SpqrOnly.Thrown ↔
   ∃ p, p ∈ upper_pairs n ∧ weights !! p = None) ∧
  (∀ G W, WeightedPMFG.create std_sort isPlanar weights n = SpqrOnly.Returned (G, W) →
     G = TesteCpp.createPMFG std_sort isPlanar weights n ∧
     Forall2 (λ p w, weights !! p = Some w) G W).
Proof.
  intros Hs. unfold WeightedPMFG.create. split.
  - rewrite <-complete_edges_at_None.
    by destruct (WeightedPMFG.complete_edges_at weights n).
  - intros G W HR.
    destruct (WeightedPMFG.complete_edges_at weights n) as [edges|] eqn:Hat; [|done].
    injection HR as HR. apply complete_edges_at_Some in Hat as [-> Hall].
    assert (Forall (λ e, weights !! (e.1.2, e.2) = Some e.1.1)
              (TesteCpp.sort_descending std_sort (TesteCpp.complete_edges weights n)))
      as Hall'.
    { by rewrite (sort_descending_perm _ _ Hs). }
    destruct (weighted_add_edges_spec isPlanar weights n _ (seq 0 n) [] []
                Hall' ltac:(constructor)) as [Hfst Hsnd].
    rewrite HR in Hfst, Hsnd. simpl in *. by split.
Qed.

Lemma weighted_create_spec_witness :
  WeightedPMFG.create Ties3.std_sort Example4.isPlanar4 Example4Cpp.weights4 4
    = SpqrOnly.Thrown ↔
  ∃ p, p ∈ upper_pairs 4 ∧ Example4Cpp.weights4 !! p = None.
Proof.
  exact (proj1 (weighted_create_spec Ties3.std_sort Example4.isPlanar4
                  Example4Cpp.weights4 4 Ties3.std_sort_sorts)).
Defined.

(** ** [teste3.cpp]: the bookkeeping of [PMFGGenerator] *)

(** X5.  [normalizeEdge] gives the smaller node first and gives two
    directed pairs the same key exactly when they join the same two
    nodes. *)
Theorem normalizeEdge_unordered (a b c d : Z) :
  (Teste3.normalizeEdge a b).1 ≤ (Teste3.normalizeEdge a b).2 ∧
  (Teste3.normalizeEdge a b = Teste3.normalizeEdge c d ↔
   (a = c ∧ b = d) ∨ (a = d ∧ b = c)).
Proof.
  unfold Teste3.normalizeEdge. repeat case_decide; simpl; (split; [lia|]);
    (split; [intros [= -> ->]; lia|intros [[-> ->]|[-> ->]]; f_equal; lia]).
Qed.

Lemma normalizeEdge_of_nat (u v : nat) :
  Teste3.normalizeEdge (Z.of_nat u) (Z.of_nat v)
  = (Z.of_nat (unordered (u, v)).1, Z.of_nat (unordered (u, v)).2).
Proof.
  unfold Teste3.normalizeEdge, unordered. simpl.
  repeat case_decide; simpl; f_equal; lia.
Qed.

Section generator_invariant.
Import Teste3.
Variable supportEdge : list (nat * nat) → nat → nat → SpqrOnly.call bool.
Variable numNodes : Z.
Variable sortedEdges : list Edge.

(** The key under which [createPMFG] records an edge of the graph. *)
Definition edge_key (p : nat * nat) : Z * Z :=
  normalizeEdge (Z.of_nat p.1) (Z.of_nat p.2).

(** The pair of nodes a valid candidate stands for. *)
Definition candidate_pair (e : Edge) : nat * nat :=
  (Z.to_nat (source e), Z.to_nat (target e)).

Lemma edge_key_unordered (p : nat * nat) :
  edge_key p = (Z.of_nat (unordered p).1, Z.of_nat (unordered p).2).
Proof. destruct p as [u v]. apply normalizeEdge_of_nat. Qed.

(** What [createPMFG] keeps true of the generator. *)
Definition generator_inv (s : state) : Prop :=
  addedEdgeCount s = numberOfEdges (graph s) ∧
  addedEdges s = list_to_set (edge_key <$> graph s) ∧
  no_duplicate_edges (graph s) ∧
  (∀ p, p ∈ graph s →
     Z.of_nat p.1 < numNodes ∧ Z.of_nat p.2 < numNodes ∧
     ∃ e, e ∈ sortedEdges ∧ 0 ≤ source e ∧ 0 ≤ target e ∧ candidate_pair e = p) ∧
  (0 ≤ maxEdges numNodes → addedEdgeCount s ≤ maxEdges numNodes).

Lemma generator_inv_initial : generator_inv initial.
Proof.
  split_and!; simpl; [done|done|apply NoDup_nil_2| |done].
  by intros p ?%elem_of_nil.
Qed.

Lemma generator_inv_body s :
  generator_inv s → loop_cond numNodes sortedEdges s = true →
  generator_inv (loop_body supportEdge numNodes sortedEdges s).
Proof.
  intros (Hcount & Hset & Hdup & Hrange & Hbudget) Hcond.
  apply andb_true_iff in Hcond as [Hk Hlt]. apply bool_decide_eq_true in Hk, Hlt.
  unfold loop_body.
  destruct (lookup_lt_is_Some_2 sortedEdges (k s) Hk) as [edge Hedge]. rewrite Hedge.
  assert (generator_inv (next s)) as Hnext by (by split_and!).
  unfold iteration. case_bool_decide as Hvalid; [done|].
  case_decide as Hin; [done|].
  destruct (supportEdge _ _ _) as [[]|]; [|done..]. simpl.
  assert (edge_key (candidate_pair edge) = normalizeEdge (source edge) (target edge))
    as Hkey.
  { unfold edge_key, candidate_pair. simpl. by rewrite !Z2Nat.id by lia. }
  split_and!; simpl.
  - unfold numberOfEdges in *. rewrite length_app. simpl. lia.
  - rewrite fmap_app, list_to_set_app_L. simpl. fold (candidate_pair edge).
    rewrite Hkey, Hset, (right_id_L ∅ (∪)). apply (comm_L (∪)).
  - unfold no_duplicate_edges in *. rewrite fmap_app. apply NoDup_app.
    split_and!; [done| |apply NoDup_singleton].
    intros p Hp Hp'%list_elem_of_singleton.
    apply list_elem_of_fmap in Hp as (q & Hq & Hqin). apply Hin.
    rewrite Hset, elem_of_list_to_set, list_elem_of_fmap. exists q. split; [|done].
    rewrite <-Hkey. fold (candidate_pair edge) in Hp'.
    rewrite !edge_key_unordered. by rewrite <-Hq, Hp'.
  - intros p [Hp|Hp%list_elem_of_singleton]%elem_of_app; [by apply Hrange|].
    subst p. simpl. rewrite !Z2Nat.id by lia. split_and!; [lia..|].
    exists edge. split_and!; [|lia..|done]. by eapply list_elem_of_lookup_2.
  - lia.
Qed.

Lemma createPMFG_loop_inv : generator_inv (createPMFG_loop supportEdge numNodes sortedEdges).
Proof.
  apply (loop_reach_invariant (loop_cond numNodes sortedEdges)
           (loop_body supportEdge numNodes sortedEdges) generator_inv initial).
  - apply generator_inv_initial.
  - apply generator_inv_body.
  - apply run_loop_reach.
Qed.
End generator_invariant.

(** X6.  Whatever edge list [PMFGGenerator::createPMFG] ([teste3.cpp]) is
    given (repeated pairs, both directions, node numbers out of range) and
    whatever the oracle answers, the graph it returns joins no pair of
    nodes twice, has both ends of every edge below [numNodes], takes every
    edge from a candidate with non-negative node numbers, and from two
    nodes on has at most [3 * numNodes - 6] edges.  It has no self-loop
    when the list has none, which is how [loadEdges] delivers it. *)
Theorem generator_graph_simple
    (supportEdge : list (nat * nat) → nat → nat → SpqrOnly.call bool)
    (numNodes : Z) (sortedEdges : list Teste3.Edge) :
  no_duplicate_edges (Teste3.createPMFG supportEdge numNodes sortedEdges) ∧
  (∀ p, p ∈ Teste3.createPMFG supportEdge numNodes sortedEdges →
     Z.of_nat p.1 < numNodes ∧ Z.of_nat p.2 < numNodes ∧
     ∃ e, e ∈ sortedEdges ∧ 0 ≤ Teste3.source e ∧ 0 ≤ Teste3.target e ∧
          candidate_pair e = p) ∧
  (2 ≤ numNodes →
   numberOfEdges (Teste3.createPMFG supportEdge numNodes sortedEdges) ≤ 3 * numNodes - 6) ∧
  (Forall (λ e, Teste3.source e ≠ Teste3.target e) sortedEdges →
   no_self_loops (Teste3.createPMFG supportEdge numNodes sortedEdges)).
Proof.
  destruct (createPMFG_loop_inv supportEdge numNodes sortedEdges)
    as (Hcount & _ & Hdup & Hrange & Hbudget).
  unfold Teste3.createPMFG. split_and!; [done..| |].
  - intros Hn. rewrite <-Hcount. apply Hbudget. unfold Teste3.maxEdges. lia.
  - intros Hloops u v Hin Heq. subst v.
    destruct (Hrange _ Hin) as (_ & _ & e & He & Hs & Ht & Hp).
    rewrite Forall_forall in Hloops. apply (Hloops e He).
    unfold candidate_pair in Hp. injection Hp as Hp1 Hp2. lia.
Qed.

Lemma generator_graph_simple_witness :
  numberOfEdges (Teste3.createPMFG Example4.supportEdge4 3 Duplicate.sortedEdges)
  ≤ 3 * 3 - 6.
Proof.
  assert (2 ≤ 3) as Hn by lia.
  exact (proj1 (proj2 (proj2 (generator_graph_simple Example4.supportEdge4 3
                                Duplicate.sortedEdges))) Hn).
Defined.

(** ** [unnamed/part_000]: what phase 1 of [create_pmfg_incremental] does *)

(** The number of flagged nodes. *)
Definition flagged (node_connected : list bool) : nat :=
  length (filter (λ b, b = true) node_connected).

Lemma flagged_le_length l : (flagged l ≤ length l)%nat.
Proof. apply length_filter. Qed.

Lemma flagged_insert (l : list bool) (x : nat) :
  (x < length l)%nat →
  flagged (<[x := true]> l) = (flagged l + (if (l !!! x : bool) then 0 else 1))%nat.
Proof.
  unfold flagged. revert x. induction l as [|b l IH]; intros x Hx; simpl in Hx; [lia|].
  destruct x as [|x].
  - change (<[0%nat:=true]> (b :: l)) with (true :: l).
    change ((b :: l) !!! 0%nat) with b.
    rewrite filter_cons_True by done.
    destruct b; [rewrite filter_cons_True by done|rewrite filter_cons_False by done];
      simpl; lia.
  - change (<[S x:=true]> (b :: l)) with (b :: <[x:=true]> l).
    change ((b :: l) !!! S x) with (l !!! x).
    destruct b; [rewrite !filter_cons_True by done|rewrite !filter_cons_False by done];
      simpl; rewrite IH by lia; lia.
Qed.

(** A node without an edge is connected to no other node. *)
Lemma isolated_not_connected (G : list (nat * nat)) (x y : nat) :
  (∀ p, p ∈ G → x ≠ p.1 ∧ x ≠ p.2) → x ≠ y → ¬ connected G x y ∧ ¬ connected G y x.
Proof.
  intros Hiso Hne.
  pose (f := λ z : nat, if decide (z = x) then 1%nat else 0%nat).
  assert (∀ a b, (a, b) ∈ G → f a = f b) as Hf.
  { intros a b Hab. destruct (Hiso _ Hab) as [Ha Hb]. simpl in *. unfold f.
    by rewrite !decide_False. }
  assert (f x = 1%nat) as Hx by (unfold f; by rewrite decide_True).
  assert (f y = 0%nat) as Hy by (unfold f; by rewrite decide_False).
  split; intros Hc; apply (connected_same_label f) in Hc; try done; congruence.
Qed.

Section tree_phase_invariant.
Import EdgeList Incremental.
Variable edges : list Edge.
Variable n : nat.
Hypothesis edges_in_range : Forall (λ e, (i e < j e < n)%nat) edges.

(** What phase 1 keeps true. *)
Definition tree_inv (s : tree_state) : Prop :=
  (t_k s ≤ length edges)%nat ∧
  components s = Z.of_nat n ∧
  length (node_connected s) = n ∧
  t_added_edges s = numberOfEdges (t_pmfg s) ∧
  sublist (t_pmfg s) (endpoints <$> take (t_k s) edges) ∧
  (∀ x, (x < n)%nat →
     node_connected s !!! x = true ↔ ∃ p, p ∈ t_pmfg s ∧ (x = p.1 ∨ x = p.2)) ∧
  joins_components (t_pmfg s) ∧
  Forall (λ e, node_connected s !!! i e = true ∧ node_connected s !!! j e = true)
    (take (t_k s) edges) ∧
  (t_pmfg s = [] ∨ length (t_pmfg s) + 1 ≤ flagged (node_connected s))%nat.

Lemma tree_inv_init : tree_inv (tree_init n).
Proof.
  split_and!; simpl; [lia|done|apply length_replicate|done|constructor| |
                      apply joins_components_nil|constructor|by left].
  intros x Hx. rewrite lookup_total_replicate_2 by done. split; [done|].
  by intros (p & ?%elem_of_nil & _).
Qed.

Lemma tree_inv_body s :
  tree_inv s → tree_cond edges s = true → tree_inv (tree_body edges s).
Proof using edges_in_range.
  intros (Hk & Hcomp & Hlen & Hadd & Hsub & Hflag & Hjoin & Hdone & Hcount) Hcond.
  apply andb_true_iff in Hcond as [Hlt _]. apply bool_decide_eq_true in Hlt.
  unfold tree_body.
  destruct (lookup_lt_is_Some_2 edges (t_k s) Hlt) as [e He]. rewrite He.
  assert (i e < j e < n)%nat as Hrange.
  { rewrite Forall_forall in edges_in_range. apply edges_in_range.
    by eapply list_elem_of_lookup_2. }
  assert (take (S (t_k s)) edges = take (t_k s) edges ++ [e]) as Htake
    by (by erewrite take_S_r).
  destruct (negb (node_connected s !!! i e) || negb (node_connected s !!! j e))
    eqn:Hfresh.
  - (* the edge is committed *)
    set (connected' := <[i e:=true]> (<[j e:=true]> (node_connected s))).
    assert (length connected' = n) as Hlen'
      by (unfold connected'; by rewrite !length_insert).
    assert (∀ x, (x < n)%nat →
              connected' !!! x = true ↔
              x = i e ∨ x = j e ∨ node_connected s !!! x = true) as Hlookup.
    { intros x Hx. unfold connected'.
      destruct (decide (x = i e)) as [->|Hxi].
      { rewrite list_lookup_total_insert_eq by (rewrite length_insert; lia).
        split; [by left|done]. }
      rewrite list_lookup_total_insert_ne by done.
      destruct (decide (x = j e)) as [->|Hxj].
      { rewrite list_lookup_total_insert_eq by lia. split; [by right; left|done]. }
      rewrite list_lookup_total_insert_ne by done.
      split; [by right; right|by intros [?|[?|?]]]. }
    assert (connected' !!! i e = true ∧ connected' !!! j e = true) as [Hi Hj].
    { split; apply Hlookup; [lia|by left|lia|by right; left]. }
    rewrite Hi, Hj. simpl.
    split_and!; simpl.
    + lia.
    + done.
    + done.
    + unfold numberOfEdges in *. rewrite length_app. simpl. lia.
    + rewrite Htake, fmap_app. by apply sublist_app.
    + intros x Hx. rewrite Hlookup by done. rewrite Hflag by done. split.
      * intros [->|[->|(p & Hp & Hxp)]].
        -- exists (i e, j e). split; [apply elem_of_app; right; by left|by left].
        -- exists (i e, j e). split; [apply elem_of_app; right; by left|by right].
        -- exists p. split; [apply elem_of_app; by left|done].
      * intros (p & [Hp|Hp%list_elem_of_singleton]%elem_of_app & Hxp).
        -- right; right. by exists p.
        -- subst p. simpl in Hxp. destruct Hxp; [by left|by right; left].
    + apply joins_components_snoc; [done|].
      apply orb_true_iff in Hfresh as [Hfi|Hfj].
      * apply (isolated_not_connected _ (i e) (j e)); [|lia].
        intros p Hp. split; intros Heq.
        -- apply negb_true_iff, not_true_iff_false in Hfi. apply Hfi.
           apply Hflag; [lia|]. exists p. by split; [|left].
        -- apply negb_true_iff, not_true_iff_false in Hfi. apply Hfi.
           apply Hflag; [lia|]. exists p. by split; [|right].
      * apply (isolated_not_connected _ (j e) (i e)); [|lia].
        intros p Hp. split; intros Heq.
        -- apply negb_true_iff, not_true_iff_false in Hfj. apply Hfj.
           apply Hflag; [lia|]. exists p. by split; [|left].
        -- apply negb_true_iff, not_true_iff_false in Hfj. apply Hfj.
           apply Hflag; [lia|]. exists p. by split; [|right].
    + rewrite Htake. apply Forall_app. split; [|by repeat constructor].
      apply Forall_forall. intros e' He'. rewrite Forall_forall in Hdone.
      destruct (Hdone e' He') as [Hi' Hj'].
      assert (e' ∈ edges) as Hin by (eapply elem_of_sublist; [done|apply sublist_take]).
      rewrite Forall_forall in edges_in_range. specialize (edges_in_range e' Hin).
      split; apply Hlookup; [lia|by right; right|lia|by right; right].
    + right. rewrite length_app. simpl. unfold connected'.
      rewrite flagged_insert by (rewrite length_insert; lia).
      rewrite list_lookup_total_insert_ne by lia.
      rewrite flagged_insert by lia.
      destruct Hcount as [Hnil|Hcount].
      * assert (∀ x, (x < n)%nat → node_connected s !!! x = false) as Hnone.
        { intros x Hx. apply not_true_iff_false. rewrite Hflag by done. rewrite Hnil.
          by intros (p & ?%elem_of_nil & _). }
        rewrite !Hnone by lia. rewrite Hnil. simpl. lia.
      * apply orb_true_iff in Hfresh as [Hf|Hf]; apply negb_true_iff in Hf;
          rewrite Hf; destruct (node_connected s !!! _); lia.
  - (* the edge is passed over *)
    apply orb_false_iff in Hfresh as [Hfi Hfj].
    apply negb_false_iff in Hfi, Hfj.
    split_and!; simpl; [lia|done|done|done| |done|done| |done].
    + rewrite Htake, fmap_app. by apply sublist_inserts_r.
    + rewrite Htake. apply Forall_app. split; [done|]. by repeat constructor.
Qed.
End tree_phase_invariant.

Lemma sorted_extract_range
    (qsort : (EdgeList.Edge → EdgeList.Edge → Z) → list EdgeList.Edge → list EdgeList.Edge)
    (W : Matrix) (n : nat) :
  sorts EdgeList.desc_le (qsort EdgeList.compare_edges_desc) →
  Forall (λ e, (EdgeList.i e < EdgeList.j e < n)%nat)
    (qsort EdgeList.compare_edges_desc (EdgeList.extract_edges W n)).
Proof.
  intros Hs. destruct (Hs (EdgeList.extract_edges W n)) as [Hperm _]. rewrite Hperm.
  apply Forall_forall. intros e He. unfold EdgeList.extract_edges in He.
  apply list_elem_of_fmap in He as (p & -> & Hp). by apply upper_pairs_lt in Hp.
Qed.

Lemma tree_phase_inv (edges : list EdgeList.Edge) (n : nat) :
  Forall (λ e, (EdgeList.i e < EdgeList.j e < n)%nat) edges →
  tree_inv edges n (Incremental.tree_phase edges n) ∧
  Incremental.tree_cond edges (Incremental.tree_phase edges n) = false.
Proof.
  intros Hrange. split.
  - apply (loop_reach_invariant (Incremental.tree_cond edges)
             (Incremental.tree_body edges) (tree_inv edges n) (Incremental.tree_init n)).
    + apply tree_inv_init.
    + by apply tree_inv_body.
    + apply run_loop_reach.
  - apply (run_loop_exits _ _ (λ s, (length edges - Incremental.t_k s)%nat)); [|simpl; lia].
    intros s Hcond. apply andb_true_iff in Hcond as [Hlt _].
    apply bool_decide_eq_true in Hlt. unfold Incremental.tree_body.
    destruct (lookup_lt_is_Some_2 edges (Incremental.t_k s) Hlt) as [e He]. rewrite He.
    destruct (_ || _); simpl; lia.
Qed.

(** X7.  In phase 1 of [create_pmfg_incremental] ([unnamed/part_000]) the
    counter [components] never leaves its initial value [n], for any
    matrix: both flags are set before they are tested.  So from two nodes
    on the loop condition [components > 1] never ends the phase, and the
    phase looks at every candidate. *)
Theorem tree_phase_scans_all
    (qsort : (EdgeList.Edge → EdgeList.Edge → Z) → list EdgeList.Edge → list EdgeList.Edge)
    (W : Matrix) (n : nat) :
  sorts EdgeList.desc_le (qsort EdgeList.compare_edges_desc) →
  let edges := qsort EdgeList.compare_edges_desc (EdgeList.extract_edges W n) in
  Incremental.components (Incremental.tree_phase edges n) = Z.of_nat n ∧
  ((2 ≤ n)%nat → Incremental.t_k (Incremental.tree_phase edges n) = length edges).
Proof.
  intros Hs edges.
  destruct (tree_phase_inv edges n (sorted_extract_range qsort W n Hs))
    as [(Hk & Hcomp & _) Hexit].
  split; [done|]. intros Hn.
  apply andb_false_iff in Hexit as [Hexit|Hexit]; apply bool_decide_eq_false in Hexit; lia.
Qed.

Lemma tree_phase_scans_all_witness :
  Incremental.components
    (Incremental.tree_phase
       (Example4.qsort4 EdgeList.compare_edges_desc (EdgeList.extract_edges Example4.W4 4)) 4)
  = Z.of_nat 4.
Proof.
  exact (proj1 (tree_phase_scans_all Example4.qsort4 Example4.W4 4 Example4.qsort4_sorts)).
Defined.

(** X8.  For every matrix, the graph phase 1 of [create_pmfg_incremental]
    leaves is a forest with at most [n - 1] edges in which, from two nodes
    on, every node has an edge; two nodes need not be connected (see the
    four-node example). *)
Theorem tree_phase_covers_nodes
    (qsort : (EdgeList.Edge → EdgeList.Edge → Z) → list EdgeList.Edge → list EdgeList.Edge)
    (W : Matrix) (n : nat) :
  sorts EdgeList.desc_le (qsort EdgeList.compare_edges_desc) →
  let G := Incremental.t_pmfg
             (Incremental.tree_phase
                (qsort EdgeList.compare_edges_desc (EdgeList.extract_edges W n)) n) in
  joins_components G ∧
  (length G ≤ n - 1)%nat ∧
  ((2 ≤ n)%nat → ∀ x, (x < n)%nat → ∃ p, p ∈ G ∧ (x = p.1 ∨ x = p.2)).
Proof.
  intros Hs G.
  pose proof (sorted_extract_range qsort W n Hs) as Hrange.
  set (edges := qsort EdgeList.compare_edges_desc (EdgeList.extract_edges W n)) in *.
  destruct (tree_phase_inv edges n Hrange)
    as [(Hk & Hcomp & Hlen & _ & _ & Hflag & Hjoin & Hdone & Hcount) Hexit].
  fold G in Hflag, Hjoin, Hcount.
  split_and!; [done| |].
  - pose proof (flagged_le_length
      (Incremental.node_connected (Incremental.tree_phase edges n))) as Hle.
    destruct Hcount as [->|Hcount]; simpl; lia.
  - intros Hn x Hx.
    assert (Incremental.t_k (Incremental.tree_phase edges n) = length edges) as Hall.
    { apply andb_false_iff in Hexit as [Hexit|Hexit];
        apply bool_decide_eq_false in Hexit; lia. }
    rewrite Hall, firstn_all in Hdone. rewrite Forall_forall in Hdone.
    apply Hflag; [done|].
    assert (∀ a b, (a < b < n)%nat → EdgeList.mkEdge a b (W a b) ∈ edges) as Hin.
    { intros a b Hab. unfold edges.
      destruct (Hs (EdgeList.extract_edges W n)) as [Hp _]. rewrite Hp.
      unfold EdgeList.extract_edges. apply list_elem_of_fmap. exists (a, b).
      split; [done|]. by apply elem_of_upper_pairs. }
    destruct (decide (x = 0)%nat) as [->|Hx0].
    + apply (Hdone _ (Hin 0 1 ltac:(lia)))%nat.
    + apply (Hdone _ (Hin 0 x ltac:(lia)))%nat.
Qed.

Lemma tree_phase_covers_nodes_witness :
  joins_components
    (Incremental.t_pmfg
       (Incremental.tree_phase
          (Example4.qsort4 EdgeList.compare_edges_desc
             (EdgeList.extract_edges Example4.W4 4)) 4)).
Proof.
  exact (proj1 (tree_phase_covers_nodes Example4.qsort4 Example4.W4 4
                  Example4.qsort4_sorts)).
Defined.

(** ** [unnamed/part_000]: [create_pmfg_incremental] as a whole *)

Lemma unordered_ordered_pairs (G : list (nat * nat)) :
  (∀ p, p ∈ G → (p.1 < p.2)%nat) → unordered <$> G = G.
Proof.
  intros Hlt. rewrite <-(list_fmap_id G) at 2. apply list_fmap_ext.
  intros idx p Hin. apply list_elem_of_lookup_2 in Hin. specialize (Hlt p Hin).
  unfold unordered. case_decide; [done|]. exfalso; lia.
Qed.

Section saturate_invariant.
Import EdgeList Incremental.
Variable supportEdge : list (nat * nat) → nat → nat → SpqrOnly.call bool.
Variable edges : list Edge.
Variable n : nat.
Variable G0 : list (nat * nat).
Hypothesis edges_in_range : Forall (λ e, (i e < j e < n)%nat) edges.
Hypothesis G0_NoDup : NoDup G0.
Hypothesis G0_in_range : ∀ p, p ∈ G0 → (p.1 < p.2 < n)%nat.

(** What phase 2 keeps true, started on the graph [G0] of phase 1. *)
Definition sat_inv (s : sat_state) : Prop :=
  (∃ extra, pmfg (s_loop s) = G0 ++ extra) ∧
  NoDup (pmfg (s_loop s)) ∧
  (∀ p, p ∈ pmfg (s_loop s) → (p.1 < p.2 < n)%nat) ∧
  added_edges (s_loop s) = numberOfEdges (pmfg (s_loop s)) ∧
  added_edges (s_loop s) ≤ numberOfEdges G0 `max` max_edges n.

Lemma sat_inv_init : sat_inv (SatState (LoopState 0 (numberOfEdges G0) G0) false).
Proof using G0_NoDup G0_in_range.
  split_and!; simpl; [|done..|lia]. exists []. by rewrite app_nil_r.
Qed.

Lemma sat_inv_body s :
  sat_inv s → sat_cond edges n s = true → sat_inv (sat_body supportEdge edges s).
Proof using edges_in_range.
  intros ([extra Hextra] & Hnd & Hrange & Hadd & Hmax) Hcond.
  apply andb_true_iff in Hcond as [_ Hcond].
  apply andb_true_iff in Hcond as [Hk Hlt]. apply bool_decide_eq_true in Hk, Hlt.
  unfold sat_body.
  destruct (lookup_lt_is_Some_2 edges _ Hk) as [e He]. rewrite He.
  assert (i e < j e < n)%nat as Hij.
  { rewrite Forall_forall in edges_in_range. apply edges_in_range.
    by eapply list_elem_of_lookup_2. }
  assert (sat_inv (SatState (LoopState (S (k (s_loop s))) (added_edges (s_loop s))
                               (pmfg (s_loop s))) false)) as Hsame.
  { split_and!; simpl; [by exists extra|done..]. }
  destruct (edge_exists _ _ _) eqn:Hexists; [done|].
  destruct (supportEdge _ _ _) as [[]|]; [|done|].
  - split_and!; simpl.
    + exists (extra ++ [(i e, j e)]). by rewrite Hextra, app_assoc.
    + apply NoDup_app. split_and!; [done| |apply NoDup_singleton].
      intros p Hp Hp'%list_elem_of_singleton. subst p.
      apply not_true_iff_false in Hexists. apply Hexists, edge_exists_spec. by left.
    + intros p [Hp|Hp%list_elem_of_singleton]%elem_of_app; [by apply Hrange|by subst p].
    + unfold numberOfEdges in *. rewrite length_app. simpl. lia.
    + lia.
  - split_and!; simpl; [by exists extra|done..].
Qed.

Lemma saturate_phase_inv (t : tree_state) :
  t_pmfg t = G0 → t_added_edges t = numberOfEdges G0 →
  sat_inv (saturate_phase supportEdge edges n t).
Proof using edges_in_range G0_NoDup G0_in_range.
  intros Hg Ha. unfold saturate_phase. rewrite Hg, Ha.
  apply (loop_reach_invariant (sat_cond edges n) (sat_body supportEdge edges) sat_inv
           (SatState (LoopState 0 (numberOfEdges G0) G0) false)).
  - apply sat_inv_init.
  - apply sat_inv_body.
  - apply run_loop_reach.
Qed.
End saturate_invariant.

(** X9.  When [create_pmfg_incremental] ([unnamed/part_000]) returns, for
    any matrix and any oracle, its graph begins with the edges of phase 1
    in their order (phase 2 removes none), every edge joins [i < j < n],
    no pair is joined twice although phase 2 goes through the candidates
    a second time, and from three nodes on there are at most [3n - 6]
    edges. *)
Theorem incremental_graph_simple
    (supportEdge : list (nat * nat) → nat → nat → SpqrOnly.call bool)
    (qsort : (EdgeList.Edge → EdgeList.Edge → Z) → list EdgeList.Edge → list EdgeList.Edge)
    (W : Matrix) (n : nat) (G : list (nat * nat)) :
  sorts EdgeList.desc_le (qsort EdgeList.compare_edges_desc) →
  Incremental.create_pmfg_incremental supportEdge qsort W n = SpqrOnly.Returned G →
  (∃ extra,
     G = Incremental.t_pmfg
           (Incremental.tree_phase
              (qsort EdgeList.compare_edges_desc (EdgeList.extract_edges W n)) n)
         ++ extra) ∧
  (∀ p, p ∈ G → (p.1 < p.2 < n)%nat) ∧
  no_self_loops G ∧ no_duplicate_edges G ∧
  ((3 ≤ n)%nat → numberOfEdges G ≤ 3 * Z.of_nat n - 6).
Proof.
  intros Hs HG. unfold Incremental.create_pmfg_incremental in HG.
  pose proof (sorted_extract_range qsort W n Hs) as Hrange.
  set (edges := qsort EdgeList.compare_edges_desc (EdgeList.extract_edges W n)) in *.
  destruct (tree_phase_inv edges n Hrange)
    as [(_ & _ & _ & Hadd & Hsub & _ & _ & _ & Hcount) _].
  set (t := Incremental.tree_phase edges n) in *.
  assert (edges ≡ₚ EdgeList.extract_edges W n) as Hperm by apply Hs.
  destruct (EdgeList.sublist_candidates_simple _ _ W n _ Hperm Hsub)
    as (_ & Hdup0 & Hrange0).
  assert (NoDup (Incremental.t_pmfg t)) as Hnd0.
  { unfold no_duplicate_edges in Hdup0.
    rewrite unordered_ordered_pairs in Hdup0; [done|].
    intros p Hp. specialize (Hrange0 p Hp). lia. }
  destruct (saturate_phase_inv supportEdge edges n (Incremental.t_pmfg t) Hrange
              Hnd0 Hrange0 t eq_refl Hadd) as (Hpre & Hnd & Hin & Hcnt & Hmax).
  destruct (Incremental.s_thrown _); [done|]. injection HG as <-.
  split_and!; [done|done| | |].
  - intros u v Huv. specialize (Hin _ Huv). simpl in Hin. lia.
  - unfold no_duplicate_edges. rewrite unordered_ordered_pairs; [done|].
    intros p Hp. specialize (Hin p Hp). lia.
  - intros Hn. rewrite <-Hcnt.
    pose proof (flagged_le_length (Incremental.node_connected t)) as Hle.
    assert (length (Incremental.node_connected t) = n) as Hlen.
    { by destruct (tree_phase_inv edges n Hrange) as [(_ & _ & ? & _) _]. }
    unfold Incremental.max_edges, numberOfEdges in *.
    destruct Hcount as [Hnil|Hcount]; [rewrite Hnil in Hmax; simpl in Hmax|]; lia.
Qed.

Lemma incremental_graph_simple_witness :
  no_duplicate_edges Example4.K4.
Proof.
  assert (Incremental.create_pmfg_incremental Example4.supportEdge4 Example4.qsort4
            Example4.W4 4 = SpqrOnly.Returned Example4.K4) as HK4 by (by vm_compute).
  exact (proj1 (proj2 (proj2 (proj2
    (incremental_graph_simple Example4.supportEdge4 Example4.qsort4 Example4.W4 4
       Example4.K4 Example4.qsort4_sorts HK4))))).
Defined.

(** X24.  For every matrix on two nodes [create_pmfg_incremental]
    ([unnamed/part_000]) returns the graph with the edge [(0, 1)]: phase 1
    commits it without looking at the budget [3 * 2 - 6], which is [0], so
    the graph has more edges than the budget. *)
Theorem incremental_two_nodes
    (supportEdge : list (nat * nat) → nat → nat → SpqrOnly.call bool)
    (qsort : (EdgeList.Edge → EdgeList.Edge → Z) → list EdgeList.Edge → list EdgeList.Edge)
    (W : Matrix) :
  sorts EdgeList.desc_le (qsort EdgeList.compare_edges_desc) →
  Incremental.create_pmfg_incremental supportEdge qsort W 2
    = SpqrOnly.Returned [(0, 1)%nat].
Proof.
  intros Hs. unfold Incremental.create_pmfg_incremental.
  assert (qsort EdgeList.compare_edges_desc (EdgeList.extract_edges W 2)
          = [EdgeList.mkEdge 0 1 (W 0 1)%nat]) as ->.
  { destruct (Hs (EdgeList.extract_edges W 2)) as [Hperm _].
    by apply Permutation_singleton_r in Hperm. }
  by vm_compute.
Qed.

Lemma incremental_two_nodes_witness :
  Incremental.create_pmfg_incremental Example4.supportEdge4 Example4.qsort4 Example4.W4 2
    = SpqrOnly.Returned [(0, 1)%nat].
Proof.
  exact (incremental_two_nodes Example4.supportEdge4 Example4.qsort4 Example4.W4
           Example4.qsort4_sorts).
Defined.

(** ** [print_pmfg_stats] within the budget *)

Lemma Qc_ratio_bounds (a b : Qc) :
  (0 < b)%Qc → (0 ≤ a)%Qc → (a ≤ b)%Qc → (0 ≤ a / b)%Qc ∧ (a / b ≤ 1)%Qc.
Proof.
  intros Hb Ha Hab.
  assert (b ≠ 0%Qc) as Hne by (intros ->; by destruct (Qclt_not_eq _ _ Hb)).
  assert ((a / b) * b = a)%Qc as Hmul by (by rewrite Qcmult_comm, Qcmult_div_r).
  split; apply (Qcmult_lt_0_le_reg_r _ _ b Hb).
  - by rewrite Qcmult_0_l, Hmul.
  - by rewrite Hmul, Qcmult_1_l.
Qed.

(** A graph on [n >= 3] nodes with at most [3n - 6] edges: both
    divisions of [print_pmfg_stats] are divisions of numbers, the
    utilization is a percentage between 0 and 100 and the density lies
    between 0 and 1. *)
Lemma stats_in_range (G : list (nat * nat)) (n : nat) :
  (3 ≤ n)%nat → numberOfEdges G ≤ 3 * Z.of_nat n - 6 →
  ∃ u d : Qc,
    Stats.print_pmfg_stats_c G n = Stats.Stats (Stats.Finite u) (Stats.Finite d) ∧
    Stats.print_pmfg_stats_spqr G n = Stats.Stats (Stats.Finite u) (Stats.Finite d) ∧
    (0 ≤ u)%Qc ∧ (u ≤ Qc_of_Z 100)%Qc ∧ (0 ≤ d)%Qc ∧ (d ≤ 1)%Qc.
Proof.
  intros Hn Hbudget.
  assert (Stats.max_planar_edges_c n = 3 * Z.of_nat n - 6) as Hc
    by (unfold Stats.max_planar_edges_c; lia).
  assert (0 ≤ numberOfEdges G) as Hpos by (unfold numberOfEdges; lia).
  remember (numberOfEdges G) as e eqn:Hedef.
  remember (3 * Z.of_nat n - 6) as m eqn:Hmdef.
  assert (0 < Qc_of_Z m)%Qc as Hm by (rewrite <-Z2Qc_inj_0; apply (proj1 (Z2Qc_inj_lt _ _)); lia).
  assert (0 ≤ Qc_of_Z e)%Qc as He by (rewrite <-Z2Qc_inj_0; apply (proj1 (Z2Qc_inj_le _ _)); lia).
  assert (Qc_of_Z m ≠ 0%Qc) as Hm0 by (intros Heq; rewrite Heq in Hm; by destruct (Qclt_not_eq _ _ Hm)).
  destruct (Qc_ratio_bounds (Qc_of_Z e) (Qc_of_Z m) Hm He) as [Hu0 Hu1];
    [by apply (proj1 (Z2Qc_inj_le _ _))|].
  (* the density divisor *)
  set (N := Z.of_nat n * (Z.of_nat n - 1)).
  assert (Qc_of_Z 2 ≠ 0%Qc) as H2 by (rewrite <-Z2Qc_inj_0; by intros ?%Z2Qc_inj).
  assert (0 < Qc_of_Z 2)%Qc as H2pos by (rewrite <-Z2Qc_inj_0; by apply (proj1 (Z2Qc_inj_lt _ _))).
  assert ((Stats.density_divisor n * Qc_of_Z 2)%Qc = Qc_of_Z N) as Hhalf.
  { unfold Stats.density_divisor. fold N. by rewrite Qcmult_comm, Qcmult_div_r. }
  assert (0 < Stats.density_divisor n)%Qc as Hd.
  { destruct (Qclt_le_dec 0 (Stats.density_divisor n)) as [?|Hle]; [done|exfalso].
    apply (Qcmult_le_compat_r _ _ (Qc_of_Z 2)) in Hle; [|by apply Qclt_le_weak].
    rewrite Hhalf, Qcmult_0_l, <-Z2Qc_inj_0 in Hle. apply (proj2 (Z2Qc_inj_le _ _)) in Hle.
    unfold N in Hle. nia. }
  assert (Qc_of_Z e ≤ Stats.density_divisor n)%Qc as Hed.
  { apply (Qcmult_lt_0_le_reg_r _ _ (Qc_of_Z 2) H2pos).
    rewrite Hhalf, <-Z2Qc_inj_mul. apply (proj1 (Z2Qc_inj_le _ _)). unfold N.
    destruct (decide (n = 3%nat)) as [->|]; [lia|]. nia. }
  assert (Stats.density_divisor n ≠ 0%Qc) as Hd0
    by (intros Heq; rewrite Heq in Hd; by destruct (Qclt_not_eq _ _ Hd)).
  destruct (Qc_ratio_bounds (Qc_of_Z e) (Stats.density_divisor n) Hd He Hed) as [Hd0' Hd1].
  exists (Qc_of_Z e / Qc_of_Z m * Qc_of_Z 100)%Qc, (Qc_of_Z e / Stats.density_divisor n)%Qc.
  assert (0 ≤ Qc_of_Z 100)%Qc as H100 by (rewrite <-Z2Qc_inj_0; by apply (proj1 (Z2Qc_inj_le _ _))).
  split_and!; [| |by apply Qcmult_nonneg_nonneg| |done|done].
  - unfold Stats.print_pmfg_stats_c, Stats.print_pmfg_stats_with. rewrite Hc.
    cbv zeta. rewrite <-Hedef. unfold Stats.fdiv. by rewrite !decide_False.
  - unfold Stats.print_pmfg_stats_spqr, Stats.print_pmfg_stats_with,
      Stats.max_planar_edges_spqr. cbv zeta. rewrite <-Hedef, <-Hmdef.
    unfold Stats.fdiv. by rewrite !decide_False.
  - rewrite <-(Qcmult_1_l (Qc_of_Z 100)) at 2. by apply Qcmult_le_compat_r.
Qed.

(** [main] of [teste.c] and of [unnamed/part_000], from the point where
    [read_csv_matrix] has returned the matrix and [n]: the construction,
    then [print_pmfg_stats] on its graph. *)
Definition main_c (isPlanar : Graph → bool)
    (qsort : (EdgeList.Edge → EdgeList.Edge → Z) → list EdgeList.Edge → list EdgeList.Edge)
    (W : Matrix) (n : nat) : Stats.stats :=
  let pmfg := TesteC.create_pmfg isPlanar qsort W n in
  Stats.print_pmfg_stats_c pmfg n.

Definition main_spqr (supportEdge : Graph → node → node → SpqrOnly.call bool)
    (qsort : (EdgeList.Edge → EdgeList.Edge → Z) → list EdgeList.Edge → list EdgeList.Edge)
    (W : Matrix) (n : nat) : Stats.stats :=
  let pmfg := SpqrOnly.create_pmfg_spqr_only supportEdge qsort W n in
  Stats.print_pmfg_stats_spqr pmfg n.

(** X10.  For every matrix of [n >= 3] nodes and whatever the planarity
    oracle answers, the statistics that [main] prints after the
    construction ([teste.c], [unnamed/part_000]) are numbers: the
    utilization is a percentage between 0 and 100 and the density lies
    between 0 and 1, because the construction stays within the budget that
    [print_pmfg_stats] divides by. *)
Theorem main_stats_in_range
    (isPlanar : list (nat * nat) → bool)
    (supportEdge : list (nat * nat) → nat → nat → SpqrOnly.call bool)
    (qsort : (EdgeList.Edge → EdgeList.Edge → Z) → list EdgeList.Edge → list EdgeList.Edge)
    (W : Matrix) (n : nat) :
  sorts EdgeList.desc_le (qsort EdgeList.compare_edges_desc) → (3 ≤ n)%nat →
  ∀ st, st = main_c isPlanar qsort W n ∨ st = main_spqr supportEdge qsort W n →
  ∃ u d : Qc,
    st = Stats.Stats (Stats.Finite u) (Stats.Finite d) ∧
    (0 ≤ u)%Qc ∧ (u ≤ Qc_of_Z 100)%Qc ∧ (0 ≤ d)%Qc ∧ (d ≤ 1)%Qc.
Proof.
  intros Hsorts Hn st Hst.
  assert (qsort EdgeList.compare_edges_desc (EdgeList.extract_edges W n)
          ≡ₚ EdgeList.extract_edges W n) as Hperm by apply Hsorts.
  assert (numberOfEdges (TesteC.create_pmfg isPlanar qsort W n) ≤ 3 * Z.of_nat n - 6) as Hc.
  { unfold TesteC.create_pmfg. rewrite TesteC.create_pmfg_loop_greedy.
    assert (0 ≤ TesteC.max_edges n) as Hpos by (unfold TesteC.max_edges; lia).
    set (s := run_loop _ _ _ _).
    assert ((True ∧ no_duplicate_edges (EdgeList.pmfg s) ∧ no_self_loops (EdgeList.pmfg s) ∧
             numberOfEdges (EdgeList.pmfg s) ≤ TesteC.max_edges n) ∧
            EdgeList.added_edges s = numberOfEdges (EdgeList.pmfg s))
      as [(_ & _ & _ & Hb) _].
    { apply (greedy_working_graph (TesteC.accepts isPlanar) _ _ W n (λ _, True) s Hperm I
               (λ _ _ _ _ _, I) Hpos), run_loop_reach. }
    unfold TesteC.max_edges in Hb. lia. }
  assert (numberOfEdges (SpqrOnly.create_pmfg_spqr_only supportEdge qsort W n)
          ≤ 3 * Z.of_nat n - 6) as Hs.
  { unfold SpqrOnly.create_pmfg_spqr_only.
    rewrite SpqrOnly.create_pmfg_spqr_only_loop_greedy.
    assert (0 ≤ SpqrOnly.max_edges n) as Hpos by (unfold SpqrOnly.max_edges; lia).
    set (s := run_loop _ _ _ _).
    assert ((True ∧ no_duplicate_edges (EdgeList.pmfg s) ∧ no_self_loops (EdgeList.pmfg s) ∧
             numberOfEdges (EdgeList.pmfg s) ≤ SpqrOnly.max_edges n) ∧
            EdgeList.added_edges s = numberOfEdges (EdgeList.pmfg s))
      as [(_ & _ & _ & Hb) _].
    { apply (greedy_working_graph (SpqrOnly.accepts supportEdge) _ _ W n (λ _, True) s Hperm I
               (λ _ _ _ _ _, I) Hpos), run_loop_reach. }
    unfold SpqrOnly.max_edges in Hb. lia. }
  destruct Hst as [-> | ->]; unfold main_c, main_spqr; cbv zeta.
  - destruct (stats_in_range _ n Hn Hc) as (u & d & Hstat & _ & Hrange).
    by exists u, d.
  - destruct (stats_in_range _ n Hn Hs) as (u & d & _ & Hstat & Hrange).
    by exists u, d.
Qed.

Lemma main_stats_in_range_witness :
  ∃ u d : Qc,
    main_c Example4.isPlanar4 Example4.qsort4 Example4.W4 4
      = Stats.Stats (Stats.Finite u) (Stats.Finite d) ∧
    (0 ≤ u)%Qc ∧ (u ≤ Qc_of_Z 100)%Qc ∧ (0 ≤ d)%Qc ∧ (d ≤ 1)%Qc.
Proof.
  assert (3 ≤ 4)%nat as Hn by lia.
  exact (main_stats_in_range Example4.isPlanar4 Example4.supportEdge4 Example4.qsort4
           Example4.W4 4 Example4.qsort4_sorts Hn _ (or_introl eq_refl)).
Defined.

(** ** The edge reader of [unnamed/part_001] *)

Lemma push_perm (e : TopK.Edge) (q : list TopK.Edge) : TopK.push e q ≡ₚ e :: q.
Proof.
  induction q as [|x q IH]; simpl; [done|].
  destruct (decide _); [done|]. rewrite IH. apply Permutation_swap.
Qed.

Lemma push_length (e : TopK.Edge) (q : list TopK.Edge) :
  length (TopK.push e q) = S (length q).
Proof. by rewrite push_perm. Qed.

(** The queue keeps its heaviest element first. *)
Definition heaviest_first (q : list TopK.Edge) : Prop :=
  StronglySorted (λ a b, (TopK.weight b ≤ TopK.weight a)%Qc) q.

Lemma push_heaviest_first (e : TopK.Edge) (q : list TopK.Edge) :
  heaviest_first q → heaviest_first (TopK.push e q).
Proof.
  unfold heaviest_first. induction 1 as [|x q Hq IH Hx]; simpl.
  { repeat constructor. }
  destruct (decide _) as [Hlt|Hge].
  - constructor; [by constructor|]. constructor; [by apply Qclt_le_weak|].
    eapply Forall_impl; [done|]. intros y Hy; simpl in Hy.
    eapply Qcle_trans; [done|]. by apply Qclt_le_weak.
  - constructor; [done|]. rewrite push_perm. constructor; [|done].
    by apply Qcnot_lt_le.
Qed.

Lemma pop_heaviest_first (q : list TopK.Edge) :
  heaviest_first q → heaviest_first (TopK.pop q).
Proof. destruct 1; simpl; [constructor|done]. Qed.

(** What one offered edge does to the queue. *)
Lemma offer_spec (B : Z) (q q' : list TopK.Edge) (e : TopK.Edge) (P : TopK.Edge → Prop) :
  TopK.offer B q e = Some q' → heaviest_first q → Forall P q → P e →
  Z.of_nat (length q) ≤ Z.max B 0 →
  heaviest_first q' ∧ Forall P q' ∧ Z.of_nat (length q') ≤ Z.max B 0.
Proof.
  unfold TopK.offer. intros Hoffer Hsorted HP He Hlen.
  destruct (decide _) as [Hroom|Hfull]; simplify_eq.
  { split_and!; [by apply push_heaviest_first|by rewrite push_perm; constructor|].
    rewrite push_length. lia. }
  destruct q as [|t q]; simplify_eq/=.
  destruct (decide _); simplify_eq; [|done].
  apply Forall_cons in HP as [_ HP].
  split_and!; [by apply push_heaviest_first, (pop_heaviest_first (t :: q))
              |by rewrite push_perm; constructor|].
  rewrite push_length. simpl in Hlen. lia.
Qed.

Lemma offer_is_Some (B : Z) (q : list TopK.Edge) (e : TopK.Edge) :
  0 < B → is_Some (TopK.offer B q e).
Proof.
  intros HB. unfold TopK.offer. destruct (decide _) as [|Hfull]; [done|].
  destruct q as [|t q]; simpl in *; [lia|]. by destruct (decide _).
Qed.

Lemma scan_cells_spec (B : Z) (row : nat) (P : TopK.Edge → Prop) (cells : list TopK.cell) :
  ∀ (col : nat) (q q' : list TopK.Edge),
  TopK.scan_cells B row col cells q = Some q' →
  (∀ k w, cells !! k = Some (TopK.Number w) → (row < col + k)%nat →
     P (TopK.mkEdge row (col + k) w)) →
  heaviest_first q → Forall P q → Z.of_nat (length q) ≤ Z.max B 0 →
  heaviest_first q' ∧ Forall P q' ∧ Z.of_nat (length q') ≤ Z.max B 0.
Proof.
  induction cells as [|c cells IH]; intros col q q' Hscan Hcells Hs HP Hlen;
    simplify_eq/=; [done|].
  apply bind_Some in Hscan as (q1 & Hstep & Hscan).
  assert (heaviest_first q1 ∧ Forall P q1 ∧ Z.of_nat (length q1) ≤ Z.max B 0)
    as (Hs1 & HP1 & Hlen1).
  { destruct (decide _) as [Hupper|]; [|by simplify_eq].
    destruct c as [w|]; [|by simplify_eq].
    eapply offer_spec; [done..| |done].
    specialize (Hcells 0%nat w eq_refl). rewrite Nat.add_0_r in Hcells. by apply Hcells. }
  eapply IH; [done| |done..].
  intros k w Hk Hlt. specialize (Hcells (S k) w Hk).
  rewrite Nat.add_succ_r in Hcells. apply Hcells. simpl in Hlt. lia.
Qed.

Lemma scan_rows_spec (B : Z) (n : nat) (P : TopK.Edge → Prop) (rows : list (list TopK.cell)) :
  ∀ (row : nat) (q q' : list TopK.Edge),
  TopK.scan_rows B n row rows q = Some q' →
  (∀ r cells c w, rows !! r = Some cells → cells !! c = Some (TopK.Number w) →
     (row + r < c < n)%nat → P (TopK.mkEdge (row + r) c w)) →
  heaviest_first q → Forall P q → Z.of_nat (length q) ≤ Z.max B 0 →
  heaviest_first q' ∧ Forall P q' ∧ Z.of_nat (length q') ≤ Z.max B 0.
Proof.
  induction rows as [|cells rows IH]; intros row q q' Hscan Hrows Hs HP Hlen;
    simplify_eq/=; [done|].
  apply bind_Some in Hscan as (q1 & Hstep & Hscan).
  eapply (scan_cells_spec B row P) in Hstep as (Hs1 & HP1 & Hlen1); [|
    |done..].
  - eapply IH; [done| |done..].
    intros r cells' c w Hr Hc Hlt. specialize (Hrows (S r) cells' c w Hr Hc).
    rewrite Nat.add_succ_r in Hrows. apply Hrows. simpl in Hlt. lia.
  - intros k w Hk Hlt. apply lookup_take_Some in Hk as [Hk Hkn].
    specialize (Hrows 0%nat cells k w eq_refl Hk).
    rewrite Nat.add_0_r in Hrows. simpl. apply Hrows. lia.
Qed.

(** X11.  Whatever the matrix file holds, the vector that the reader of
    [unnamed/part_001] hands to the construction is in non-decreasing
    order of weight (weakest first, although the comment on the
    [reverse] says strongest first), has at most [bufferSize] entries, and
    every entry is a numeric cell [(row, col)] of the file with
    [row < col < n], carrying that cell's value. *)
Theorem candidate_edges_weakest_first (n : nat) (rows : list (list TopK.cell))
    (edges : list TopK.Edge) :
  TopK.candidate_edges n rows = Some edges →
  StronglySorted (λ a b, (TopK.weight a ≤ TopK.weight b)%Qc) edges ∧
  Z.of_nat (length edges) ≤ Z.max (TopK.bufferSize n) 0 ∧
  Forall (λ e, (TopK.source e < TopK.dest e < n)%nat ∧
               ∃ cells, rows !! TopK.source e = Some cells ∧
                        cells !! TopK.dest e = Some (TopK.Number (TopK.weight e))) edges.
Proof.
  unfold TopK.candidate_edges, TopK.read_top_edges, TopK.drain. intros Hread.
  destruct (TopK.scan_rows _ _ _ _ _) as [q|] eqn:Hscan; simplify_eq/=.
  eapply (scan_rows_spec _ _ (λ e, (TopK.source e < TopK.dest e < n)%nat ∧
      ∃ cells, rows !! TopK.source e = Some cells ∧
               cells !! TopK.dest e = Some (TopK.Number (TopK.weight e))))
    in Hscan as (Hs & HP & Hlen); [| |constructor|constructor|simpl; lia].
  - split_and!.
    + apply StronglySorted_reverse in Hs. eapply StronglySorted_mono; [|done]. done.
    + by rewrite length_reverse.
    + by rewrite Forall_reverse.
  - intros r cells c w Hr Hc Hlt. simpl in *. split; [done|].
    apply lookup_take_Some in Hr as [Hr _]. by exists cells.
Qed.

Lemma candidate_edges_weakest_first_witness :
  ∃ edges, TopK.candidate_edges 3 TopKExample.rows3 = Some edges ∧
    TopK.endpoints <$> edges = [(1, 2); (0, 2); (0, 1)]%nat ∧
    StronglySorted (λ a b, (TopK.weight a ≤ TopK.weight b)%Qc) edges.
Proof.
  destruct (TopK.candidate_edges 3 TopKExample.rows3) as [edges|] eqn:Hread;
    [|by vm_compute in Hread].
  exists edges. split; [done|]. split.
  - vm_compute in Hread. by simplify_eq.
  - exact (proj1 (candidate_edges_weakest_first 3 TopKExample.rows3 edges Hread)).
Defined.

Lemma scan_cells_is_Some (B : Z) (row : nat) (cells : list TopK.cell) :
  0 < B → ∀ (col : nat) (q : list TopK.Edge), is_Some (TopK.scan_cells B row col cells q).
Proof.
  intros HB. induction cells as [|c cells IH]; intros col q; simpl; [done|].
  destruct (decide _); [destruct c as [w|]|]; simpl; [|done..].
  destruct (offer_is_Some B q (TopK.mkEdge row col w) HB) as [q1 ->]. apply IH.
Qed.

Lemma scan_rows_is_Some (B : Z) (n : nat) (rows : list (list TopK.cell)) :
  0 < B → ∀ (row : nat) (q : list TopK.Edge), is_Some (TopK.scan_rows B n row rows q).
Proof.
  intros HB. induction rows as [|cells rows IH]; intros row q; simpl; [done|].
  destruct (scan_cells_is_Some B row (take n cells) HB 0%nat q) as [q1 ->]. apply IH.
Qed.

(** Below the diagonal nothing is offered. *)
Lemma scan_cells_lower (B : Z) (row : nat) (cells : list TopK.cell) :
  ∀ (col : nat) (q : list TopK.Edge),
  (col + length cells ≤ S row)%nat → TopK.scan_cells B row col cells q = Some q.
Proof.
  induction cells as [|c cells IH]; intros col q Hlen; simpl in *; [done|].
  rewrite decide_False by lia. simpl. apply IH. lia.
Qed.

Lemma scan_rows_lower (B : Z) (n : nat) (rows : list (list TopK.cell)) :
  ∀ (row : nat) (q : list TopK.Edge),
  (n ≤ S row)%nat → TopK.scan_rows B n row rows q = Some q.
Proof.
  induction rows as [|cells rows IH]; intros row q Hn; simpl; [done|].
  rewrite scan_cells_lower by (rewrite length_take; lia). simpl. apply IH. lia.
Qed.

(** X12.  The reader of [unnamed/part_001] calls [top()] on an empty queue
    exactly when the header names two nodes and the first data line has a
    number in its second column: the buffer size is then [0], so the first
    edge goes to the comparison with [topEdges.top()].  For every other
    input, and in particular for every [n >= 3], the reader returns. *)
Theorem read_top_edges_undefined (n : nat) (rows : list (list TopK.cell)) :
  TopK.read_top_edges n rows = None ↔
  n = 2%nat ∧ ∃ w, rows !! 0%nat ≫= (.!! 1%nat) = Some (TopK.Number w).
Proof.
  unfold TopK.read_top_edges. split.
  - intros Hnone. destruct (decide (n = 2%nat)) as [->|Hn].
    + split; [done|]. destruct rows as [|[|c0 [|[w|] cells]] rows]; simplify_eq/=.
      * by rewrite scan_rows_lower in Hnone by lia.
      * by rewrite scan_rows_lower in Hnone by lia.
      * by exists w.
      * by rewrite scan_rows_lower in Hnone by lia.
    + exfalso. destruct (decide (n ≤ 1)%nat).
      * by rewrite scan_rows_lower in Hnone by lia.
      * destruct (scan_rows_is_Some (TopK.bufferSize n) n (take n rows)) with (row := 0%nat)
          (q := @nil TopK.Edge) as [q Hq]; [|congruence].
        unfold TopK.bufferSize, TopK.maxEdges. lia.
  - intros [-> [w Hw]]. destruct rows as [|[|c0 [|c1 cells]] rows]; simplify_eq/=. done.
Qed.

(** ** [CSVEdgeListReader] of [teste3.cpp] *)

Module CSVEdgeListReader.
(** A [std::string] is the list of its characters. *)

(** The characters of [" \t\r\n"]. *)
Definition whitespace (c : ascii) : bool :=
  bool_decide (c ∈ [" "; "009"; "013"; "010"]%char).

(** [str.find_first_not_of(" \t\r\n")]; [None] is [npos]. *)
Fixpoint find_first_not_of (str : list ascii) : option nat :=
  match str with
  | [] => None
  | c :: str' => if whitespace c then S <$> find_first_not_of str' else Some 0%nat
  end.

(** [str.find_last_not_of(" \t\r\n")] *)
Fixpoint find_last_not_of (str : list ascii) : option nat :=
  match str with
  | [] => None
  | c :: str' =>
      match find_last_not_of str' with
      | Some i => Some (S i)
      | None => if whitespace c then None else Some 0%nat
      end
  end.

(** [str.substr(pos, len)] for [pos <= str.size()]: the characters from
    [pos] on, [len] of them or as many as there are. *)
Definition substr (str : list ascii) (pos len : nat) : list ascii :=
  take len (drop pos str).

(** [trim].  With [last == npos] the length [last - first + 1] wraps to
    [-first], which reaches past the end of the string. *)
Definition trim (str : list ascii) : list ascii :=
  match find_first_not_of str with
  | None => []
  | Some first =>
      match find_last_not_of str with
      | Some last => substr str first (last - first + 1)
      | None => drop first str
      end
  end.

(** [::tolower] in the C locale. *)
Definition tolower (c : ascii) : ascii :=
  let n := nat_of_ascii c in
  if decide (65 ≤ n ≤ 90)%nat then ascii_of_nat (n + 32) else c.

Fixpoint starts_with (pat str : list ascii) : bool :=
  match pat, str with
  | [], _ => true
  | p :: pat', c :: str' => bool_decide (p = c) && starts_with pat' str'
  | _ :: _, [] => false
  end.

(** [str.find(pat) != std::string::npos] *)
Fixpoint contains (str pat : list ascii) : bool :=
  starts_with pat str ||
  match str with
  | [] => false
  | _ :: str' => contains str' pat
  end.

Definition isHeaderLine (line : list ascii) : bool :=
  let lowerLine := tolower <$> line in
  contains lowerLine ["s"; "o"; "u"; "r"; "c"; "e"]%char ||
  contains lowerLine ["f"; "r"; "o"; "m"]%char ||
  contains lowerLine ["n"; "o"; "d"; "e"]%char ||
  contains lowerLine ["t"; "a"; "r"; "g"; "e"; "t"]%char.

(** [while (std::getline(ss, token, ',')) tokens.push_back(trim(token))]
    before the trimming: the pieces between the commas.  [getline] fails
    when it meets the end before any character, so a string that ends in a
    comma has no empty last piece and the empty string has no piece.
    [token] holds the piece being read, last character first. *)
Fixpoint split_from (token : list ascii) (started : bool) (ss : list ascii)
    : list (list ascii) :=
  match ss with
  | [] => if started then [reverse token] else []
  | c :: ss' =>
      if decide (c = ","%char) then reverse token :: split_from [] false ss'
      else split_from (c :: token) true ss'
  end.

Definition split (ss : list ascii) : list (list ascii) := split_from [] false ss.

(** The open file: its lines and the read position. *)
Record ifstream := Ifstream { lines : list (list ascii); pos : nat }.

(** [std::getline(file, line)] *)
Definition getline (file : ifstream) : option (list ascii) * ifstream :=
  match lines file !! pos file with
  | Some line => (Some line, Ifstream (lines file) (S (pos file)))
  | None => (None, file)
  end.

(** [file.seekg(0)] *)
Definition seekg0 (file : ifstream) : ifstream := Ifstream (lines file) 0.

(** The members [edges] and [maxNodeId]. *)
Record reader := Reader { edges : list Teste3.Edge; maxNodeId : Z }.

(** The constructor: no edge, [maxNodeId(-1)]. *)
Definition new_reader : reader := Reader [] (-1).

Section loadEdges.
(** [std::stoi] and [std::stod]: [None] when they throw.  A weight that
    [stod] reads is taken to be a number. *)
Variable stoi : list ascii → option Z.
Variable stod : list ascii → option Qc.

(** The body of the [while] for one line. *)
Definition process_line (r : reader) (line : list ascii) : reader :=
  let tokens := trim <$> split (trim line) in
  match tokens with
  | t0 :: t1 :: t2 :: _ =>
      match stoi t0 with
      | Some source =>
          match stoi t1 with
          | Some target =>
              match stod t2 with
              | Some weight =>
                  if decide (source ≠ target) then
                    Reader (edges r ++ [Teste3.mkEdge source target weight])
                           (Z.max (Z.max (maxNodeId r) source) target)
                  else r
              | None => r
              end
          | None => r
          end
      | None => r
      end
  | _ => r
  end.

(** [while (std::getline(file, line)) { ... }] *)
Definition data_cond (s : ifstream * reader) : bool :=
  bool_decide (is_Some (lines s.1 !! pos s.1)).

Definition data_body (s : ifstream * reader) : ifstream * reader :=
  match getline s.1 with
  | (Some line, file) => (file, process_line s.2 line)
  | (None, file) => (file, s.2)
  end.

Definition data_loop (file : ifstream) (r : reader) : ifstream * reader :=
  run_loop data_cond data_body (length (lines file)) (file, r).

(** [loadEdges] on a fresh reader; [None] is a file that cannot be
    opened.  The result is the value returned and the reader's members. *)
Definition loadEdges (content : option (list (list ascii))) : bool * reader :=
  match content with
  | None => (false, new_reader)
  | Some ls =>
      let file := Ifstream ls 0 in
      let '(skipHeader, file) :=
        match getline file with
        | (Some line, file) =>
            if isHeaderLine line then (true, file) else (false, seekg0 file)
        | (None, file) => (false, file)
        end in
      let finish (file : ifstream) :=
        let r := (data_loop file new_reader).2 in
        (bool_decide (edges r ≠ []), r) in
      if skipHeader then
        match getline file with
        | (Some _, file) => finish file
        | (None, _) => (false, new_reader)
        end
      else finish file
  end.

(** The value an [int] holds after an operation whose exact result is
    [z]: 32 bits, two's complement.  The language leaves the overflow of
    a signed [int] undefined; the compilers the code is built with
    wrap. *)
Definition wrap_int (z : Z) : Z :=
  (z + 2147483648) `mod` 4294967296 - 2147483648.

(** [getNumNodes]: [maxNodeId + 1], in [int]. *)
Definition getNumNodes (r : reader) : Z := wrap_int (maxNodeId r + 1).

(** [PMFGGenerator generator(numNodes)], that is [initializeGraph]:
    [nodeMapping.reserve(numNodes)] takes a negative count for a size
    above [max_size()] and throws [std::length_error]; the nodes and the
    SPQR tree are OGDF's to make, [ogdf_init], which returns or throws. *)
Definition initializeGraph (ogdf_init : Z → SpqrOnly.call unit) (numNodes : Z)
    : SpqrOnly.call unit :=
  if decide (numNodes < 0) then SpqrOnly.Thrown else ogdf_init numNodes.

(** [main]: the exit status and, when it gets there, the graph handed to
    [printPMFGStats].  An exception of the generator's construction is
    caught by the [catch (const std::exception& e)] of [main], which
    returns 1. *)
Definition main (ogdf_init : Z → SpqrOnly.call unit)
    (supportEdge : Graph → node → node → SpqrOnly.call bool)
    (std_sort : list Teste3.Edge → list Teste3.Edge)
    (content : option (list (list ascii))) : Z * option Graph :=
  let '(loaded, reader) := loadEdges content in
  if loaded then
    match initializeGraph ogdf_init (getNumNodes reader) with
    | SpqrOnly.Returned _ =>
        (0, Some (Teste3.main_pmfg supportEdge (getNumNodes reader) std_sort (edges reader)))
    | SpqrOnly.Thrown => (1, None)
    end
  else (1, None).
End loadEdges.
End CSVEdgeListReader.

Lemma find_first_not_of_spec (str : list ascii) :
  match CSVEdgeListReader.find_first_not_of str with
  | None => Forall (λ c, CSVEdgeListReader.whitespace c = true) str
  | Some first =>
      Forall (λ c, CSVEdgeListReader.whitespace c = true) (take first str) ∧
      ∃ c, str !! first = Some c ∧ CSVEdgeListReader.whitespace c = false
  end.
Proof.
  induction str as [|c str IH]; simpl; [constructor|].
  destruct (CSVEdgeListReader.whitespace c) eqn:Hc.
  - destruct (CSVEdgeListReader.find_first_not_of str) as [first|]; simpl.
    + destruct IH as [Hws Hfirst]. split; [by constructor|done].
    + by constructor.
  - split; [constructor|]. by exists c.
Qed.

Lemma find_last_not_of_spec (str : list ascii) :
  match CSVEdgeListReader.find_last_not_of str with
  | None => Forall (λ c, CSVEdgeListReader.whitespace c = true) str
  | Some last =>
      Forall (λ c, CSVEdgeListReader.whitespace c = true) (drop (S last) str) ∧
      ∃ c, str !! last = Some c ∧ CSVEdgeListReader.whitespace c = false
  end.
Proof.
  induction str as [|c str IH]; simpl; [constructor|].
  destruct (CSVEdgeListReader.find_last_not_of str) as [last|]; [done|].
  destruct (CSVEdgeListReader.whitespace c) eqn:Hc.
  - by constructor.
  - rewrite drop_0. split; [done|]. by exists c.
Qed.

(** X13.  [trim] ([teste3.cpp]) removes exactly the blanks, tabs, carriage
    returns and newlines at the two ends: the string is a run of such
    characters, then the result, then another such run, and the result, if
    not empty, neither starts nor ends with one of them. *)
Theorem trim_spec (str : list ascii) :
  ∃ l r, str = l ++ CSVEdgeListReader.trim str ++ r ∧
    Forall (λ c, CSVEdgeListReader.whitespace c = true) l ∧
    Forall (λ c, CSVEdgeListReader.whitespace c = true) r ∧
    (∀ c, head (CSVEdgeListReader.trim str) = Some c → CSVEdgeListReader.whitespace c = false) ∧
    (∀ c, last (CSVEdgeListReader.trim str) = Some c → CSVEdgeListReader.whitespace c = false).
Proof.
  unfold CSVEdgeListReader.trim, CSVEdgeListReader.substr.
  pose proof (find_first_not_of_spec str) as Hfirst.
  pose proof (find_last_not_of_spec str) as Hlast.
  destruct (CSVEdgeListReader.find_first_not_of str) as [first|].
  2:{ exists str, []. rewrite app_nil_r. by split_and!; [done|done|constructor|..]. }
  destruct Hfirst as [Hl (c1 & Hc1 & Hws1)].
  destruct (CSVEdgeListReader.find_last_not_of str) as [last|].
  2:{ rewrite Forall_forall in Hlast. apply list_elem_of_lookup_2 in Hc1.
      specialize (Hlast _ Hc1). congruence. }
  destruct Hlast as [Hr (c2 & Hc2 & Hws2)].
  assert (first ≤ last)%nat as Hle.
  { destruct (decide (first ≤ last)%nat) as [|Hgt]; [done|exfalso].
    rewrite Forall_forall in Hl.
    assert (c2 ∈ take first str) as Hin.
    { apply list_elem_of_lookup. exists last. rewrite lookup_take_lt by lia. done. }
    specialize (Hl _ Hin). congruence. }
  exists (take first str), (drop (S last) str). split_and!; [|done|done|..].
  - rewrite <-(take_drop first str) at 1. f_equal.
    rewrite <-(take_drop (last - first + 1) (drop first str)) at 1. f_equal.
    rewrite drop_drop. f_equal. lia.
  - intros c Hc. rewrite head_lookup, lookup_take_lt, lookup_drop, Nat.add_0_r in Hc by lia.
    congruence.
  - intros c Hc. rewrite last_lookup in Hc.
    assert (last < length str)%nat by (by eapply lookup_lt_Some).
    rewrite length_take, length_drop in Hc.
    replace (Nat.pred ((last - first + 1) `min` (length str - first)))
      with (last - first)%nat in Hc by lia.
    rewrite lookup_take_lt, lookup_drop in Hc by lia.
    replace (first + (last - first))%nat with last in Hc by lia. congruence.
Qed.

Section loadEdges_properties.
Variable stoi : list ascii → option Z.
Variable stod : list ascii → option Qc.

(** The data loop handles the lines from the read position to the end,
    in order. *)
Lemma data_loop_foldl (ls : list (list ascii)) (fuel p : nat) (r : CSVEdgeListReader.reader) :
  (length ls - p ≤ fuel)%nat →
  (run_loop CSVEdgeListReader.data_cond (CSVEdgeListReader.data_body stoi stod) fuel
     (CSVEdgeListReader.Ifstream ls p, r)).2
  = foldl (CSVEdgeListReader.process_line stoi stod) r (drop p ls).
Proof.
  revert p r. induction fuel as [|fuel IH]; intros p r Hfuel; simpl.
  - by rewrite drop_ge by lia.
  - unfold CSVEdgeListReader.data_cond at 1; simpl.
    destruct (ls !! p) as [line|] eqn:Hline.
    + rewrite bool_decide_eq_true_2 by done.
      unfold CSVEdgeListReader.data_body at 2, CSVEdgeListReader.getline; simpl.
      rewrite Hline. rewrite IH by lia.
      by rewrite (drop_S _ _ _ Hline).
    + rewrite bool_decide_eq_false_2 by (by intros [? ?]).
      apply lookup_ge_None in Hline. by rewrite drop_ge by lia.
Qed.

Lemma data_loop_snd (file : CSVEdgeListReader.ifstream) (r : CSVEdgeListReader.reader) :
  (CSVEdgeListReader.data_loop stoi stod file r).2
  = foldl (CSVEdgeListReader.process_line stoi stod) r
      (drop (CSVEdgeListReader.pos file) (CSVEdgeListReader.lines file)).
Proof.
  destruct file as [ls p]. unfold CSVEdgeListReader.data_loop. simpl.
  apply data_loop_foldl. lia.
Qed.

(** The members after the lines [ls] were handled by a fresh reader. *)
Definition loaded (ls : list (list ascii)) : bool * CSVEdgeListReader.reader :=
  let r := foldl (CSVEdgeListReader.process_line stoi stod) CSVEdgeListReader.new_reader ls in
  (bool_decide (CSVEdgeListReader.edges r ≠ []), r).

(** [loadEdges] by the lines it handles. *)
Lemma loadEdges_unfold (ls : list (list ascii)) :
  CSVEdgeListReader.loadEdges stoi stod (Some ls) =
  match ls with
  | [] => loaded []
  | first :: rest =>
      if CSVEdgeListReader.isHeaderLine first then
        match rest with
        | [] => (false, CSVEdgeListReader.new_reader)
        | _ :: rest' => loaded rest'
        end
      else loaded ls
  end.
Proof.
  unfold CSVEdgeListReader.loadEdges, loaded, CSVEdgeListReader.getline,
    CSVEdgeListReader.seekg0.
  destruct ls as [|first rest]; cbn [CSVEdgeListReader.lines CSVEdgeListReader.pos lookup
    list_lookup].
  { by rewrite data_loop_snd. }
  destruct (CSVEdgeListReader.isHeaderLine first);
    cbn [CSVEdgeListReader.lines CSVEdgeListReader.pos lookup list_lookup].
  - destruct rest as [|second rest'];
      cbn [CSVEdgeListReader.lines CSVEdgeListReader.pos lookup list_lookup]; [done|].
    by rewrite data_loop_snd.
  - by rewrite data_loop_snd.
Qed.

(** What holds of the members whatever lines were handled. *)
Definition reader_inv (r : CSVEdgeListReader.reader) : Prop :=
  -1 ≤ CSVEdgeListReader.maxNodeId r ∧
  (CSVEdgeListReader.edges r = [] → CSVEdgeListReader.maxNodeId r = -1) ∧
  Forall (λ e, Teste3.source e ≠ Teste3.target e ∧
               Teste3.source e ≤ CSVEdgeListReader.maxNodeId r ∧
               Teste3.target e ≤ CSVEdgeListReader.maxNodeId r)
         (CSVEdgeListReader.edges r).

Lemma reader_inv_process_line (r : CSVEdgeListReader.reader) (line : list ascii) :
  reader_inv r → reader_inv (CSVEdgeListReader.process_line stoi stod r line).
Proof.
  intros (Hmin & Hempty & Hall). unfold CSVEdgeListReader.process_line.
  destruct (_ <$> _) as [|t0 [|t1 [|t2 tokens]]]; [done..|].
  destruct (stoi t0) as [source|]; [|done].
  destruct (stoi t1) as [target|]; [|done].
  destruct (stod t2) as [weight|]; [|done].
  destruct (decide (source ≠ target)) as [Hne|]; [|done].
  split_and!; simpl.
  - lia.
  - intros Heq. by apply app_nil in Heq as [_ ?].
  - apply Forall_app. split.
    + eapply Forall_impl; [done|]. intros e (? & ? & ?); simpl in *. lia.
    + repeat constructor; simpl; [done|lia..].
Qed.

Lemma reader_inv_foldl (ls : list (list ascii)) (r : CSVEdgeListReader.reader) :
  reader_inv r → reader_inv (foldl (CSVEdgeListReader.process_line stoi stod) r ls).
Proof.
  revert r. induction ls as [|line ls IH]; intros r Hr; simpl; [done|].
  by apply IH, reader_inv_process_line.
Qed.

Lemma reader_inv_new : reader_inv CSVEdgeListReader.new_reader.
Proof. split_and!; [done|done|constructor]. Qed.

Lemma loaded_inv (ls : list (list ascii)) :
  reader_inv (loaded ls).2 ∧
  ((loaded ls).1 = true ↔ CSVEdgeListReader.edges (loaded ls).2 ≠ []).
Proof.
  unfold loaded. cbn [fst snd]. split; [apply reader_inv_foldl, reader_inv_new|].
  apply bool_decide_eq_true.
Qed.

Lemma loadEdges_inv (content : option (list (list ascii))) :
  reader_inv (CSVEdgeListReader.loadEdges stoi stod content).2 ∧
  ((CSVEdgeListReader.loadEdges stoi stod content).1 = true ↔
   CSVEdgeListReader.edges (CSVEdgeListReader.loadEdges stoi stod content).2 ≠ []).
Proof.
  assert (reader_inv (false, CSVEdgeListReader.new_reader).2 ∧
          ((false, CSVEdgeListReader.new_reader).1 = true ↔
           CSVEdgeListReader.edges (false, CSVEdgeListReader.new_reader).2 ≠ [])) as Hnew.
  { split; [apply reader_inv_new|done]. }
  destruct content as [ls|]; [|done].
  rewrite loadEdges_unfold.
  destruct ls as [|first rest]; [apply loaded_inv|].
  destruct (CSVEdgeListReader.isHeaderLine first); [|apply loaded_inv].
  destruct rest as [|second rest]; [done|apply loaded_inv].
Qed.
End loadEdges_properties.

(** A file with a header and two data lines, and parsers for numbers of
    one digit to run the embedding with. *)
Module ReaderExample.
Definition digit (c : ascii) : option Z :=
  let n := nat_of_ascii c in
  if decide (48 ≤ n ≤ 57)%nat then Some (Z.of_nat (n - 48)) else None.

Definition stoi1 (str : list ascii) : option Z :=
  match str with
  | [c] => digit c
  | _ => None
  end.

Definition stod1 (str : list ascii) : option Qc := Qc_of_Z <$> stoi1 str.

(** The lines [source,target,weight], [ 0, 1 ,5] and [1,2,4]. *)
Definition header : list ascii :=
  ["s"; "o"; "u"; "r"; "c"; "e"; ","; "t"; "a"; "r"; "g"; "e"; "t"; ","; "w"; "e"; "i"; "g"; "h"; "t"]%char.
Definition first_data : list ascii :=
  [" "; "0"; ","; " "; "1"; " "; ","; "5"]%char.
Definition second_data : list ascii :=
  ["1"; ","; "2"; ","; "4"]%char.
Definition file : list (list ascii) := [header; first_data; second_data].

Lemma merge_sort_sorted_before :
  sorts Teste3.sorted_before (merge_sort Teste3.sorted_before).
Proof.
  apply merge_sort_sorts.
  - intros a b c. unfold Teste3.sorted_before, Teste3.edge_lt.
    intros Hab%Qcnot_lt_le Hbc%Qcnot_lt_le. apply Qcle_not_lt. by etrans.
  - intros a b. unfold Teste3.sorted_before, Teste3.edge_lt.
    destruct (Qclt_le_dec (Teste3.weight a) (Teste3.weight b)) as [Hlt|Hle].
    + right. by apply Qcle_not_lt, Qclt_le_weak.
    + left. by apply Qcle_not_lt.
Qed.
End ReaderExample.

(** X14.  [loadEdges] ([teste3.cpp]) on a file whose first line is a header
    handles the lines from the third on: the line after the header is read
    by the [getline] under the comment "Skip header if detected" and never
    looked at, so no edge comes from it, and with nothing after the header
    the function returns false.  On a file whose first line is no header
    every line is handled, in order. *)
Theorem loadEdges_header_skips_line (stoi : list ascii → option Z)
    (stod : list ascii → option Qc) (first : list ascii) (rest : list (list ascii)) :
  (CSVEdgeListReader.isHeaderLine first = true →
   CSVEdgeListReader.loadEdges stoi stod (Some [first]) = (false, CSVEdgeListReader.new_reader) ∧
   ∀ second, CSVEdgeListReader.loadEdges stoi stod (Some (first :: second :: rest))
             = loaded stoi stod rest) ∧
  (CSVEdgeListReader.isHeaderLine first = false →
   CSVEdgeListReader.loadEdges stoi stod (Some (first :: rest))
   = loaded stoi stod (first :: rest)).
Proof.
  split; intros Hheader.
  - split; [|intros second]; by rewrite loadEdges_unfold, Hheader.
  - by rewrite loadEdges_unfold, Hheader.
Qed.

Lemma loadEdges_header_skips_line_witness :
  CSVEdgeListReader.isHeaderLine ReaderExample.header = true ∧
  CSVEdgeListReader.edges
    (CSVEdgeListReader.loadEdges ReaderExample.stoi1 ReaderExample.stod1
       (Some ReaderExample.file)).2
  = [Teste3.mkEdge 1 2 (Qc_of_Z 4)].
Proof.
  assert (CSVEdgeListReader.isHeaderLine ReaderExample.header = true) as Hheader
    by (by vm_compute).
  split; [done|].
  pose proof (proj2 (proj1 (loadEdges_header_skips_line ReaderExample.stoi1
    ReaderExample.stod1 ReaderExample.header [ReaderExample.second_data]) Hheader)
    ReaderExample.first_data) as Hload.
  unfold ReaderExample.file. rewrite Hload. by vm_compute.
Defined.

(** What the fresh reader has and every line keeps, [loadEdges] ends
    with. *)
Lemma loadEdges_preserves (stoi : list ascii → option Z) (stod : list ascii → option Qc)
    (P : CSVEdgeListReader.reader → Prop) (content : option (list (list ascii))) :
  P CSVEdgeListReader.new_reader →
  (∀ r line, P r → P (CSVEdgeListReader.process_line stoi stod r line)) →
  P (CSVEdgeListReader.loadEdges stoi stod content).2.
Proof.
  intros Hnew Hline.
  assert (∀ ls r, P r → P (foldl (CSVEdgeListReader.process_line stoi stod) r ls)) as Hfold.
  { induction ls as [|line ls IH]; intros r Hr; simpl; [done|]. by apply IH, Hline. }
  destruct content as [ls|]; [|done]. rewrite loadEdges_unfold. unfold loaded.
  destruct ls as [|first rest]; [by apply Hfold|].
  destruct (CSVEdgeListReader.isHeaderLine first); [|by apply Hfold].
  destruct rest as [|second rest]; [done|by apply Hfold].
Qed.

Lemma wrap_int_id (z : Z) :
  -2147483648 ≤ z ≤ 2147483647 → CSVEdgeListReader.wrap_int z = z.
Proof.
  intros Hz. unfold CSVEdgeListReader.wrap_int. rewrite Z.mod_small; lia.
Qed.

(** X15.  Whatever the file holds, for a [stoi] that returns [int]
    values: after [loadEdges] ([teste3.cpp]) no loaded edge is a
    self-loop, [maxNodeId] is [-1] when nothing was loaded and otherwise
    at least every node number loaded, and the function returns true
    exactly when at least one edge was loaded.  While the largest node
    number is below [INT_MAX], [getNumNodes()] is [maxNodeId + 1], so it
    is not negative and every loaded node number is below it.  When a
    node number is [INT_MAX], the sum overflows the [int] and
    [getNumNodes()] is negative ([INT_MIN]). *)
Theorem loadEdges_members (stoi : list ascii → option Z) (stod : list ascii → option Qc)
    (content : option (list (list ascii))) :
  (∀ str z, stoi str = Some z → -2147483648 ≤ z ≤ 2147483647) →
  let result := CSVEdgeListReader.loadEdges stoi stod content in
  let maxNodeId := CSVEdgeListReader.maxNodeId result.2 in
  (result.1 = true ↔ CSVEdgeListReader.edges result.2 ≠ []) ∧
  -1 ≤ maxNodeId ≤ 2147483647 ∧
  (CSVEdgeListReader.edges result.2 = [] → maxNodeId = -1) ∧
  Forall (λ e, Teste3.source e ≠ Teste3.target e ∧
               Teste3.source e ≤ maxNodeId ∧ Teste3.target e ≤ maxNodeId)
         (CSVEdgeListReader.edges result.2) ∧
  (maxNodeId < 2147483647 →
   CSVEdgeListReader.getNumNodes result.2 = maxNodeId + 1) ∧
  (maxNodeId = 2147483647 →
   CSVEdgeListReader.getNumNodes result.2 = -2147483648).
Proof.
  intros Hint result maxNodeId.
  destruct (loadEdges_inv stoi stod content) as [(Hmin & Hempty & Hall) Hok].
  assert (maxNodeId ≤ 2147483647) as Hmax.
  { apply (loadEdges_preserves stoi stod
             (λ r, CSVEdgeListReader.maxNodeId r ≤ 2147483647)); [done|].
    intros r line Hr. unfold CSVEdgeListReader.process_line.
    destruct (_ <$> _) as [|t0 [|t1 [|t2 tokens]]]; [done..|].
    destruct (stoi t0) as [source|] eqn:Hsource; [|done].
    destruct (stoi t1) as [target|] eqn:Htarget; [|done].
    destruct (stod t2) as [weight|]; [|done].
    destruct (decide (source ≠ target)); [|done]. simpl.
    pose proof (Hint _ _ Hsource). pose proof (Hint _ _ Htarget). lia. }
  fold result in Hmin, Hempty, Hall, Hok. fold maxNodeId in Hmin, Hempty, Hall.
  unfold CSVEdgeListReader.getNumNodes. fold maxNodeId.
  split_and!; [done|lia|done|done|done| |].
  - intros Hbelow. apply wrap_int_id. lia.
  - intros ->. reflexivity.
Qed.

Lemma loadEdges_members_witness :
  CSVEdgeListReader.getNumNodes
    (CSVEdgeListReader.loadEdges ReaderExample.stoi1 ReaderExample.stod1
       (Some [ReaderExample.first_data; ReaderExample.second_data])).2 = 3.
Proof.
  assert (∀ str z, ReaderExample.stoi1 str = Some z → -2147483648 ≤ z ≤ 2147483647)
    as Hint.
  { intros [|c [|c' str]] z Hz; [done| |done]. unfold ReaderExample.stoi1,
      ReaderExample.digit in Hz. destruct (decide _); [|done]. simplify_eq. lia. }
  destruct (loadEdges_members ReaderExample.stoi1 ReaderExample.stod1
    (Some [ReaderExample.first_data; ReaderExample.second_data]) Hint)
    as (_ & _ & _ & _ & Hnum & _).
  rewrite Hnum; by vm_compute.
Defined.

(** X16.  [main] of [teste3.cpp] has three ways out.  It returns 1 with
    no graph when [loadEdges] returned false, and when the generator's
    construction threw, which it does whenever [getNumNodes()] is
    negative, as it is when the file names the node [INT_MAX].  Otherwise
    it returns 0, [getNumNodes()] is not negative, and the graph handed to
    [printPMFGStats] has no self-loop, joins no pair of nodes twice, has
    every edge from a loaded edge with node numbers below
    [getNumNodes()], and from two nodes on has at most
    [3 * getNumNodes() - 6] edges, whatever the oracle answers and however
    [std::sort] orders ties. *)
Theorem teste3_main_graph (stoi : list ascii → option Z) (stod : list ascii → option Qc)
    (ogdf_init : Z → SpqrOnly.call unit)
    (supportEdge : list (nat * nat) → nat → nat → SpqrOnly.call bool)
    (std_sort : list Teste3.Edge → list Teste3.Edge)
    (content : option (list (list ascii))) :
  sorts Teste3.sorted_before std_sort →
  let loaded := CSVEdgeListReader.loadEdges stoi stod content in
  let numNodes := CSVEdgeListReader.getNumNodes loaded.2 in
  match CSVEdgeListReader.main stoi stod ogdf_init supportEdge std_sort content with
  | (status, Some G) =>
      status = 0 ∧ loaded.1 = true ∧
      0 ≤ numNodes ∧ ogdf_init numNodes = SpqrOnly.Returned () ∧
      no_self_loops G ∧ no_duplicate_edges G ∧
      (∀ p, p ∈ G →
         Z.of_nat p.1 < numNodes ∧ Z.of_nat p.2 < numNodes ∧
         ∃ e, e ∈ CSVEdgeListReader.edges loaded.2 ∧ candidate_pair e = p) ∧
      (2 ≤ numNodes → numberOfEdges G ≤ 3 * numNodes - 6)
  | (status, None) =>
      status = 1 ∧
      (loaded.1 = false ∨ numNodes < 0 ∨ ogdf_init numNodes = SpqrOnly.Thrown)
  end ∧
  (loaded.1 = true → CSVEdgeListReader.maxNodeId loaded.2 = 2147483647 →
   CSVEdgeListReader.main stoi stod ogdf_init supportEdge std_sort content = (1, None)).
Proof.
  intros Hsorts loaded numNodes. unfold CSVEdgeListReader.main. fold loaded.
  destruct (loadEdges_inv stoi stod content) as [(_ & _ & Hall) _].
  fold loaded in Hall. subst numNodes. destruct loaded as [ok r]. cbn [fst snd] in *.
  split.
  2:{ intros -> Hmax. unfold CSVEdgeListReader.initializeGraph,
        CSVEdgeListReader.getNumNodes. rewrite Hmax. by rewrite decide_True. }
  destruct ok; [|split; [done|by left]].
  unfold CSVEdgeListReader.initializeGraph.
  destruct (decide (CSVEdgeListReader.getNumNodes r < 0)) as [Hneg|Hpos].
  { split; [done|]. right. by left. }
  destruct (ogdf_init (CSVEdgeListReader.getNumNodes r)) as [[]|] eqn:Hinit.
  2:{ split; [done|]. right. by right. }
  unfold Teste3.main_pmfg, Teste3.createPMFG.
  destruct (createPMFG_loop_inv supportEdge (CSVEdgeListReader.getNumNodes r)
              (std_sort (CSVEdgeListReader.edges r)))
    as (Hcount & _ & Hdup & Hrange & Hbudget).
  destruct (Hsorts (CSVEdgeListReader.edges r)) as [Hperm _].
  split_and!; [done|done|lia|done| |done| |].
  - intros u v Hin Heq. subst v.
    destruct (Hrange _ Hin) as (_ & _ & e & He & Hs & Ht & Hp).
    rewrite Hperm in He. rewrite Forall_forall in Hall.
    destruct (Hall e He) as (Hne & _). apply Hne.
    unfold candidate_pair in Hp. injection Hp as Hp1 Hp2. lia.
  - intros p Hin. destruct (Hrange _ Hin) as (? & ? & e & He & _ & _ & Hp).
    split_and!; [done..|]. exists e. by rewrite <-Hperm.
  - intros Hn. rewrite <-Hcount. apply Hbudget. unfold Teste3.maxEdges. lia.
Qed.

Lemma teste3_main_graph_witness :
  ∃ G, CSVEdgeListReader.main ReaderExample.stoi1 ReaderExample.stod1
         (λ _, SpqrOnly.Returned ()) Example4.supportEdge4
         (merge_sort Teste3.sorted_before)
         (Some [ReaderExample.first_data; ReaderExample.second_data; ReaderExample.first_data])
       = (0, Some G) ∧
       no_self_loops G ∧ no_duplicate_edges G.
Proof.
  pose proof (teste3_main_graph ReaderExample.stoi1 ReaderExample.stod1
    (λ _, SpqrOnly.Returned ()) Example4.supportEdge4
    (merge_sort Teste3.sorted_before)
    (Some [ReaderExample.first_data; ReaderExample.second_data; ReaderExample.first_data])
    ReaderExample.merge_sort_sorted_before) as Hmain.
  cbv zeta in Hmain. destruct Hmain as [Hmain _].
  destruct (CSVEdgeListReader.main _ _ _ _ _ _) as [status [G|]] eqn:Hrun.
  - destruct Hmain as (-> & _ & _ & _ & Hloops & Hdup & _). by exists G.
  - by vm_compute in Hrun.
Defined.

(** ** [count_lines] and [read_csv_matrix] of [unnamed/part_002] *)

Module CsvMatrix.
(** A file is the list of its characters, [None] one that [fopen] cannot
    open; a [FILE *] is what is left to read. *)

Definition newline : ascii := "010"%char.

(** What [fgets] stores when it may read [room] characters: it stops after
    a newline, at the end of the file, or when the room is used up.  The
    result is the characters stored and the rest of the file. *)
Fixpoint fgets_chars (room : nat) (fp : list ascii) : list ascii * list ascii :=
  match room, fp with
  | S room', c :: fp' =>
      if decide (c = newline) then ([c], fp')
      else let '(buf, fp'') := fgets_chars room' fp' in (c :: buf, fp'')
  | _, _ => ([], fp)
  end.

(** [fgets(buf, size, fp)]: at most [size - 1] characters; [None] is the
    null pointer it returns at the end of the file. *)
Definition fgets (size : nat) (fp : list ascii) : option (list ascii * list ascii) :=
  match fp with
  | [] => None
  | _ :: _ => Some (fgets_chars (size - 1) fp)
  end.

(** [char buf[4096]] in [count_lines] and [char line[65536]] in
    [read_csv_matrix]. *)
Definition sizeof_buf : nat := 4096.
Definition sizeof_line : nat := Z.to_nat 65536.

(** [while (fgets(buf, sizeof(buf), fp)) lines++;] *)
Definition count_cond (s : list ascii * Z) : bool :=
  bool_decide (is_Some (fgets sizeof_buf s.1)).

Definition count_body (s : list ascii * Z) : list ascii * Z :=
  match fgets sizeof_buf s.1 with
  | Some (_, fp) => (fp, s.2 + 1)
  | None => s
  end.

Definition count_lines (file : option (list ascii)) : Z :=
  match file with
  | None => -1
  | Some content => (run_loop count_cond count_body (length content) (content, 0)).2
  end.

(** The delimiters [",\n"] of [strtok]. *)
Definition delimiter (c : ascii) : bool :=
  bool_decide (c = ","%char ∨ c = newline).

(** The C string in a buffer: the characters before the first NUL. *)
Fixpoint c_string (buf : list ascii) : list ascii :=
  match buf with
  | [] => []
  | c :: buf' => if decide (c = "000"%char) then [] else c :: c_string buf'
  end.

(** The tokens that [strtok(line, ",\n")] and then [strtok(NULL, ",\n")]
    return until the null pointer: the runs of characters other than
    delimiters.  [token] holds the run being read, last character
    first. *)
Fixpoint strtok_from (token : list ascii) (str : list ascii) : list (list ascii) :=
  match str with
  | [] => match token with [] => [] | _ :: _ => [reverse token] end
  | c :: str' =>
      if delimiter c then
        match token with
        | [] => strtok_from [] str'
        | _ :: _ => reverse token :: strtok_from [] str'
        end
      else strtok_from (c :: token) str'
  end.

Definition strtok_all (line : list ascii) : list (list ascii) :=
  strtok_from [] (c_string line).

Section read_csv_matrix.
(** [atof], into whatever stands for a [double]. *)
Context {D : Type} (atof : list ascii → D).

(** [for (int j = 0; j < n && ptr; j++) { matrix[i][j] = atof(ptr);
    ptr = strtok(NULL, ",\n"); }] on the row [matrix[i]]; a cell is [None]
    while it is as [malloc] left it. *)
Fixpoint fill_row (n j : nat) (tokens : list (list ascii)) (row : list (option D))
    : list (option D) :=
  match tokens with
  | ptr :: tokens' =>
      if decide (j < n)%nat then fill_row n (S j) tokens' (<[j := Some (atof ptr)]> row)
      else row
  | [] => row
  end.

(** [for (int i = 0; i < n; i++) { if (!fgets(line, sizeof(line), fp))
    break; ... }] *)
Fixpoint rows_loop (fuel n i : nat) (fp : list ascii) (matrix : list (list (option D)))
    : list (list (option D)) :=
  match fuel with
  | O => matrix
  | S fuel' =>
      if decide (i < n)%nat then
        match fgets sizeof_line fp with
        | None => matrix
        | Some (line, fp') =>
            rows_loop fuel' n (S i) fp'
              (<[i := fill_row n 0 (strtok_all line) (matrix !!! i)]> matrix)
        end
      else matrix
  end.

(** [read_csv_matrix]: [None] is the null pointer, otherwise the value
    stored in [*n_out] and the matrix. *)
Definition read_csv_matrix (file : option (list ascii))
    : option (Z * list (list (option D))) :=
  let n := count_lines file in
  if decide (n ≤ 0) then None
  else
    let matrix := replicate (Z.to_nat n) (replicate (Z.to_nat n) None) in
    match file with
    | None => None
    | Some content =>
        Some (n, rows_loop (Z.to_nat n) (Z.to_nat n) 0 content matrix)
    end.
End read_csv_matrix.

(** The file whose lines are [ls], each ended by a newline. *)
Definition unlines (ls : list (list ascii)) : list ascii :=
  concat ((λ l, l ++ [newline]) <$> ls).
End CsvMatrix.

Lemma fgets_chars_line (room : nat) (l rest : list ascii) :
  CsvMatrix.newline ∉ l → (length l < room)%nat →
  CsvMatrix.fgets_chars room (l ++ CsvMatrix.newline :: rest)
  = (l ++ [CsvMatrix.newline], rest).
Proof.
  revert room. induction l as [|c l IH]; intros room Hnl Hroom;
    (destruct room; [simpl in Hroom; lia|]); cbn [CsvMatrix.fgets_chars app].
  - by rewrite decide_True.
  - apply not_elem_of_cons in Hnl as [Hc Hnl].
    rewrite decide_False by done. rewrite IH by (done || simpl in Hroom; lia). done.
Qed.

Lemma fgets_chars_full (room : nat) (l rest : list ascii) :
  CsvMatrix.newline ∉ l → (room ≤ length l)%nat →
  CsvMatrix.fgets_chars room (l ++ rest) = (take room l, drop room l ++ rest).
Proof.
  revert room. induction l as [|c l IH]; intros room Hnl Hroom.
  - destruct room; [|simpl in Hroom; lia]. by destruct rest.
  - destruct room; [done|]. cbn [CsvMatrix.fgets_chars app take drop].
    apply not_elem_of_cons in Hnl as [Hc Hnl].
    rewrite decide_False by done. rewrite IH by (done || simpl in Hroom; lia). done.
Qed.

Lemma fgets_chars_length (room : nat) (fp : list ascii) :
  (length (CsvMatrix.fgets_chars room fp).2 ≤ length fp)%nat ∧
  (0 < room → fp ≠ [] → length (CsvMatrix.fgets_chars room fp).2 < length fp)%nat.
Proof.
  revert room. induction fp as [|c fp IH]; intros room.
  - destruct room; cbn [CsvMatrix.fgets_chars snd]; split; (done || lia).
  - destruct room; cbn [CsvMatrix.fgets_chars]; [split; (done || lia)|].
    destruct (decide _); cbn [snd length]; [split; lia|].
    specialize (IH room). destruct (CsvMatrix.fgets_chars room fp) as [buf fp''].
    cbn [snd length] in *. split; lia.
Qed.

Lemma fgets_chars_eof (room : nat) (l : list ascii) :
  CsvMatrix.newline ∉ l → (length l ≤ room)%nat → CsvMatrix.fgets_chars room l = (l, []).
Proof.
  revert room. induction l as [|c l IH]; intros room Hnl Hroom.
  - by destruct room.
  - destruct room; [simpl in Hroom; lia|]. cbn [CsvMatrix.fgets_chars].
    apply not_elem_of_cons in Hnl as [Hc Hnl].
    rewrite decide_False by done. rewrite IH by (done || simpl in Hroom; lia). done.
Qed.

(** The loop of [count_lines], one [fgets] at a time. *)
Lemma count_loop_nil (fuel : nat) (k : Z) :
  run_loop CsvMatrix.count_cond CsvMatrix.count_body fuel ([], k) = ([], k).
Proof. by apply run_loop_false. Qed.

Lemma count_loop_step (fuel : nat) (fp : list ascii) (k : Z) :
  fp ≠ [] →
  run_loop CsvMatrix.count_cond CsvMatrix.count_body (S fuel) (fp, k)
  = run_loop CsvMatrix.count_cond CsvMatrix.count_body fuel
      ((CsvMatrix.fgets_chars 4095 fp).2, k + 1).
Proof.
  intros Hfp. cbn [run_loop].
  unfold CsvMatrix.count_cond, CsvMatrix.count_body, CsvMatrix.fgets. cbn [fst snd].
  destruct fp as [|c fp]; [done|].
  rewrite bool_decide_eq_true_2 by done.
  change (CsvMatrix.sizeof_buf - 1)%nat with 4095%nat.
  by destruct (CsvMatrix.fgets_chars 4095 (c :: fp)).
Qed.

(** Fuel beyond the length of what is left to read changes nothing. *)
Lemma count_loop_fuel (fuel fuel' : nat) (fp : list ascii) (k : Z) :
  (length fp ≤ fuel)%nat → (length fp ≤ fuel')%nat →
  run_loop CsvMatrix.count_cond CsvMatrix.count_body fuel (fp, k)
  = run_loop CsvMatrix.count_cond CsvMatrix.count_body fuel' (fp, k).
Proof.
  revert fuel' fp k. induction fuel as [|fuel IH]; intros fuel' fp k Hfuel Hfuel'.
  - destruct fp; [|simpl in Hfuel; lia]. by rewrite !count_loop_nil.
  - destruct (decide (fp = [])) as [->|Hfp]; [by rewrite !count_loop_nil|].
    destruct fuel' as [|fuel']; [destruct fp; [done|simpl in Hfuel'; lia]|].
    rewrite !count_loop_step by done.
    destruct (fgets_chars_length 4095 fp) as [_ Hlt].
    specialize (Hlt ltac:(lia) Hfp). apply IH; lia.
Qed.

(** A line that ends in a newline takes one [fgets] for every 4095
    characters it holds, and one more. *)
Lemma count_loop_line (m : nat) :
  ∀ (l rest : list ascii) (k : Z) (fuel : nat),
  (length l ≤ m)%nat → CsvMatrix.newline ∉ l →
  (length (l ++ CsvMatrix.newline :: rest) ≤ fuel)%nat →
  run_loop CsvMatrix.count_cond CsvMatrix.count_body fuel (l ++ CsvMatrix.newline :: rest, k)
  = run_loop CsvMatrix.count_cond CsvMatrix.count_body (length rest)
      (rest, k + Z.of_nat (length l `div` 4095 + 1)).
Proof.
  induction m as [m IH] using lt_wf_ind. intros l rest k fuel Hm Hnl Hfuel.
  rewrite length_app in Hfuel. cbn [length] in Hfuel.
  destruct fuel as [|fuel]; [lia|].
  rewrite count_loop_step by (by destruct l).
  destruct (decide (length l < 4095)%nat) as [Hshort|Hlong].
  - rewrite fgets_chars_line by done. cbn [snd].
    rewrite Nat.div_small by done.
    replace (k + Z.of_nat (0 + 1)) with (k + 1) by lia.
    apply count_loop_fuel; lia.
  - rewrite fgets_chars_full by (done || lia). cbn [snd].
    assert (length (drop 4095 l) = length l - 4095)%nat as Hdrop by apply length_drop.
    rewrite (IH (length l - 4095)%nat) with (l := drop 4095 l); [|lia|lia| |].
    + f_equal; f_equal; rewrite Hdrop.
      replace (length l) with ((length l - 4095) + 1 * 4095)%nat at 2 by lia.
      rewrite Nat.div_add by done. lia.
    + intros Hin. apply Hnl. by eapply subseteq_drop.
    + rewrite length_app. cbn [length]. lia.
Qed.

(** A last line without a newline. *)
Lemma count_loop_last (m : nat) :
  ∀ (l : list ascii) (k : Z) (fuel : nat),
  (length l ≤ m)%nat → CsvMatrix.newline ∉ l → l ≠ [] → (length l ≤ fuel)%nat →
  run_loop CsvMatrix.count_cond CsvMatrix.count_body fuel (l, k)
  = ([], k + Z.of_nat ((length l - 1) `div` 4095 + 1)).
Proof.
  induction m as [m IH] using lt_wf_ind. intros l k fuel Hm Hnl Hne Hfuel.
  destruct fuel as [|fuel]; [destruct l; [done|simpl in Hfuel; lia]|].
  rewrite count_loop_step by done.
  destruct (decide (length l ≤ 4095)%nat) as [Hshort|Hlong].
  - rewrite fgets_chars_eof by done. cbn [snd]. rewrite count_loop_nil.
    rewrite Nat.div_small by (destruct l; [done|simpl in *; lia]).
    f_equal; lia.
  - rewrite <-(app_nil_r l) at 1. rewrite fgets_chars_full by (done || lia).
    cbn [snd]. rewrite app_nil_r.
    assert (length (drop 4095 l) = length l - 4095)%nat as Hdrop by apply length_drop.
    rewrite (IH (length l - 4095)%nat) with (l := drop 4095 l); [|lia|lia| | |lia].
    + f_equal; rewrite Hdrop.
      assert ((length l - 1) `div` 4095 = (length l - 4095 - 1) `div` 4095 + 1)%nat as ->; [|lia].
      replace (length l - 1)%nat with ((length l - 4095 - 1) + 1 * 4095)%nat by lia.
      by apply Nat.div_add.
    + intros Hin. apply Hnl. by eapply subseteq_drop.
    + intros Hnil. rewrite Hnil in Hdrop. simpl in Hdrop. lia.
Qed.

(** The number of [fgets] calls that a file of lines takes. *)
Definition fgets_calls (ls : list (list ascii)) (last : list ascii) : nat :=
  (sum_list_with (λ l, length l `div` 4095 + 1) ls +
   match last with [] => 0 | _ :: _ => (length last - 1) `div` 4095 + 1 end)%nat.

Lemma count_loop_lines (ls : list (list ascii)) (last : list ascii) :
  Forall (λ l, CsvMatrix.newline ∉ l) ls → CsvMatrix.newline ∉ last →
  ∀ (k : Z) (fuel : nat), (length (CsvMatrix.unlines ls ++ last) ≤ fuel)%nat →
  run_loop CsvMatrix.count_cond CsvMatrix.count_body fuel (CsvMatrix.unlines ls ++ last, k)
  = ([], k + Z.of_nat (fgets_calls ls last)).
Proof.
  intros Hls Hlast. unfold fgets_calls.
  induction Hls as [|l ls Hl Hls IH]; intros k fuel Hfuel.
  - cbn [CsvMatrix.unlines fmap list_fmap concat app sum_list_with] in *.
    destruct (decide (last = [])) as [->|Hne].
    + rewrite count_loop_nil. f_equal; lia.
    + rewrite (count_loop_last (length last)) by done.
      destruct last; [done|]. f_equal.
  - unfold CsvMatrix.unlines in *. rewrite fmap_cons, concat_cons in *.
    rewrite <-!app_assoc in *. cbn [app] in *.
    rewrite (count_loop_line (length l)) by done.
    rewrite IH by done. f_equal; cbn [sum_list_with]; lia.
Qed.

Lemma fgets_calls_lines (ls : list (list ascii)) :
  (length ls ≤ sum_list_with (λ l, length l `div` 4095 + 1) ls)%nat ∧
  (Forall (λ l, length l < 4095)%nat ls →
   sum_list_with (λ l, length l `div` 4095 + 1)%nat ls = length ls) ∧
  (Exists (λ l, 4095 ≤ length l)%nat ls →
   length ls < sum_list_with (λ l, length l `div` 4095 + 1) ls)%nat.
Proof.
  induction ls as [|l ls (IHle & IHeq & IHlt)]; cbn [sum_list_with length].
  { split_and!; [done|done|]. by intros ?%Exists_nil. }
  split_and!.
  - lia.
  - intros [Hl Hls]%Forall_cons. rewrite IHeq by done.
    rewrite Nat.div_small by done. lia.
  - intros [Hl|Hls]%Exists_cons; [|specialize (IHlt Hls); lia].
    assert (1 ≤ length l `div` 4095)%nat; [|lia].
    by apply Nat.div_le_lower_bound.
Qed.

(** The lines of a file, the last one counted when it is not empty. *)
Definition number_of_lines (ls : list (list ascii)) (last : list ascii) : nat :=
  (length ls + match last with [] => 0 | _ :: _ => 1 end)%nat.

(** X17.  [count_lines] ([unnamed/part_002]) counts the calls of [fgets]
    with its buffer of 4096 characters, not the lines: a line ended by a
    newline takes one call for every 4095 characters it holds and one
    more.  The value is the number of lines when every such line has fewer
    than 4095 characters (and an unterminated last line at most 4095), it
    is never smaller, and it is greater as soon as one line has 4095
    characters or more. *)
Theorem count_lines_fgets_calls (ls : list (list ascii)) (last : list ascii) :
  Forall (λ l, CsvMatrix.newline ∉ l) ls → CsvMatrix.newline ∉ last →
  let n := CsvMatrix.count_lines (Some (CsvMatrix.unlines ls ++ last)) in
  n = Z.of_nat (fgets_calls ls last) ∧
  Z.of_nat (number_of_lines ls last) ≤ n ∧
  (Forall (λ l, length l < 4095)%nat ls → (length last ≤ 4095)%nat →
   n = Z.of_nat (number_of_lines ls last)) ∧
  (Exists (λ l, 4095 ≤ length l)%nat ls → Z.of_nat (number_of_lines ls last) < n).
Proof.
  intros Hls Hlast n.
  assert (n = Z.of_nat (fgets_calls ls last)) as Hn.
  { unfold n, CsvMatrix.count_lines. by rewrite count_loop_lines. }
  destruct (fgets_calls_lines ls) as (Hle & Heq & Hlt).
  rewrite Hn. unfold fgets_calls, number_of_lines. split_and!; [done|..].
  - destruct last; lia.
  - intros Hshort Hshort'. rewrite (Heq Hshort).
    destruct last as [|c last]; [done|]. rewrite Nat.div_small; [done|].
    cbn [length] in *. lia.
  - intros Hlong. specialize (Hlt Hlong). destruct last; lia.
Qed.

Lemma count_lines_fgets_calls_witness :
  1 < CsvMatrix.count_lines (Some (CsvMatrix.unlines [replicate 4095 "1"%char] ++ [])).
Proof.
  assert (Forall (λ l, CsvMatrix.newline ∉ l) [replicate 4095 "1"%char]) as Hls.
  { apply Forall_cons. split; [|constructor]. by intros [? _]%elem_of_replicate. }
  assert (CsvMatrix.newline ∉ []) as Hlast by apply not_elem_of_nil.
  assert (Exists (λ l, 4095 ≤ length l)%nat [replicate 4095 "1"%char]) as Hlong.
  { constructor. by rewrite length_replicate. }
  exact (proj2 (proj2 (proj2 (count_lines_fgets_calls _ _ Hls Hlast))) Hlong).
Defined.

Section read_csv_matrix_properties.
Context {D : Type} (atof : list ascii → D).

(** The inner loop writes the first tokens, at most [n], from column [j]
    on and leaves the other cells of the row alone. *)
Lemma fill_row_spec (n : nat) (tokens : list (list ascii)) :
  ∀ (j : nat) (row : list (option D)),
  length row = n → (j ≤ n)%nat →
  CsvMatrix.fill_row atof n j tokens row
  = take j row ++ (Some ∘ atof <$> take (n - j) tokens)
    ++ drop (j + length (take (n - j) tokens)) row.
Proof.
  induction tokens as [|ptr tokens IH]; intros j row Hrow Hj; cbn [CsvMatrix.fill_row].
  { rewrite take_nil. cbn [fmap list_fmap length app]. by rewrite Nat.add_0_r, take_drop. }
  destruct (decide (j < n)%nat) as [Hlt|Hge].
  - rewrite IH by (rewrite ?length_insert; lia).
    replace (n - j)%nat with (S (n - S j)) by lia. cbn [take fmap list_fmap length].
    rewrite (take_S_r _ j (Some (atof ptr)))
      by (apply list_lookup_insert_eq; lia).
    rewrite take_insert_ge by lia. rewrite drop_insert_lt by lia.
    rewrite <-app_assoc. cbn [app]. by rewrite Nat.add_succ_r.
  - replace (n - j)%nat with 0%nat by lia. rewrite take_0.
    cbn [fmap list_fmap length app]. by rewrite Nat.add_0_r, take_drop.
Qed.

(** The row that a line gives in a matrix of size [n]. *)
Definition row_of (n : nat) (line : list ascii) : list (option D) :=
  let tokens := take n (CsvMatrix.strtok_all line) in
  (Some ∘ atof <$> tokens) ++ replicate (n - length tokens) None.

Lemma fill_row_fresh (n : nat) (line : list ascii) :
  CsvMatrix.fill_row atof n 0 (CsvMatrix.strtok_all line) (replicate n None) = row_of n line.
Proof.
  rewrite fill_row_spec by (rewrite ?length_replicate; lia).
  rewrite take_0, Nat.sub_0_r, drop_replicate. done.
Qed.

Lemma fgets_line (size : nat) (l rest : list ascii) :
  CsvMatrix.newline ∉ l → (length l < size - 1)%nat →
  CsvMatrix.fgets size (l ++ CsvMatrix.newline :: rest)
  = Some (l ++ [CsvMatrix.newline], rest).
Proof.
  intros Hnl Hsize. unfold CsvMatrix.fgets.
  rewrite fgets_chars_line by done. by destruct l.
Qed.

Lemma rows_loop_lookup (n : nat) (ls : list (list ascii)) :
  Forall (λ l, (CsvMatrix.newline ∉ l) ∧ Z.of_nat (length l) < 65535) ls →
  ∀ (fuel i : nat) (matrix : list (list (option D))) (r : nat),
  length matrix = n → (n - i ≤ fuel)%nat → (r < n)%nat →
  length (CsvMatrix.rows_loop atof fuel n i (CsvMatrix.unlines ls) matrix) = n ∧
  CsvMatrix.rows_loop atof fuel n i (CsvMatrix.unlines ls) matrix !!! r
  = if decide (i ≤ r)%nat then
      match ls !! (r - i)%nat with
      | Some l =>
          CsvMatrix.fill_row atof n 0 (CsvMatrix.strtok_all (l ++ [CsvMatrix.newline]))
            (matrix !!! r)
      | None => matrix !!! r
      end
    else matrix !!! r.
Proof.
  induction 1 as [|l ls [Hnl Hlen] Hls IH]; intros fuel i matrix r Hmatrix Hfuel Hr.
  - assert (CsvMatrix.rows_loop atof fuel n i (CsvMatrix.unlines []) matrix = matrix) as ->.
    { destruct fuel; cbn [CsvMatrix.rows_loop]; [done|]. by destruct (decide _). }
    split; [done|]. rewrite lookup_nil. by destruct (decide _).
  - unfold CsvMatrix.unlines. rewrite fmap_cons, concat_cons, <-app_assoc. cbn [app].
    fold (CsvMatrix.unlines ls).
    destruct fuel as [|fuel]; cbn [CsvMatrix.rows_loop].
    { split; [done|]. rewrite decide_False by lia. done. }
    destruct (decide (i < n)%nat) as [Hi|Hi].
    2:{ split; [done|]. rewrite decide_False by lia. done. }
    rewrite fgets_line by (done || unfold CsvMatrix.sizeof_line; lia).
    destruct (IH fuel (S i) (<[i := CsvMatrix.fill_row atof n 0
                (CsvMatrix.strtok_all (l ++ [CsvMatrix.newline])) (matrix !!! i)]> matrix) r)
      as [Hlength Hlookup]; [by rewrite length_insert|lia|done|].
    split; [done|]. rewrite Hlookup.
    destruct (decide (r = i)) as [->|Hne].
    + rewrite decide_False by lia. rewrite decide_True by lia.
      rewrite Nat.sub_diag. cbn [lookup list_lookup].
      apply list_lookup_total_insert_eq. lia.
    + rewrite list_lookup_total_insert_ne by done.
      destruct (decide (S i ≤ r)%nat).
      * rewrite decide_True by lia.
        replace (r - i)%nat with (S (r - S i)) by lia. done.
      * rewrite decide_False by lia. done.
Qed.

(** [read_csv_matrix] on a file of lines that fit the line buffer. *)
Lemma read_csv_matrix_unlines (ls : list (list ascii)) :
  ls ≠ [] →
  Forall (λ l, (CsvMatrix.newline ∉ l) ∧ Z.of_nat (length l) < 65535) ls →
  ∃ matrix,
    CsvMatrix.read_csv_matrix atof (Some (CsvMatrix.unlines ls))
    = Some (Z.of_nat (fgets_calls ls []), matrix) ∧
    length matrix = fgets_calls ls [] ∧
    ∀ r, (r < fgets_calls ls [])%nat →
      matrix !! r = Some (match ls !! r with
                          | Some l => row_of (fgets_calls ls []) (l ++ [CsvMatrix.newline])
                          | None => replicate (fgets_calls ls []) None
                          end).
Proof.
  intros Hne Hls. set (n := fgets_calls ls []).
  assert (CsvMatrix.count_lines (Some (CsvMatrix.unlines ls)) = Z.of_nat n) as Hcount.
  { unfold CsvMatrix.count_lines.
    rewrite <-(app_nil_r (CsvMatrix.unlines ls)) at 2.
    rewrite count_loop_lines; [done| |apply not_elem_of_nil|by rewrite app_nil_r].
    eapply Forall_impl; [done|]. by intros l [? _]. }
  assert (0 < n)%nat as Hn.
  { destruct (fgets_calls_lines ls) as (Hle & _). unfold n, fgets_calls.
    destruct ls; [done|]. cbn [length] in Hle. lia. }
  unfold CsvMatrix.read_csv_matrix. rewrite Hcount, decide_False by lia.
  rewrite Nat2Z.id. eexists. split; [done|].
  assert (length (replicate n (replicate n (@None D))) = n) as Hlen
    by apply length_replicate.
  split.
  - destruct (rows_loop_lookup n ls Hls n 0 _ 0 Hlen) as [Hlength _]; [lia|done|done].
  - intros r Hr.
    destruct (rows_loop_lookup n ls Hls n 0 _ r Hlen) as [Hlength Hlookup]; [lia|done|].
    rewrite list_lookup_alt. split; [lia|].
    rewrite Hlookup, decide_True, Nat.sub_0_r by lia.
    rewrite lookup_total_replicate_2 by done.
    destruct (ls !! r); [|done]. apply fill_row_fresh.
Qed.
End read_csv_matrix_properties.

(** X18.  On a file of at least one line, every line ended by a newline and
    shorter than 4095 characters, [read_csv_matrix] ([unnamed/part_002])
    returns the number of lines as [n] and a matrix of [n] rows: row [i]
    holds the [atof] of the first [n] non-empty fields of line [i], in
    order, and is left as [malloc] gave it from there on.  The file need
    not be square, and empty fields are passed over by [strtok]. *)
Theorem read_csv_matrix_short_lines {D : Type} (atof : list ascii → D)
    (ls : list (list ascii)) :
  ls ≠ [] →
  Forall (λ l, (CsvMatrix.newline ∉ l) ∧ (length l < 4095)%nat) ls →
  CsvMatrix.read_csv_matrix atof (Some (CsvMatrix.unlines ls))
  = Some (Z.of_nat (length ls),
          (λ l, row_of atof (length ls) (l ++ [CsvMatrix.newline])) <$> ls).
Proof.
  intros Hne Hls.
  destruct (read_csv_matrix_unlines atof ls Hne) as (matrix & Hread & Hlen & Hrows).
  { eapply Forall_impl; [done|]. intros l [? ?]. split; [done|lia]. }
  assert (fgets_calls ls [] = length ls) as Hn.
  { destruct (fgets_calls_lines ls) as (_ & Heq & _). unfold fgets_calls.
    rewrite Heq; [lia|]. eapply Forall_impl; [done|]. by intros l [_ ?]. }
  rewrite Hn in *. rewrite Hread. do 2 f_equal.
  apply (list_eq_same_length _ _ (length ls)); [by rewrite length_fmap|done|].
  intros i x y Hi Hx Hy. rewrite (Hrows i Hi) in Hx.
  rewrite list_lookup_fmap in Hy. destruct (ls !! i); by simplify_eq/=.
Qed.

Lemma read_csv_matrix_short_lines_witness :
  CsvMatrix.read_csv_matrix (λ token, token)
    (Some (CsvMatrix.unlines [["1"; ","; ","; "2"]%char; ["3"]%char]))
  = Some (2, [[Some ["1"]%char; Some ["2"]%char]; [Some ["3"]%char; None]]).
Proof.
  assert ([["1"; ","; ","; "2"]%char; ["3"]%char] ≠ []) as Hne by done.
  assert (Forall (λ l, (CsvMatrix.newline ∉ l) ∧ (length l < 4095)%nat)
            [["1"; ","; ","; "2"]%char; ["3"]%char]) as Hls.
  { repeat (apply Forall_cons; split; [split; [|cbn [length]; lia]|]); [| |constructor];
      apply (bool_decide_unpack _); by vm_compute. }
  exact (read_csv_matrix_short_lines (λ token, token) _ Hne Hls).
Defined.

(** X19.  As soon as one line of the file has 4095 characters or more (all
    lines fitting the buffer of 65536 that the second pass reads with),
    [read_csv_matrix] ([unnamed/part_002]) returns an [n] greater than the
    number of lines: the rows of the lines are filled as far as the fields
    go, and the rows from the number of lines on are returned as [malloc]
    gave them, never written. *)
Theorem read_csv_matrix_long_line {D : Type} (atof : list ascii → D)
    (ls : list (list ascii)) :
  Forall (λ l, (CsvMatrix.newline ∉ l) ∧ Z.of_nat (length l) < 65535) ls →
  Exists (λ l, 4095 ≤ length l)%nat ls →
  ∃ (n : nat) (matrix : list (list (option D))),
    CsvMatrix.read_csv_matrix atof (Some (CsvMatrix.unlines ls)) = Some (Z.of_nat n, matrix) ∧
    (length ls < n)%nat ∧ length matrix = n ∧
    (∀ i l, ls !! i = Some l →
       matrix !! i = Some (row_of atof n (l ++ [CsvMatrix.newline]))) ∧
    (∀ i, (length ls ≤ i < n)%nat → matrix !! i = Some (replicate n None)).
Proof.
  intros Hls Hlong.
  assert (ls ≠ []) as Hne by (intros ->; by apply Exists_nil in Hlong).
  destruct (read_csv_matrix_unlines atof ls Hne Hls) as (matrix & Hread & Hlen & Hrows).
  assert (length ls < fgets_calls ls [])%nat as Hn.
  { destruct (fgets_calls_lines ls) as (_ & _ & Hlt). unfold fgets_calls.
    specialize (Hlt Hlong). lia. }
  exists (fgets_calls ls []), matrix. split_and!; [done..| |].
  - intros i l Hl. rewrite Hrows, Hl; [done|].
    apply lookup_lt_Some in Hl. lia.
  - intros i Hi. rewrite Hrows by lia. by rewrite lookup_ge_None_2 by lia.
Qed.

Lemma read_csv_matrix_long_line_witness :
  ∃ (n : nat) (matrix : list (list (option (list ascii)))),
    CsvMatrix.read_csv_matrix (λ token, token)
      (Some (CsvMatrix.unlines [replicate 4095 "1"%char])) = Some (Z.of_nat n, matrix) ∧
    (1 < n)%nat ∧ matrix !! 1%nat = Some (replicate n None).
Proof.
  assert (Forall (λ l, (CsvMatrix.newline ∉ l) ∧ Z.of_nat (length l) < 65535)
            [replicate 4095 "1"%char]) as Hls.
  { apply Forall_cons. split; [|constructor].
    split; [by intros [? _]%elem_of_replicate|]. rewrite length_replicate. lia. }
  assert (Exists (λ l, 4095 ≤ length l)%nat [replicate 4095 "1"%char]) as Hlong.
  { constructor. by rewrite length_replicate. }
  destruct (read_csv_matrix_long_line (λ token, token) _ Hls Hlong)
    as (n & matrix & Hread & Hn & _ & _ & Hrest).
  exists n, matrix. split_and!; [done|done|]. apply Hrest. simpl in *. lia.
Defined.

(** A field that [strtok] returns whole: not empty, and without comma,
    newline or NUL. *)
Definition plain_field (f : list ascii) : Prop :=
  f ≠ [] ∧ Forall (λ c, CsvMatrix.delimiter c = false ∧ c ≠ "000"%char) f.

(** The fields of a line with commas between them. *)
Fixpoint join_fields (fs : list (list ascii)) : list ascii :=
  match fs with
  | [] => []
  | f :: fs' =>
      match fs' with
      | [] => f
      | _ :: _ => f ++ ","%char :: join_fields fs'
      end
  end.

Lemma c_string_plain (l : list ascii) :
  Forall (λ c, c ≠ "000"%char) l → CsvMatrix.c_string l = l.
Proof.
  induction 1 as [|c l Hc Hl IH]; cbn [CsvMatrix.c_string]; [done|].
  by rewrite decide_False, IH.
Qed.

Lemma strtok_from_field (token f rest : list ascii) :
  Forall (λ c, CsvMatrix.delimiter c = false) f →
  CsvMatrix.strtok_from token (f ++ rest) = CsvMatrix.strtok_from (reverse f ++ token) rest.
Proof.
  intros Hf. revert token. induction Hf as [|c f Hc Hf IH]; intros token; [done|].
  cbn [app CsvMatrix.strtok_from]. rewrite Hc, IH, reverse_cons, <-app_assoc. done.
Qed.

Lemma join_fields_chars (P : ascii → Prop) (fs : list (list ascii)) :
  P ","%char → Forall (Forall P) fs → Forall P (join_fields fs).
Proof.
  intros Hcomma. induction 1 as [|f fs Hf Hfs IH]; cbn [join_fields]; [constructor|].
  destruct fs as [|f' fs]; [done|]. apply Forall_app. split; [done|]. by constructor.
Qed.

Lemma strtok_join_fields (fs : list (list ascii)) :
  Forall plain_field fs →
  CsvMatrix.strtok_all (join_fields fs ++ [CsvMatrix.newline]) = fs.
Proof.
  intros Hfs. unfold CsvMatrix.strtok_all. rewrite c_string_plain.
  2:{ apply Forall_app. split; [|by repeat constructor].
      apply join_fields_chars; [done|].
      eapply Forall_impl; [done|]. intros f [_ Hf].
      eapply Forall_impl; [done|]. by intros c [_ ?]. }
  induction Hfs as [|f fs [Hne Hf] Hfs IH]; [done|].
  assert (Forall (λ c, CsvMatrix.delimiter c = false) f) as Hf'.
  { eapply Forall_impl; [done|]. by intros c [? _]. }
  assert (∃ c token, reverse f = c :: token) as (c & token & Hrev).
  { destruct (reverse f) as [|c token] eqn:Hrev; [|by eauto].
    apply (f_equal reverse) in Hrev. rewrite reverse_involutive in Hrev. done. }
  assert (reverse (c :: token) = f) as Hf''
    by (by rewrite <-Hrev, reverse_involutive).
  cbn [join_fields]. destruct fs as [|f' fs].
  - rewrite strtok_from_field, app_nil_r, Hrev by done.
    cbn [CsvMatrix.strtok_from]. change (CsvMatrix.delimiter CsvMatrix.newline) with true.
    cbn iota. by rewrite Hf''.
  - rewrite <-app_assoc. cbn [app].
    rewrite strtok_from_field, app_nil_r, Hrev by done.
    cbn [CsvMatrix.strtok_from]. change (CsvMatrix.delimiter ","%char) with true.
    cbn iota. by rewrite Hf'', IH.
Qed.

(** X20.  On a square file, [n >= 1] lines of [n] fields each, every field
    a run of characters other than comma, newline and NUL, commas between
    the fields and every line shorter than 4095 characters,
    [read_csv_matrix] ([unnamed/part_002]) returns [n] and the matrix of
    the [atof] values of the fields, every cell written. *)
Theorem read_csv_matrix_square {D : Type} (atof : list ascii → D)
    (fields : list (list (list ascii))) :
  fields ≠ [] →
  Forall (λ row, length row = length fields ∧ Forall plain_field row ∧
                 (length (join_fields row) < 4095)%nat) fields →
  CsvMatrix.read_csv_matrix atof (Some (CsvMatrix.unlines (join_fields <$> fields)))
  = Some (Z.of_nat (length fields),
          (λ row : list (list ascii), (Some ∘ atof <$> row : list (option D))) <$> fields).
Proof.
  intros Hne Hfields.
  assert (join_fields <$> fields ≠ []) as Hne' by (by destruct fields).
  destruct (read_csv_matrix_unlines atof (join_fields <$> fields) Hne')
    as (matrix & Hread & Hlen & Hrows).
  { apply Forall_fmap. eapply Forall_impl; [done|]. intros row (_ & Hrow & Hshort).
    simpl. split; [|lia]. intros Hin.
    assert (Forall (λ c, CsvMatrix.delimiter c = false ∨ c = ","%char) (join_fields row))
      as Hchars.
    { apply join_fields_chars; [by right|].
      eapply Forall_impl; [done|]. intros f [_ Hf].
      eapply Forall_impl; [done|]. intros c [? _]. by left. }
    rewrite Forall_forall in Hchars. by destruct (Hchars _ Hin). }
  assert (fgets_calls (join_fields <$> fields) [] = length fields) as Hn.
  { destruct (fgets_calls_lines (join_fields <$> fields)) as (_ & Heq & _).
    unfold fgets_calls. rewrite Heq, length_fmap; [lia|].
    apply Forall_fmap. eapply Forall_impl; [done|]. by intros row (_ & _ & ?). }
  rewrite Hn in *. rewrite Hread. do 2 f_equal.
  apply (list_eq_same_length _ _ (length fields)); [by rewrite length_fmap|done|].
  intros i x y Hi Hx Hy. rewrite (Hrows i Hi) in Hx.
  rewrite !list_lookup_fmap in *. destruct (fields !! i) as [row|] eqn:Hrow; simplify_eq/=.
  rewrite Forall_forall in Hfields.
  destruct (Hfields row) as (Hlength & Hplain & _); [by eapply list_elem_of_lookup_2|].
  unfold row_of. rewrite strtok_join_fields by done. cbv zeta.
  rewrite take_ge by lia. rewrite Hlength, Nat.sub_diag. cbn [replicate].
  by rewrite app_nil_r.
Qed.

Lemma read_csv_matrix_square_witness :
  CsvMatrix.read_csv_matrix (λ token, token)
    (Some (CsvMatrix.unlines
             (join_fields <$> [[["1"]; ["2"; "5"]]; [["3"]; ["4"]]]%char)))
  = Some (2, [[Some ["1"]%char; Some ["2"; "5"]%char]; [Some ["3"]%char; Some ["4"]%char]]).
Proof.
  assert ([[["1"]; ["2"; "5"]]; [["3"]; ["4"]]]%char ≠ []) as Hne by done.
  assert (∀ f, bool_decide (f ≠ [] ∧
            Forall (λ c, CsvMatrix.delimiter c = false ∧ c ≠ "000"%char) f) = true →
          plain_field f) as Hplain by (intros f; apply bool_decide_eq_true_1).
  assert (Forall (λ row, length row = 2%nat ∧ Forall plain_field row ∧
                         (length (join_fields row) < 4095)%nat)
            [[["1"]; ["2"; "5"]]; [["3"]; ["4"]]]%char) as Hfields.
  { repeat (apply Forall_cons; split; [split_and!; [done| |cbn; lia]|]); [| |constructor];
      repeat (apply Forall_cons; split; [by apply Hplain; vm_compute|]); constructor. }
  exact (read_csv_matrix_square (λ token, token) _ Hne Hfields).
Defined.

Lemma count_loop_ge (fuel : nat) (fp : list ascii) (k : Z) :
  k ≤ (run_loop CsvMatrix.count_cond CsvMatrix.count_body fuel (fp, k)).2.
Proof.
  revert fp k. induction fuel as [|fuel IH]; intros fp k; [done|].
  destruct (decide (fp = [])) as [->|Hfp]; [by rewrite count_loop_nil|].
  rewrite count_loop_step by done. etrans; [|apply IH]. lia.
Qed.

Lemma fill_row_length {D : Type} (atof : list ascii → D) (n : nat)
    (tokens : list (list ascii)) :
  ∀ (j : nat) (row : list (option D)),
  length (CsvMatrix.fill_row atof n j tokens row) = length row.
Proof.
  induction tokens as [|ptr tokens IH]; intros j row; cbn [CsvMatrix.fill_row]; [done|].
  destruct (decide _); [|done]. by rewrite IH, length_insert.
Qed.

Lemma rows_loop_shape {D : Type} (atof : list ascii → D) (n : nat) (fuel : nat) :
  ∀ (i : nat) (fp : list ascii) (matrix : list (list (option D))),
  Forall (λ row, length row = n) matrix →
  length (CsvMatrix.rows_loop atof fuel n i fp matrix) = length matrix ∧
  Forall (λ row, length row = n) (CsvMatrix.rows_loop atof fuel n i fp matrix).
Proof.
  induction fuel as [|fuel IH]; intros i fp matrix Hrows; cbn [CsvMatrix.rows_loop]; [done|].
  destruct (decide _) as [Hi|]; [|done].
  destruct (CsvMatrix.fgets _ fp) as [[line fp']|]; [|done].
  destruct (IH (S i) fp' (<[i := CsvMatrix.fill_row atof n 0 (CsvMatrix.strtok_all line)
                                   (matrix !!! i)]> matrix)) as [Hlen Hall].
  - destruct (decide (i < length matrix)%nat) as [Hlt|Hge].
    + apply Forall_insert; [done|]. rewrite fill_row_length.
      rewrite Forall_forall in Hrows. apply Hrows.
      by apply list_elem_of_lookup_total_2.
    + by rewrite list_insert_ge by lia.
  - split; [|done]. by rewrite Hlen, length_insert.
Qed.

(** X21.  [read_csv_matrix] ([unnamed/part_002]) returns the null pointer
    exactly when the file cannot be opened or is empty; for every other
    file it returns an [n >= 1] and a matrix of [n] rows of [n] cells. *)
Theorem read_csv_matrix_null {D : Type} (atof : list ascii → D)
    (file : option (list ascii)) :
  (CsvMatrix.read_csv_matrix atof file = None ↔ file = None ∨ file = Some []) ∧
  ∀ n matrix, CsvMatrix.read_csv_matrix atof file = Some (n, matrix) →
    1 ≤ n ∧ Z.of_nat (length matrix) = n ∧
    Forall (λ row, Z.of_nat (length row) = n) matrix.
Proof.
  unfold CsvMatrix.read_csv_matrix.
  destruct file as [[|c fp]|].
  - split; [split; [by right|done]|done].
  - assert (1 ≤ CsvMatrix.count_lines (Some (c :: fp))) as Hn.
    { unfold CsvMatrix.count_lines. cbn [length]. rewrite count_loop_step by done.
      etrans; [|apply count_loop_ge]. done. }
    revert Hn. generalize (CsvMatrix.count_lines (Some (c :: fp))). intros n Hn.
    rewrite decide_False by lia. split.
    { split; [done|]. by intros [|]. }
    intros n' matrix Heq. injection Heq as <- <-.
    destruct (rows_loop_shape atof (Z.to_nat n) (Z.to_nat n) 0 (c :: fp)
                (replicate (Z.to_nat n) (replicate (Z.to_nat n) None))) as [Hlen Hall].
    { apply Forall_replicate. apply length_replicate. }
    split_and!; [done| |].
    + rewrite Hlen, length_replicate. lia.
    + eapply Forall_impl; [done|]. intros row Hrow; simpl in Hrow. lia.
  - split; [split; [by left|done]|done].
Qed.

(** ** [printPMFGStats] of [teste3.cpp] *)

Module GeneratorStats.
Record stats := Stats { utilization : Stats.double; average_degree : Stats.double }.

(** [printPMFGStats(G, totalNodes)]: the two quotients it prints;
    [numberOfNodes] is [G.numberOfNodes()].  [maxPlanarEdges] and
    [2 * numEdges] are computed in [int]. *)
Definition printPMFGStats (G : Graph) (numberOfNodes : Z) (totalNodes : Z) : stats :=
  let numEdges := numberOfEdges G in
  let numNodes := numberOfNodes in
  let maxPlanarEdges := CSVEdgeListReader.wrap_int (3 * totalNodes - 6) in
  Stats (Stats.fmul (Stats.fdiv (Qc_of_Z numEdges) (Qc_of_Z maxPlanarEdges)) (Qc_of_Z 100))
        (Stats.fdiv (Qc_of_Z (CSVEdgeListReader.wrap_int (2 * numEdges))) (Qc_of_Z numNodes)).

(** [main] up to its call of [printPMFGStats] on the graph and
    [reader.getNumNodes()]; the graph has the [getNumNodes()] nodes that
    the generator made.  [None]: [main] returned 1 before. *)
Definition main_stats (stoi : list ascii → option Z) (stod : list ascii → option Qc)
    (ogdf_init : Z → SpqrOnly.call unit)
    (supportEdge : Graph → node → node → SpqrOnly.call bool)
    (std_sort : list Teste3.Edge → list Teste3.Edge)
    (content : option (list (list ascii))) : option stats :=
  let numNodes :=
    CSVEdgeListReader.getNumNodes (CSVEdgeListReader.loadEdges stoi stod content).2 in
  match CSVEdgeListReader.main stoi stod ogdf_init supportEdge std_sort content with
  | (_, Some pmfg) => Some (printPMFGStats pmfg numNodes numNodes)
  | (_, None) => None
  end.
End GeneratorStats.

Lemma generator_no_budget
    (supportEdge : list (nat * nat) → nat → nat → SpqrOnly.call bool)
    (numNodes : Z) (sortedEdges : list Teste3.Edge) :
  numNodes ≤ 2 → Teste3.createPMFG supportEdge numNodes sortedEdges = [].
Proof.
  intros Hn. unfold Teste3.createPMFG, Teste3.createPMFG_loop.
  rewrite run_loop_false; [done|].
  apply andb_false_iff. right. apply bool_decide_eq_false.
  unfold Teste3.maxEdges. simpl. lia.
Qed.

(** X22.  What [main] of [teste3.cpp] prints as statistics, when it gets
    that far, by the number of nodes [getNumNodes()]; this number is then
    not negative, since the generator's construction throws on a negative
    one.  From three nodes on, as long as [6 * getNumNodes()] fits an
    [int], both quotients are numbers, the utilization between 0 and 100
    and the average degree between 0 and 6.  With two nodes, that is when
    1 is the largest node number in the file, the budget [3 * 2 - 6] is 0,
    no edge is added and the utilization is 0/0, NaN.  With no node, when
    every node number in the file is negative, the average degree is 0/0,
    NaN. *)
Theorem teste3_main_stats (stoi : list ascii → option Z) (stod : list ascii → option Qc)
    (ogdf_init : Z → SpqrOnly.call unit)
    (supportEdge : list (nat * nat) → nat → nat → SpqrOnly.call bool)
    (std_sort : list Teste3.Edge → list Teste3.Edge)
    (content : option (list (list ascii))) (st : GeneratorStats.stats) :
  GeneratorStats.main_stats stoi stod ogdf_init supportEdge std_sort content = Some st →
  let numNodes :=
    CSVEdgeListReader.getNumNodes (CSVEdgeListReader.loadEdges stoi stod content).2 in
  0 ≤ numNodes ∧
  (3 ≤ numNodes → 6 * numNodes ≤ 2147483647 →
   ∃ u d : Qc, st = GeneratorStats.Stats (Stats.Finite u) (Stats.Finite d) ∧
     (0 ≤ u)%Qc ∧ (u ≤ Qc_of_Z 100)%Qc ∧ (0 ≤ d)%Qc ∧ (d ≤ Qc_of_Z 6)%Qc) ∧
  (numNodes = 2 → st = GeneratorStats.Stats Stats.NaN (Stats.Finite 0)) ∧
  (numNodes = 1 → st = GeneratorStats.Stats (Stats.Finite 0) (Stats.Finite 0)) ∧
  (numNodes = 0 → st = GeneratorStats.Stats (Stats.Finite 0) Stats.NaN).
Proof.
  intros Hst. cbv zeta. unfold GeneratorStats.main_stats, CSVEdgeListReader.main in Hst.
  destruct (CSVEdgeListReader.loadEdges stoi stod content) as [ok r].
  cbn [fst snd] in *. destruct ok; [|done].
  unfold CSVEdgeListReader.initializeGraph in Hst.
  set (numNodes := CSVEdgeListReader.getNumNodes r) in *.
  destruct (decide (numNodes < 0)) as [|Hpos']; [done|].
  destruct (ogdf_init numNodes) as [[]|]; [|done]. injection Hst as <-.
  assert (0 ≤ numNodes) as Hpos by lia.
  unfold Teste3.main_pmfg.
  set (G := Teste3.createPMFG supportEdge numNodes (std_sort (CSVEdgeListReader.edges r))).
  assert (numNodes ≤ 2 → G = []) as Hnone by apply generator_no_budget.
  assert (∀ b, b ≠ 0 → Stats.fdiv (Qc_of_Z 0) (Qc_of_Z b) = Stats.Finite 0) as Hzero.
  { intros b Hb. unfold Stats.fdiv. rewrite decide_False.
    - f_equal. unfold Qcdiv. by rewrite Z2Qc_inj_0, Qcmult_0_l.
    - rewrite <-Z2Qc_inj_0. by intros ?%Z2Qc_inj. }
  unfold GeneratorStats.printPMFGStats. cbv zeta.
  split_and!; [done| | | |].
  - intros Hn Hfits.
    destruct (createPMFG_loop_inv supportEdge numNodes (std_sort (CSVEdgeListReader.edges r)))
      as (Hcount & _ & _ & _ & Hbudget).
    assert (numberOfEdges G ≤ 3 * numNodes - 6) as Hb.
    { unfold G, Teste3.createPMFG. rewrite <-Hcount. apply Hbudget.
      unfold Teste3.maxEdges. lia. }
    assert (0 ≤ numberOfEdges G) as He by (unfold numberOfEdges; lia).
    remember (numberOfEdges G) as e eqn:Hedef. clear Hedef.
    rewrite !wrap_int_id by lia.
    assert (0 < Qc_of_Z (3 * numNodes - 6))%Qc as Hm
      by (rewrite <-Z2Qc_inj_0; apply (proj1 (Z2Qc_inj_lt _ _)); lia).
    assert (0 < Qc_of_Z numNodes)%Qc as HN
      by (rewrite <-Z2Qc_inj_0; apply (proj1 (Z2Qc_inj_lt _ _)); lia).
    assert (0 ≤ Qc_of_Z e)%Qc as He'
      by (rewrite <-Z2Qc_inj_0; apply (proj1 (Z2Qc_inj_le _ _)); lia).
    assert (0 ≤ Qc_of_Z (2 * e))%Qc as He2
      by (rewrite <-Z2Qc_inj_0; apply (proj1 (Z2Qc_inj_le _ _)); lia).
    assert (0 ≤ Qc_of_Z 100)%Qc as H100
      by (rewrite <-Z2Qc_inj_0; by apply (proj1 (Z2Qc_inj_le _ _))).
    destruct (Qc_ratio_bounds (Qc_of_Z e) (Qc_of_Z (3 * numNodes - 6)) Hm He') as [Hu0 Hu1];
      [by apply (proj1 (Z2Qc_inj_le _ _))|].
    exists (Qc_of_Z e / Qc_of_Z (3 * numNodes - 6) * Qc_of_Z 100)%Qc,
           (Qc_of_Z (2 * e) / Qc_of_Z numNodes)%Qc.
    split_and!.
    + unfold Stats.fdiv.
      rewrite !decide_False; [done|..];
        intros Heq; [rewrite Heq in HN; by destruct (Qclt_not_eq _ _ HN)
                    |rewrite Heq in Hm; by destruct (Qclt_not_eq _ _ Hm)].
    + by apply Qcmult_nonneg_nonneg.
    + rewrite <-(Qcmult_1_l (Qc_of_Z 100)) at 2. by apply Qcmult_le_compat_r.
    + apply (Qcmult_lt_0_le_reg_r _ _ (Qc_of_Z numNodes) HN).
      rewrite Qcmult_0_l, Qcmult_comm, Qcmult_div_r; [done|].
      intros Heq. rewrite Heq in HN. by destruct (Qclt_not_eq _ _ HN).
    + apply (Qcmult_lt_0_le_reg_r _ _ (Qc_of_Z numNodes) HN).
      rewrite (Qcmult_comm (_ / _)), Qcmult_div_r.
      * rewrite <-Z2Qc_inj_mul. apply (proj1 (Z2Qc_inj_le _ _)). lia.
      * intros Heq. rewrite Heq in HN. by destruct (Qclt_not_eq _ _ HN).
  - intros Hn. rewrite Hnone by lia. rewrite Hn.
    change (numberOfEdges []) with 0.
    change (CSVEdgeListReader.wrap_int (3 * 2 - 6)) with 0.
    change (CSVEdgeListReader.wrap_int (2 * 0)) with 0.
    rewrite (Hzero 2) by done. unfold Stats.fdiv.
    rewrite !decide_True by (by rewrite Z2Qc_inj_0). done.
  - intros Hn. rewrite Hnone by lia. rewrite Hn.
    change (numberOfEdges []) with 0.
    change (CSVEdgeListReader.wrap_int (3 * 1 - 6)) with (-3).
    change (CSVEdgeListReader.wrap_int (2 * 0)) with 0.
    rewrite (Hzero 1), (Hzero (-3)) by done. cbn [Stats.fmul]. by rewrite Qcmult_0_l.
  - intros Hn. rewrite Hnone by lia. rewrite Hn.
    change (numberOfEdges []) with 0.
    change (CSVEdgeListReader.wrap_int (3 * 0 - 6)) with (-6).
    change (CSVEdgeListReader.wrap_int (2 * 0)) with 0.
    rewrite (Hzero (-6)) by done. cbn [Stats.fmul]. rewrite Qcmult_0_l.
    unfold Stats.fdiv. rewrite !decide_True by (by rewrite Z2Qc_inj_0). done.
Qed.

Lemma teste3_main_stats_witness :
  ∃ st, GeneratorStats.main_stats ReaderExample.stoi1 ReaderExample.stod1
          (λ _, SpqrOnly.Returned ()) Example4.supportEdge4
          (merge_sort Teste3.sorted_before)
          (Some [ReaderExample.first_data]) = Some st ∧
        st = GeneratorStats.Stats Stats.NaN (Stats.Finite 0).
Proof.
  destruct (GeneratorStats.main_stats ReaderExample.stoi1 ReaderExample.stod1
              (λ _, SpqrOnly.Returned ()) Example4.supportEdge4
              (merge_sort Teste3.sorted_before)
              (Some [ReaderExample.first_data])) as [st|] eqn:Hst;
    [|by vm_compute in Hst].
  exists st. split; [done|].
  apply (proj1 (proj2 (proj2 (teste3_main_stats _ _ _ _ _ _ st Hst)))).
  by vm_compute.
Defined.

(** ** Lines that [isHeaderLine] does not take for a header *)

Lemma starts_with_head_absent (p c : ascii) (pat str : list ascii) :
  p ≠ c → CSVEdgeListReader.starts_with (p :: pat) (c :: str) = false.
Proof. intros Hne. cbn [CSVEdgeListReader.starts_with]. by rewrite bool_decide_eq_false_2. Qed.

Lemma contains_head_absent (p : ascii) (pat str : list ascii) :
  p ∉ str → CSVEdgeListReader.contains str (p :: pat) = false.
Proof.
  induction str as [|c str IH]; intros Hp; [done|].
  apply not_elem_of_cons in Hp as [Hne Hp].
  cbn [CSVEdgeListReader.contains]. by rewrite starts_with_head_absent, IH.
Qed.

(** X23.  A line in which none of the letters s, f, n, t occurs, in either
    case, is no header for [isHeaderLine] ([teste3.cpp]): every keyword
    starts with one of them.  So [loadEdges] handles every line of a file
    whose first line is such a line, as a line of digits, signs, dots,
    commas, blanks and exponents is. *)
Theorem loadEdges_numeric_first_line (stoi : list ascii → option Z)
    (stod : list ascii → option Qc) (first : list ascii) (rest : list (list ascii)) :
  Forall (λ c, CSVEdgeListReader.tolower c ∉ ["s"; "f"; "n"; "t"]%char) first →
  CSVEdgeListReader.isHeaderLine first = false ∧
  CSVEdgeListReader.loadEdges stoi stod (Some (first :: rest))
  = loaded stoi stod (first :: rest).
Proof.
  intros Hfirst.
  assert (∀ p, p ∈ ["s"; "f"; "n"; "t"]%char → p ∉ CSVEdgeListReader.tolower <$> first)
    as Habsent.
  { intros p Hp [c [-> Hc]]%list_elem_of_fmap.
    rewrite Forall_forall in Hfirst. by apply (Hfirst c Hc). }
  assert (CSVEdgeListReader.isHeaderLine first = false) as Hheader.
  { unfold CSVEdgeListReader.isHeaderLine. cbv zeta.
    rewrite !contains_head_absent by (apply Habsent; repeat constructor). done. }
  split; [done|]. by rewrite loadEdges_unfold, Hheader.
Qed.

Lemma loadEdges_numeric_first_line_witness :
  CSVEdgeListReader.loadEdges ReaderExample.stoi1 ReaderExample.stod1
    (Some [ReaderExample.first_data; ReaderExample.second_data])
  = loaded ReaderExample.stoi1 ReaderExample.stod1
      [ReaderExample.first_data; ReaderExample.second_data].
Proof.
  assert (Forall (λ c, CSVEdgeListReader.tolower c ∉ ["s"; "f"; "n"; "t"]%char)
            ReaderExample.first_data) as Hfirst.
  { apply (bool_decide_unpack _). by vm_compute. }
  exact (proj2 (loadEdges_numeric_first_line ReaderExample.stoi1 ReaderExample.stod1
                  ReaderExample.first_data [ReaderExample.second_data] Hfirst)).
Defined.
